(** * Air-quality dashboard: ingestion and anomaly-detection pipeline

    A shallow embedding of the page component of the dashboard (the
    React component [Page]): the processing of an upstream response into
    a series ([fetchLiveData]), the synthetic series used when the fetch
    fails ([generateFallbackData]), the statistical screen
    ([detectAnomalies]) and the two refresh effects.

    JavaScript numbers are IEEE-754 binary64 values; they are embedded as
    Rocq's primitive floats, so every arithmetic step below is the one a
    JavaScript engine performs.  Dates are embedded by their time value
    (milliseconds since the epoch, [None] for an invalid date). *)

From Stdlib Require Import ZArith Lia List Bool String Ascii Floats.
From Stdlib Require Uint63.
From Stdlib Require Import Permutation Sorted.
Import ListNotations.

Local Open Scope Z_scope.

(** ** Outcomes of evaluation *)

Inductive Error : Type :=
| TypeError
| NetworkError.

Inductive Outcome (A : Type) : Type :=
| Ok (a : A)
| Throw (e : Error).

Arguments Ok {A} a.
Arguments Throw {A} e.

Definition bind {A B : Type} (m : Outcome A) (k : A -> Outcome B) : Outcome B :=
  match m with
  | Ok a => k a
  | Throw e => Throw e
  end.

Notation "x <- m ;; k" := (bind m (fun x => k))
  (at level 61, m at next level, right associativity).

(** [try { body } catch (error) { handler }] *)
Definition try_catch {A : Type} (body : Outcome A) (handler : Error -> Outcome A)
  : Outcome A :=
  match body with
  | Ok a => Ok a
  | Throw e => handler e
  end.

(** [Array.prototype.map] with a callback that may throw: the elements are
    visited from left to right and the first exception ends the call. *)
Fixpoint mapM {A B : Type} (f : A -> Outcome B) (l : list A) : Outcome (list B) :=
  match l with
  | [] => Ok []
  | x :: l' => y <- f x ;; ys <- mapM f l' ;; Ok (y :: ys)
  end.

(** ** Numbers *)

Module Number.

(** The binary64 value nearest to an integer (ties to even). *)
Definition of_Z (z : Z) : float :=
  SF2Prim (binary_normalize prec emax z 0 false).

Definition of_nat (n : nat) : float := of_Z (Z.of_nat n).

(** The binary64 value nearest to [num / den], for [num >= 0] and
    [den > 0].  The quotient is taken with 64 extra bits and one sticky
    bit, which is enough for the final rounding to 53 bits to be the
    rounding of the exact quotient. *)
Definition of_ratio (num den : Z) : float :=
  if num =? 0 then zero
  else
    let s := Z.log2 den + 64 in
    let q := (num * 2 ^ s) / den in
    let r := (num * 2 ^ s) mod den in
    let q' := 2 * q + (if r =? 0 then 0 else 1) in
    SF2Prim (binary_normalize prec emax q' (- s - 1) false).

(** The number denoted by the decimal literal [m * 10^e10], [m >= 0]. *)
Definition of_decimal (m e10 : Z) : float :=
  if 0 <=? e10 then of_Z (m * 10 ^ e10) else of_ratio m (10 ^ (- e10)).

(** ToIntegerOrInfinity on a finite number: truncation toward zero. *)
Definition truncate (x : float) : option Z :=
  match Prim2SF x with
  | S754_zero _ => Some 0
  | S754_finite s m e =>
      Some (cond_Zopp s (if 0 <=? e then Zpos m * 2 ^ e else Zpos m / 2 ^ (- e)))
  | _ => None
  end.

(** The remainder operator [n % d]: the result has the sign of the
    dividend and is computed exactly. *)
Definition rem (n d : float) : float :=
  match Prim2SF n, Prim2SF d with
  | S754_nan, _ | _, S754_nan => nan
  | S754_infinity _, _ => nan
  | _, S754_zero _ => nan
  | _, S754_infinity _ => n
  | S754_zero _, _ => n
  | S754_finite sn mn en, S754_finite _ md ed =>
      let e := Z.min en ed in
      let a := Zpos mn * 2 ^ (en - e) in
      let b := Zpos md * 2 ^ (ed - e) in
      let r := a mod b in
      if r =? 0 then (if sn then neg_zero else zero)
      else SF2Prim (binary_normalize prec emax (cond_Zopp sn r) e false)
  end.

End Number.

(** [Math.round]: the integer nearest to [x], ties toward +infinity. *)
Definition Math_round (x : float) : float :=
  match Prim2SF x with
  | S754_finite s m e =>
      if 0 <=? e then x
      else
        let z := cond_Zopp s (Zpos m) in
        let k := (2 * z + 2 ^ (- e)) / 2 ^ (1 - e) in
        if k =? 0 then (if s then neg_zero else zero) else Number.of_Z k
  | _ => x
  end.

(** [Math.pow(x, 2)].  Exponentiation is implementation-approximated in
    ECMAScript; the square is taken as the correctly rounded product. *)
Definition Math_pow_2 (x : float) : float := (x * x)%float.

(** ** Strings and numeric literals *)

(** A string is embedded as the sequence of the bytes of its UTF-8
    encoding; the characters the page inspects (digits, signs, letters)
    are single bytes. *)

Definition is_digit (c : ascii) : bool :=
  ((48 <=? nat_of_ascii c) && (nat_of_ascii c <=? 57))%nat.

Definition digit_value (c : ascii) : Z := Z.of_nat (nat_of_ascii c) - 48.

(** The white space of one byte skipped by [parseFloat] and [parseInt]:
    tab, line feed, vertical tab, form feed, carriage return and space. *)
Definition is_space (c : ascii) : bool :=
  let n := nat_of_ascii c in
  ((n =? 32) || (n =? 9) || (n =? 10) || (n =? 11) || (n =? 12) || (n =? 13))%nat.

(** The other characters of StrWhiteSpaceChar, by the last byte of their
    encoding after the lead bytes E2 80: U+2000 to U+200A, the line and
    paragraph separators U+2028 and U+2029, and U+202F. *)
Definition is_space_E2_80 (c : ascii) : bool :=
  let n := nat_of_ascii c in
  (((128 <=? n) && (n <=? 138)) || (n =? 168) || (n =? 169) || (n =? 175))%nat.

Definition byte_is (n : nat) (c : ascii) : bool := (nat_of_ascii c =? n)%nat.

(** The string without its leading white space (StrWhiteSpaceChar: the
    six characters above, U+00A0, U+1680, U+2000 to U+200A, U+2028,
    U+2029, U+202F, U+205F, U+3000 and U+FEFF). *)
Fixpoint trim_start (s : string) : string :=
  match s with
  | String c s' =>
      if is_space c then trim_start s'
      else
        match s' with
        | String c2 s2 =>
            if byte_is 194 c && byte_is 160 c2 then trim_start s2
            else
              match s2 with
              | String c3 s3 =>
                  if (byte_is 225 c && byte_is 154 c2 && byte_is 128 c3)
                     || (byte_is 226 c && byte_is 128 c2 && is_space_E2_80 c3)
                     || (byte_is 226 c && byte_is 129 c2 && byte_is 159 c3)
                     || (byte_is 227 c && byte_is 128 c2 && byte_is 128 c3)
                     || (byte_is 239 c && byte_is 187 c2 && byte_is 191 c3)
                  then trim_start s3
                  else s
              | EmptyString => s
              end
        | EmptyString => s
        end
  | EmptyString => s
  end.

(** The longest prefix of decimal digits, and the rest. *)
Fixpoint span_digits (s : string) : list ascii * string :=
  match s with
  | String c s' =>
      if is_digit c then let '(ds, rest) := span_digits s' in (c :: ds, rest)
      else ([], s)
  | EmptyString => ([], s)
  end.

Definition digits_value (ds : list ascii) : Z :=
  fold_left (fun acc c => 10 * acc + digit_value c) ds 0.

Definition take_sign (s : string) : bool * string :=
  match s with
  | String "-"%char s' => (true, s')
  | String "+"%char s' => (false, s')
  | _ => (false, s)
  end.

(** The exponent part [e[+-]digits] of a literal, when it is complete. *)
Definition exponent_part (s : string) : Z :=
  match s with
  | String c s' =>
      if (Ascii.eqb c "e" || Ascii.eqb c "E")%bool then
        let '(neg, s'') := take_sign s' in
        match span_digits s'' with
        | ([], _) => 0
        | (ds, _) => if neg then - digits_value ds else digits_value ds
        end
      else 0
  | EmptyString => 0
  end.

Definition signed (neg : bool) (x : float) : float :=
  if neg then (- x)%float else x.

(** [parseFloat] on a string: the longest prefix that is a
    StrDecimalLiteral, [NaN] when there is none. *)
Definition parseFloat_string (s : string) : float :=
  let '(neg, s1) := take_sign (trim_start s) in
  if String.prefix "Infinity" s1 then signed neg infinity
  else
    let '(ip, s2) := span_digits s1 in
    let '(fp, s3) :=
      match s2 with
      | String "."%char s2' => span_digits s2'
      | _ => ([], s2)
      end in
    match ip ++ fp with
    | [] => nan
    | ds =>
        signed neg
          (Number.of_decimal (digits_value ds)
             (exponent_part s3 - Z.of_nat (List.length fp)))
    end.

(** [parseInt] on a string, radix 10: optional sign, then the longest
    prefix of digits.  (The hexadecimal prefix is not modelled: the only
    call site passes a string of decimal digits.) *)
Definition parseInt (s : string) : float :=
  let '(neg, s1) := take_sign (trim_start s) in
  match span_digits s1 with
  | ([], _) => nan
  | (ds, _) => signed neg (Number.of_Z (digits_value ds))
  end.

(** [s.replace(/\D/g, '')]: the decimal digits of [s], in order. *)
Fixpoint remove_non_digits (s : string) : string :=
  match s with
  | String c s' =>
      if is_digit c then String c (remove_non_digits s') else remove_non_digits s'
  | EmptyString => EmptyString
  end.

(** ** Dates *)

(** A Date object is represented by its time value: milliseconds since
    the epoch, [None] for an Invalid Date. *)
Definition Date : Type := option Z.

Definition max_time : Z := 8640000000000000.

Definition TimeClip (t : Z) : Date :=
  if Z.abs t <=? max_time then Some t else None.

Definition msPerHour : Z := 60 * 60 * 1000.

(** ** Values *)

#[local] Set Warnings "-register-all".

Inductive JSValue : Type :=
| VUndefined
| VNull
| VBool (b : bool)
| VNum (x : float)
| VStr (s : string)
| VDate (d : Date)
| VArr (items : list JSValue)
| VObj (fields : list (string * JSValue)).

Fixpoint assoc {A : Type} (default : A) (key : string) (fs : list (string * A)) : A :=
  match fs with
  | [] => default
  | (k, v) :: fs' => if String.eqb key k then v else assoc default key fs'
  end.

(** Property access [v[key]] for the keys the page reads ([timestamp],
    [deviceid] and the pollutant keys): it throws on [undefined] and
    [null], and yields [undefined] on a primitive, on a Date, on an array
    and on an object without the key. *)
Definition get (v : JSValue) (key : string) : Outcome JSValue :=
  match v with
  | VUndefined | VNull => Throw TypeError
  | VObj fs => Ok (assoc VUndefined key fs)
  | _ => Ok VUndefined
  end.

(** ToBoolean *)
Definition truthy (v : JSValue) : bool :=
  match v with
  | VUndefined | VNull => false
  | VBool b => b
  | VNum x => negb (is_zero x || is_nan x)
  | VStr s => negb (String.eqb s "")
  | VDate _ | VArr _ | VObj _ => true
  end.

(** [a || b] *)
Definition JS_or (a b : JSValue) : JSValue := if truthy a then a else b.

(** [parseFloat(v)]: the argument is first converted to a string.  A
    number prints to a literal that reads back as the same number (the
    sign of zero apart).  An array prints its elements separated by
    commas, [null] and [undefined] as nothing: what is read is the text of
    the first element, the comma ending any literal.  Every other value
    prints to text that does not start with a numeric literal. *)
Fixpoint parseFloat (v : JSValue) : float :=
  match v with
  | VStr s => parseFloat_string s
  | VNum x => if is_zero x then zero else x
  | VArr (first :: _) => parseFloat first
  | _ => nan
  end.

(** ** Entries of the series *)

(** An entry of the series shown by the chart. *)
Record Sample : Type := {
  time : string;
  value : float;
  timestamp : Date
}.

(** A processed entry seen as a value again (an object with the three
    properties [time], [value] and [timestamp]). *)
Definition Sample_object (s : Sample) : JSValue :=
  VObj [("time", VStr (time s)); ("value", VNum (value s));
        ("timestamp", VDate (timestamp s))]%string.

(** ** The host environment *)

(** What the engine and its locale decide: the parsing of date strings
    and of the text of an array, the formatting of a time of day, the
    local time zone offset, and the order in which [sort] leaves an array
    when the comparator is not consistent (a permutation of the array). *)
Record Host : Type := {
  Date_parse : string -> Date;
  Date_parse_array : list JSValue -> Date;
  toLocaleTimeString : Date -> string;
  LocalTZA : Z -> Z;
  sort_inconsistent : list Sample -> list Sample;
  sort_inconsistent_permutes : forall l, Permutation l (sort_inconsistent l)
}.

(** [date.getHours()]: the hour of the local time, [NaN] when invalid. *)
Definition getHours (h : Host) (d : Date) : float :=
  match d with
  | Some t => Number.of_Z (((t + LocalTZA h t) / msPerHour) mod 24)
  | None => nan
  end.

(** [new Date(v)] *)
Definition new_Date (h : Host) (v : JSValue) : Date :=
  match v with
  | VDate d => d
  | VStr s => Date_parse h s
  | VUndefined => None
  | VNull => TimeClip 0
  | VBool b => TimeClip (if b then 1 else 0)
  | VNum x => match Number.truncate x with Some t => TimeClip t | None => None end
  | VArr items => Date_parse_array h items
  | VObj _ => Date_parse h "[object Object]"
  end.

(** ** The page state *)

(** The state variables of the component that the pipeline reads or
    writes. *)
Record State : Type := {
  siteId : string;
  pollutantType : string;
  startDate : string;
  endDate : string;
  graphData : list Sample;
  loading : bool;
  lastUpdated : Date;
  anomalies : list Sample
}.

Definition setGraphData (d : list Sample) (st : State) : State :=
  {| siteId := siteId st; pollutantType := pollutantType st;
     startDate := startDate st; endDate := endDate st;
     graphData := d; loading := loading st;
     lastUpdated := lastUpdated st; anomalies := anomalies st |}.

Definition setLoading (b : bool) (st : State) : State :=
  {| siteId := siteId st; pollutantType := pollutantType st;
     startDate := startDate st; endDate := endDate st;
     graphData := graphData st; loading := b;
     lastUpdated := lastUpdated st; anomalies := anomalies st |}.

Definition setLastUpdated (d : Date) (st : State) : State :=
  {| siteId := siteId st; pollutantType := pollutantType st;
     startDate := startDate st; endDate := endDate st;
     graphData := graphData st; loading := loading st;
     lastUpdated := d; anomalies := anomalies st |}.

Definition setAnomalies (a : list Sample) (st : State) : State :=
  {| siteId := siteId st; pollutantType := pollutantType st;
     startDate := startDate st; endDate := endDate st;
     graphData := graphData st; loading := loading st;
     lastUpdated := lastUpdated st; anomalies := a |}.

(** Notifications handed to the toast collaborator. *)
Inductive Toast : Type :=
| toast_warning (message : string)
| toast_error (message : string).

(** ** Anomaly detection *)

(** [detectAnomalies(data)]: the guard returns without touching the state;
    otherwise the anomaly list is replaced. *)
Definition detectAnomalies (data : list Sample) (st : State) : State :=
  match data with
  | [] => st
  | _ =>
      let values := map value data in
      let mean :=
        (fold_left (fun sum val => sum + val) values 0
         / Number.of_nat (List.length values))%float in
      let stdDev :=
        sqrt (fold_left (fun sum val => sum + Math_pow_2 (val - mean)) values 0
              / Number.of_nat (List.length values))%float in
      let threshold := (mean + 3 * stdDev)%float in
      let detectedAnomalies :=
        filter (fun item => (threshold <? value item)%float) data in
      setAnomalies detectedAnomalies st
  end.

(** ** Processing a response *)

Definition paramKey_of (pollutantType : string) : string :=
  if String.eqb pollutantType "PM2.5" then "pm2.5cnc"%string else "pm10cnc"%string.

(** The callback of [response.data.map]. *)
Definition processItem (h : Host) (paramKey : string) (item : JSValue)
  : Outcome Sample :=
  ts <- get item "timestamp" ;;
  raw <- get item paramKey ;;
  Ok {| time := toLocaleTimeString h (new_Date h ts);
        value := parseFloat (JS_or raw (VNum 0));
        timestamp := new_Date h ts |}.

(** The comparator [(a, b) => a.timestamp - b.timestamp], by the sign of
    its result.  Time values are integers below 2^53 in magnitude, so the
    sign of the floating-point difference is that of the exact one; with
    an invalid date the difference is [NaN], which sorting reads as 0. *)
Definition compare_timestamp (a b : Sample) : comparison :=
  match timestamp a, timestamp b with
  | Some ta, Some tb => Z.compare ta tb
  | _, _ => Eq
  end.

(** A stable sort by insertion from the right. *)
Fixpoint insert_sorted {A : Type} (cmp : A -> A -> comparison) (x : A) (l : list A)
  : list A :=
  match l with
  | [] => [x]
  | y :: l' =>
      match cmp x y with
      | Gt => y :: insert_sorted cmp x l'
      | _ => x :: l
      end
  end.

Fixpoint stable_sort {A : Type} (cmp : A -> A -> comparison) (l : list A) : list A :=
  match l with
  | [] => []
  | x :: l' => insert_sorted cmp x (stable_sort cmp l')
  end.

Definition is_dated (s : Sample) : bool :=
  match timestamp s with
  | Some _ => true
  | None => false
  end.

(** No entry is followed by one that the comparator puts before it. *)
Fixpoint is_run (l : list Sample) : bool :=
  match l with
  | a :: ((b :: _) as l') =>
      match compare_timestamp a b with
      | Gt => false
      | _ => is_run l'
      end
  | _ => true
  end.

(** [processedData.sort((a, b) => a.timestamp - b.timestamp)].  When all
    dates are valid the comparator is consistent and the result is the
    one of any stable sort.  With an invalid date the comparator answers
    NaN and the order is implementation-defined: an array that is already
    one ascending run is left as it is (the sort looks for runs first; the
    stable sort leaves it too), and any other array is put in the order
    of the host. *)
Definition sort (h : Host) (l : list Sample) : list Sample :=
  if (forallb is_dated l || is_run l)%bool then stable_sort compare_timestamp l
  else sort_inconsistent h l.

(** [l.slice(-n)]: the last [n] elements, all of them when there are fewer. *)
Definition slice_last {A : Type} (n : nat) (l : list A) : list A :=
  skipn (List.length l - n) l.

(** Map, sort and truncate: the series built from the items of a response. *)
Definition normalize (h : Host) (paramKey : string) (data : list JSValue)
  : Outcome (list Sample) :=
  processedData <- mapM (processItem h paramKey) data ;;
  Ok (slice_last 96 (sort h processedData)).

(** ** The fallback generator *)

(** What a cycle reads from the outside: the clock (once when the
    fallback starts, once for the "last updated" stamp) and the draws of
    [Math.random], indexed by the iteration that makes them. *)
Record World : Type := {
  now : Z;
  random : nat -> float;
  updated : Z
}.

Definition baseValue_of (siteIndex timeOfDay : float) : float :=
  let baseValue := (30 + siteIndex * 5)%float in
  if ((7 <=? timeOfDay) && (timeOfDay <=? 10))%float then
    (baseValue + (40 + (timeOfDay - 7) * 20))%float
  else if ((17 <=? timeOfDay) && (timeOfDay <=? 20))%float then
    (baseValue + (50 + (timeOfDay - 17) * 15))%float
  else baseValue.

(** One iteration of the loop of [generateFallbackData]. *)
Definition fallbackSample (h : Host) (siteId : string) (w : World) (i : nat)
  : Sample :=
  let timestamp := TimeClip (now w - (23 - Z.of_nat i) * 60 * 60 * 1000) in
  let formattedTime := toLocaleTimeString h timestamp in
  let siteIndex := Number.rem (parseInt (remove_non_digits siteId)) 10 in
  let timeOfDay := getHours h timestamp in
  let baseValue := baseValue_of siteIndex timeOfDay in
  let value :=
    (Math_round ((baseValue + (random w i * 30 - 15)) * 100) / 100)%float in
  {| time := formattedTime; timestamp := timestamp; value := value |}.

Definition fallbackData (h : Host) (siteId : string) (w : World) : list Sample :=
  map (fallbackSample h siteId w) (seq 0 24).

Definition generateFallbackData (h : Host) (w : World) (st : State) : State :=
  let data := fallbackData h (siteId st) w in
  detectAnomalies data (setLastUpdated (TimeClip (updated w)) (setGraphData data st)).

(** ** One fetch cycle *)

(** How [await axios.get(apiUrl)] ends: the promise is rejected, or it
    resolves with a body that is an array of items or something else. *)
Inductive ResponseData : Type :=
| DataArray (items : list JSValue)
| DataOther (body : JSValue).

Inductive AxiosResult : Type :=
| Rejected
| Resolved (data : ResponseData).

Definition await_get (r : AxiosResult) : Outcome ResponseData :=
  match r with
  | Rejected => Throw NetworkError
  | Resolved d => Ok d
  end.

(** [fetchLiveData]: the new state and the notifications of the cycle. *)
Definition fetchLiveData (h : Host) (w : World) (r : AxiosResult) (st : State)
  : Outcome (State * list Toast) :=
  if String.eqb (siteId st) "" then Ok (st, [])
  else
    let st := setLoading true st in
    try_catch
      (let paramKey := paramKey_of (pollutantType st) in
       response_data <- await_get r ;;
       match response_data with
       | DataArray items =>
           recentData <- normalize h paramKey items ;;
           let st := setGraphData recentData st in
           let st := detectAnomalies recentData st in
           let st := setLastUpdated (TimeClip (updated w)) st in
           Ok (setLoading false st, [])
       | DataOther _ =>
           Ok (setLoading false st,
               [toast_warning ("No data available for " ++ siteId st)])
       end)
      (fun error =>
         let st := setLoading false st in
         Ok (generateFallbackData h w st,
             [toast_error "Failed to fetch live air quality data"])).

(** ** The refresh effects *)

Module Scheduler.

(** The outside of the component as the effects see it: the interval
    timers that are set, the next timer id, and how many times
    [fetchLiveData] has been called. *)
Record Timers : Type := {
  active : list nat;
  next_id : nat;
  fetch_calls : nat
}.

Definition call_fetchLiveData (t : Timers) : Timers :=
  {| active := active t; next_id := next_id t;
     fetch_calls := S (fetch_calls t) |}.

(** [setInterval(fetchLiveData, 60000)]: the new timer and its id. *)
Definition setInterval (t : Timers) : Timers * nat :=
  ({| active := next_id t :: active t; next_id := S (next_id t);
      fetch_calls := fetch_calls t |}, next_id t).

Definition clearInterval (id : nat) (t : Timers) : Timers :=
  {| active := filter (fun i => negb (Nat.eqb i id)) (active t);
     next_id := next_id t; fetch_calls := fetch_calls t |}.

(** The body of a refresh effect: fetch now, set the timer; the value
    returned is the id its cleanup clears. *)
Definition refresh_effect (t : Timers) : Timers * nat :=
  setInterval (call_fetchLiveData t).

(** The effects of the page whose dependency is [fetchLiveData], in the
    order of the source: the block after [detectAnomalies] and the
    block after [getSiteName]. *)
Definition refresh_effects : list (Timers -> Timers * nat) :=
  [refresh_effect; refresh_effect].

(** A mounted component remembers one cleanup per effect. *)
Record Component : Type := {
  timers : Timers;
  cleanups : list nat
}.

Definition run_effects (effects : list (Timers -> Timers * nat)) (t : Timers)
  : Component :=
  fold_left
    (fun c effect =>
       let '(t', id) := effect (timers c) in
       {| timers := t'; cleanups := cleanups c ++ [id] |})
    effects {| timers := t; cleanups := [] |}.

Definition run_cleanups (c : Component) : Timers :=
  fold_left (fun t id => clearInterval id t) (cleanups c) (timers c).

(** The parameters [fetchLiveData] is memoized on. *)
Inductive QueryParameter : Type :=
| P_siteId
| P_pollutantType
| P_startDate
| P_endDate.

Inductive Event : Type :=
| Changed (p : QueryParameter)   (* a render with a new value of [p] *)
| Rendered                  (* a render with the same parameters *)
| Tick (id : nat)           (* the timer [id] fires *)
| Unmounted.

Definition mount (t : Timers) : Component := run_effects refresh_effects t.

Definition step (c : Component) (e : Event) : Component :=
  match e with
  | Changed _ => run_effects refresh_effects (run_cleanups c)
  | Rendered => c
  | Tick id =>
      if existsb (Nat.eqb id) (active (timers c)) then
        {| timers := call_fetchLiveData (timers c); cleanups := cleanups c |}
      else c
  | Unmounted => {| timers := run_cleanups c; cleanups := [] |}
  end.

Definition start : Timers := {| active := []; next_id := 0; fetch_calls := 0 |}.

(** The component after a sequence of events. *)
Definition history (c : Component) (events : list Event) : Component :=
  fold_left step events c.

(** Both refresh effects hold a timer of their own. *)
Definition two_timers (c : Component) : Prop :=
  exists a, cleanups c = [a; S a] /\ active (timers c) = [S a; a].

End Scheduler.

(** ** An example host and example data *)

Definition two_digits (n : Z) : string :=
  let d := fun k => ascii_of_nat (48 + Z.to_nat k) in
  String (d (n / 10 mod 10)) (String (d (n mod 10)) EmptyString).

(** A host in UTC that prints times as HH:MM, parses no date string, and
    leaves in place an array it is free to order. *)
Definition utc_host : Host := {|
  Date_parse := fun _ => None;
  Date_parse_array := fun _ => None;
  toLocaleTimeString := fun d =>
    match d with
    | Some t => (two_digits (t / msPerHour mod 24) ++ ":"
                 ++ two_digits (t / 60000 mod 60))%string
    | None => "Invalid Date"%string
    end;
  LocalTZA := fun _ => 0;
  sort_inconsistent := fun l => l;
  sort_inconsistent_permutes := fun l => Permutation_refl l
|}.

(** An upstream item [{ timestamp: t, [key]: reading }]. *)
Definition item_of (key : string) (t : Z) (reading : JSValue) : JSValue :=
  VObj [("timestamp"%string, VNum (Number.of_Z t)); (key, reading)].

Definition initial_state : State := {|
  siteId := "site_104"; pollutantType := "PM2.5";
  startDate := "2023-12-29"; endDate := "2023-12-30";
  graphData := []; loading := false; lastUpdated := None; anomalies := []
|}.

(** ** Binary64 values as scaled integers *)

Module Binary64.

(** Every finite binary64 number is an integer multiple of 2^-1074,
    and the exact product of two of them a multiple of 2^-2148.  The
    value of a number is recorded as that number times [2^scale]. *)
Definition scale : Z := 2200.

Arguments scale : simpl never.

(** [m * 2^e], scaled. *)
Definition dyadic (m e : Z) : Z := m * 2 ^ (e + scale).

Definition SFvalue (x : spec_float) : Z :=
  match x with
  | S754_finite s m e => dyadic (cond_Zopp s (Zpos m)) e
  | _ => 0
  end.

(** The scaled magnitude. *)
Definition SFmag (x : spec_float) : Z :=
  match x with
  | S754_finite _ m e => dyadic (Zpos m) e
  | _ => 0
  end.

Definition SFfinite (x : spec_float) : bool :=
  match x with
  | S754_zero _ | S754_finite _ _ _ => true
  | _ => false
  end.

(** The scaled value of a number (0 for NaN and the infinities). *)
Definition val (x : float) : Z := SFvalue (Prim2SF x).

Definition finite (x : float) : bool := SFfinite (Prim2SF x).

(** The exponent at which a number of magnitude below [2^k] is kept. *)
Definition fexp64 (k : Z) : Z := Z.max (k - 53) (-1074).

(** What [binary_round_aux] builds from a rounded mantissa. *)
Definition pack (s : bool) (m e : Z) : spec_float :=
  match m with
  | Z0 => S754_zero s
  | Zpos p => if e <=? 971 then S754_finite s p e else S754_infinity s
  | Zneg _ => S754_nan
  end.

(** [m * 2^e] is kept as it is when [m] is short enough; otherwise it
    is cut at the exponent [e + n] of its binade, and the quotient is
    kept or incremented (kept when the division is exact). *)
Definition rounds_to (m e m' e' : Z) : Prop :=
  0 <= m' /\ e <= e' /\
  ((fexp64 (Zdigits2 m + e) <= e /\ m' = m /\ e' = e) \/
   (e < fexp64 (Zdigits2 m + e) /\
    exists m2,
      let n := fexp64 (Zdigits2 m + e) - e in
      dyadic m' e' = dyadic m2 (e + n) /\
      m / 2 ^ n <= m2 <= m / 2 ^ n + 1 /\
      (m mod 2 ^ n = 0 -> m2 = m / 2 ^ n) /\
      (-1074 < e + n -> 2 ^ 52 <= m / 2 ^ n) /\
      (0 < m2 -> 0 < m' /\ fexp64 (Zdigits2 m' + e') = e'))).

(** The mantissa and exponent of a valid finite number. *)
Definition canonical (m e : Z) : Prop :=
  0 < m /\ fexp64 (Zdigits2 m + e) = e.

(** After [k] right shifts of [M]: the mantissa is the quotient, and
    the two flags are off when nothing was lost. *)
Definition shifted (M k : Z) (mrs : shr_record) : Prop :=
  shr_m mrs = M / 2 ^ k /\
  (M mod 2 ^ k = 0 -> shr_r mrs = false /\ shr_s mrs = false).

(** [y] is +infinity, or a finite number whose scaled value is at
    least [V]. *)
Definition at_least (V : Z) (y : spec_float) : Prop :=
  y = S754_infinity false \/ (SFfinite y = true /\ V <= SFvalue y).

(** [V] is the scaled value of a positive number of the format, the
    exponent not being bounded from above. *)
Definition representable (V : Z) : Prop :=
  exists m e, canonical m e /\ V = dyadic m e.

(** [y] is NaN, +infinity, a zero or a positive number. *)
Definition not_negative (y : spec_float) : Prop :=
  y = S754_nan \/ at_least 0 y.

(** The largest finite binary64 number, an integer. *)
Definition max_integer : Z := 9007199254740991 * 2 ^ 971.

End Binary64.

(** ** The statistics of a series *)

(** The sum of a list of numbers, added from left to right. *)
Fixpoint sum_from (acc : float) (l : list float) : float :=
  match l with
  | [] => acc
  | x :: l' => sum_from (acc + x)%float l'
  end.

Definition arithmetic_mean (values : list float) : float :=
  (sum_from 0 values / Number.of_nat (List.length values))%float.

(** The population standard deviation: the square root of the mean of
    the squared deviations from the mean. *)
Definition population_stddev (values : list float) : float :=
  let mu := arithmetic_mean values in
  sqrt (sum_from 0 (map (fun x => (x - mu) * (x - mu)) values)
        / Number.of_nat (List.length values))%float.

Definition anomaly_threshold (values : list float) : float :=
  (arithmetic_mean values + 3 * population_stddev values)%float.

(** ** Properties of a series *)


Definition dated (s : Sample) : Prop := timestamp s <> None.

(** No entry is followed by one that the comparator puts before it. *)
Definition ascending (l : list Sample) : Prop :=
  Sorted (fun a b => compare_timestamp a b <> Gt) l.

Definition with_value (x : float) (s : Sample) : Sample :=
  {| time := time s; value := x; timestamp := timestamp s |}.

(** A clock at 2023-12-29T00:00:00Z and a generator stuck at one half. *)
Definition example_world : World := {|
  now := 1703808000000;
  random := fun _ => 0.5%float;
  updated := 1703808000250
|}.

(** A state left by an earlier cycle: one entry on the chart, flagged. *)
Definition stale_sample : Sample :=
  {| time := "00:00"; value := 500; timestamp := Some 1703808000000 |}.

Definition stale_state : State :=
  setAnomalies [stale_sample] (setGraphData [stale_sample] initial_state).

(** The entries of a response before sorting (none when an item throws). *)
Definition processed_of (h : Host) (key : string) (data : list JSValue) : list Sample :=
  match mapM (processItem h key) data with
  | Ok l => l
  | Throw _ => []
  end.


(** A response of two items in ascending order; the second has no reading. *)
Definition short_response : list JSValue :=
  [item_of "pm2.5cnc" 1703808000000 (VStr "10");
   VObj [("timestamp"%string, VNum (Number.of_Z 1703808900000))]].

(** ** Items of a response *)










(** ** The fallback series, entry by entry *)

(** The integers [lo], [lo + 1], ..., [lo + n - 1]. *)
Fixpoint Zrange (lo : Z) (n : nat) : list Z :=
  match n with
  | O => []
  | S n' => lo :: Zrange (lo + 1) n'
  end.

(** The site index of [generateFallbackData]. *)
Definition siteIndex_of (siteId : string) : float :=
  Number.rem (parseInt (remove_non_digits siteId)) 10.

Definition digits_only (s : string) : bool :=
  forallb is_digit (list_ascii_of_string s).

(** The timestamp of entry [i] of the fallback series. *)
Definition fallback_timestamp (w : World) (i : nat) : Date :=
  TimeClip (now w - (23 - Z.of_nat i) * 60 * 60 * 1000).

(** The baseline of entry [i]: the value before the noise is added. *)
Definition baseline (h : Host) (siteId : string) (w : World) (i : nat) : float :=
  baseValue_of (siteIndex_of siteId) (getHours h (fallback_timestamp w i)).

(** [a] is strictly earlier than [b], both dates being valid. *)
Definition earlier (a b : Sample) : Prop :=
  exists ta tb, timestamp a = Some ta /\ timestamp b = Some tb /\ ta < tb.

(** The draws of [Math.random] lie in [0, 1). *)
Definition unit_draws (w : World) : Prop :=
  forall i, (0 <=? random w i)%float = true /\ (random w i <? 1)%float = true.

(** A small whole number as the machine converts it. *)
Definition float_of (k : Z) : float := PrimFloat.of_uint63 (Uint63.of_Z k).

(** The hours [getHours] can answer: 0 to 23, or NaN. *)
Definition hours : list float := nan :: map float_of (Zrange 0 24).

(** The baselines the generator can build: the multiples of 5 from 30 to
    175. *)
Definition grid : list Z := map (fun j => 30 + 5 * j) (Zrange 0 30).

(** The baseline for one site index and one hour is on the grid. *)
Definition baseline_on_grid (siteIndex hour : float) : bool :=
  existsb (fun u => PrimFloat.Leibniz.eqb (baseValue_of siteIndex hour) (float_of u))
          grid.

(** The number of hundredths [k], divided by 100, is at least 15 and
    between [below] and [above]. *)
Definition within (below above : float) (k : Z) : bool :=
  let v := (float_of k / 100)%float in
  ((0 <=? v) && (15 <=? v) && (below <=? v) && (v <=? above))%float.

(** For the baseline [u]: every number of hundredths within 1500 of it,
    divided by 100, is at least 15 and within 15 of the baseline. *)
Definition hundredths_check (u : Z) : bool :=
  forallb (within (float_of u - 15) (float_of u + 15)) (Zrange (100 * (u - 15)) 3001).

(** A site id with 310 digits, and two worlds that differ in one draw. *)
Definition long_site_id : string :=
  String "1" (string_of_list_ascii (repeat "0"%char 309)).

Definition other_world : World := {|
  now := 1703808000000;
  random := fun _ => 0.25%float;
  updated := 1703808000250
|}.

(** The same clock and the same first 24 draws as [example_world]; the
    later draws and the second reading of the clock differ. *)
Definition replayed_world : World := {|
  now := 1703808000000;
  random := fun i => if (i <? 24)%nat then 0.5%float else 0.75%float;
  updated := 1703808009999
|}.

(** ** Series of identical values *)

(** [n] entries a quarter of an hour apart, all with the value [x]. *)
Definition constant_series (x : float) (n : nat) : list Sample :=
  map (fun t => {| time := toLocaleTimeString utc_host (Some t);
                   value := x;
                   timestamp := Some t |})
      (map (fun k => 1703808000000 + 900000 * k) (Zrange 0 n)).

(** The number 35.7, to the nearest. *)
Definition thirty_five_point_seven : float := 0x1.1d9999999999ap+5%float.

(** The number 0.1 * 2^-500, about 3.05e-152. *)
Definition tiny : float := 0x1.999999999999ap-504%float.

(** The number is a zero, NaN, an infinity, or at least 2^-484 (about
    2e-146) in magnitude: half a unit in its last place is then at least
    2^-537, and the square of that is still a number. *)
Definition steady (x : float) : bool :=
  (is_zero x || is_nan x || (0x1p-484 <=? abs x))%float.

(** A number that is +0, -0 or NaN. *)
Definition zero_or_nan (x : spec_float) : Prop :=
  match x with
  | S754_zero _ | S754_nan => True
  | _ => False
  end.

(** ** Lists: insertion sort and slices *)

Section Sorting.
Context {A : Type}.
Variable cmp : A -> A -> comparison.



(** A list in which no entry is followed by one that compares below it
    is left as it is. *)
Lemma stable_sort_ascending (l : list A) :
  Sorted (fun a b => cmp a b <> Gt) l -> stable_sort cmp l = l.
Proof.
  induction 1 as [|x l Hs IH Hhd]; simpl; [reflexivity|].
  rewrite IH. destruct Hhd as [|y l' Hxy]; simpl; [reflexivity|].
  destruct (cmp x y); congruence.
Qed.
End Sorting.


Lemma slice_last_short {A : Type} (n : nat) (l : list A) :
  (List.length l <= n)%nat -> slice_last n l = l.
Proof.
  intros H. unfold slice_last.
  replace (List.length l - n)%nat with 0%nat by lia. reflexivity.
Qed.


(** ** Ordering by timestamp *)





(** ** The sort of the page *)


Lemma is_run_ascending (l : list Sample) : is_run l = true <-> ascending l.
Proof.
  unfold ascending. induction l as [|a l IH].
  - split; [constructor|reflexivity].
  - destruct l as [|b l].
    + split; [repeat constructor|reflexivity].
    + cbn [is_run]. split.
      * intros H. destruct (compare_timestamp a b) eqn:E; try discriminate;
          (constructor; [apply IH, H|constructor; congruence]).
      * intros H. inversion H as [|? ? Hs Hhd]; subst.
        inversion Hhd as [|? ? Hab]; subst.
        destruct (compare_timestamp a b); try congruence; apply IH, Hs.
Qed.



(** An array that is one ascending run is left as it is. *)
Lemma sort_ascending (h : Host) (l : list Sample) : ascending l -> sort h l = l.
Proof.
  intros H. unfold sort. rewrite (proj2 (is_run_ascending l) H), orb_true_r.
  now apply stable_sort_ascending.
Qed.




(** ** Processing a response *)

Lemma mapM_Forall2 {A B : Type} (f : A -> Outcome B) (l : list A) (l' : list B) :
  mapM f l = Ok l' <-> Forall2 (fun x y => f x = Ok y) l l'.
Proof.
  revert l'. induction l as [|x l IH]; intros l'; simpl.
  - split.
    + intros H. injection H as <-. constructor.
    + intros H. inversion H. reflexivity.
  - split.
    + destruct (f x) as [y|e] eqn:Ex; simpl; [|discriminate].
      destruct (mapM f l) as [ys|e] eqn:El; simpl; [|discriminate].
      intros H. injection H as <-. constructor; [assumption|]. now apply IH.
    + intros H. inversion H as [|? y ? ys Hx Hl]; subst.
      rewrite Hx. simpl. apply IH in Hl. rewrite Hl. reflexivity.
Qed.

Lemma mapM_length {A B : Type} (f : A -> Outcome B) (l : list A) (l' : list B) :
  mapM f l = Ok l' -> List.length l' = List.length l.
Proof.
  intros H. apply mapM_Forall2 in H. symmetry. eapply Forall2_length, H.
Qed.

Lemma normalize_processed (h : Host) (key : string) (data : list JSValue)
      (processed : list Sample) :
  Forall2 (fun item s => processItem h key item = Ok s) data processed ->
  normalize h key data = Ok (slice_last 96 (sort h processed)).
Proof.
  intros H. apply mapM_Forall2 in H. unfold normalize. rewrite H. reflexivity.
Qed.

Lemma dated_forallb (l : list Sample) :
  forallb (fun s => match timestamp s with Some _ => true | None => false end) l = true ->
  Forall dated l.
Proof.
  intros H. rewrite forallb_forall in H. apply Forall_forall. intros s Hs.
  specialize (H s Hs). unfold dated. destruct (timestamp s); congruence.
Qed.


Lemma Forall2_In_l {A B : Type} (R : A -> B -> Prop) (l : list A) (l' : list B) (x : A) :
  Forall2 R l l' -> In x l -> exists y, In y l' /\ R x y.
Proof.
  induction 1 as [|a b l l' Hab Hl IH]; simpl; [intros []|].
  intros [<-|Hx].
  - exists b. auto.
  - destruct (IH Hx) as (y & Hy & Hxy). exists y. auto.
Qed.

Lemma float_neq (x y : float) : Prim2SF x <> Prim2SF y -> x <> y.
Proof. intros H E. apply H. now rewrite E. Qed.


(** ** Normalizing twice *)

Lemma processItem_time (h : Host) (key : string) (item : JSValue) (s : Sample) :
  processItem h key item = Ok s -> time s = toLocaleTimeString h (timestamp s).
Proof.
  destruct item; simpl; try discriminate; intros H; injection H as <-; reflexivity.
Qed.

Lemma processItem_Sample_object (h : Host) (p : string) (s : Sample) :
  processItem h (paramKey_of p) (Sample_object s) =
  Ok {| time := toLocaleTimeString h (timestamp s); value := 0;
        timestamp := timestamp s |}.
Proof. unfold paramKey_of. destruct (String.eqb p "PM2.5"); reflexivity. Qed.

Lemma mapM_Sample_object (h : Host) (p : string) (l : list Sample) :
  Forall (fun s => time s = toLocaleTimeString h (timestamp s)) l ->
  mapM (processItem h (paramKey_of p)) (map Sample_object l) =
  Ok (map (with_value 0) l).
Proof.
  induction 1 as [|s l Hs Hl IH]; [reflexivity|].
  cbn [map mapM]. rewrite processItem_Sample_object, IH. simpl.
  unfold with_value. rewrite Hs. reflexivity.
Qed.

Lemma ascending_with_value (x : float) (l : list Sample) :
  ascending l -> ascending (map (with_value x) l).
Proof.
  unfold ascending. induction 1 as [|s l Hs IH Hhd]; simpl; constructor; auto.
  destruct Hhd; simpl; constructor. assumption.
Qed.

Lemma with_value_fixed (l : list Sample) :
  map (with_value 0) l = l <-> Forall (fun s => value s = 0%float) l.
Proof.
  induction l as [|s l IH]; simpl.
  - split; constructor.
  - split.
    + intros H. injection H as Hs Hl. constructor; [|now apply IH].
      now apply (f_equal value) in Hs.
    + intros H. inversion H as [|? ? Hs Hl]; subst. f_equal; [|now apply IH].
      destruct s; unfold with_value; simpl in *. now rewrite Hs.
Qed.

(** C7 (amended): on a response that is in ascending order and has at
    most 96 items, normalizing leaves order and length alone; normalizing
    the result again keeps the labels and timestamps but reads every
    value as 0, because a processed entry holds its reading under
    [value] and not under the pollutant key.  The two results agree
    exactly when every value of the first is 0. *)
Theorem renormalize_resets_values (h : Host) (p : string) (x : list JSValue)
        (processed : list Sample) :
  Forall2 (fun item s => processItem h (paramKey_of p) item = Ok s) x processed ->
  ascending processed ->
  (List.length x <= 96)%nat ->
  normalize h (paramKey_of p) x = Ok processed /\
  normalize h (paramKey_of p) (map Sample_object processed) =
    Ok (map (with_value 0) processed) /\
  (normalize h (paramKey_of p) (map Sample_object processed) = Ok processed <->
   Forall (fun s => value s = 0%float) processed).
Proof.
  intros Hp Hasc Hlen.
  assert (Hl : List.length processed = List.length x)
    by (symmetry; eapply Forall2_length, Hp).
  assert (H1 : normalize h (paramKey_of p) x = Ok processed).
  { rewrite (normalize_processed _ _ _ _ Hp).
    rewrite sort_ascending by assumption.
    rewrite slice_last_short by lia. reflexivity. }
  assert (H2 : normalize h (paramKey_of p) (map Sample_object processed) =
               Ok (map (with_value 0) processed)).
  { unfold normalize. rewrite mapM_Sample_object.
    - simpl. rewrite sort_ascending by now apply ascending_with_value.
      rewrite slice_last_short by (rewrite length_map; lia). reflexivity.
    - clear - Hp. induction Hp; constructor; eauto using processItem_time. }
  repeat split; try assumption.
  - rewrite H2. intros H. injection H as H. now apply with_value_fixed.
  - intros H. rewrite H2. f_equal. now apply with_value_fixed.
Qed.

(** C7 (as stated): a one-item response with the reading "10" is sorted
    and bounded, yet normalizing its series again gives another series
    (the value 10 has become 0). *)
Lemma normalize_not_idempotent :
  exists out,
    normalize utc_host (paramKey_of "PM2.5") [item_of "pm2.5cnc" 0 (VStr "10")] = Ok out /\
    ascending out /\
    normalize utc_host (paramKey_of "PM2.5") (map Sample_object out) <> Ok out.
Proof.
  eexists. split; [reflexivity|]. split; [repeat constructor|].
  intros H.
  apply (f_equal (fun o => match o with Ok (s :: _) => value s | _ => nan end)) in H.
  revert H. apply float_neq. vm_compute. discriminate.
Qed.

(** ** One fetch cycle *)

Lemma siteId_guard (st : State) : siteId st <> ""%string -> String.eqb (siteId st) "" = false.
Proof. intros H. now apply String.eqb_neq. Qed.

Lemma fallbackData_length (h : Host) (site : string) (w : World) :
  List.length (fallbackData h site w) = 24%nat.
Proof. unfold fallbackData. now rewrite length_map, length_seq. Qed.

Lemma fold_left_sum (f : float -> float) (l : list float) (acc : float) :
  fold_left (fun sum val => sum + f val)%float l acc = sum_from acc (map f l).
Proof.
  revert acc. induction l as [|x l IH]; intros acc; simpl; [reflexivity|apply IH].
Qed.

(** On a series that is not empty, [detectAnomalies] keeps the entries
    above the mean plus three population standard deviations. *)
Lemma detectAnomalies_nonempty (data : list Sample) (st : State) :
  data <> [] ->
  detectAnomalies data st =
  setAnomalies
    (filter (fun item => (anomaly_threshold (map value data) <? value item)%float) data)
    st.
Proof.
  destruct data as [|s data]; [congruence|]. intros _.
  unfold detectAnomalies, anomaly_threshold, population_stddev, arithmetic_mean.
  cbv zeta.
  rewrite (fold_left_sum (fun x => x)), map_id.
  rewrite (fold_left_sum (fun val => Math_pow_2 (val - _))).
  reflexivity.
Qed.

(** C5: when the request is rejected, the cycle ends normally: the series
    becomes the 24 entries of the fallback generator, the anomaly list is
    the screen of that series, and the only notification is one error
    toast. *)
Theorem failed_fetch_falls_back (h : Host) (w : World) (st : State) :
  siteId st <> ""%string ->
  exists st',
    fetchLiveData h w Rejected st =
      Ok (st', [toast_error "Failed to fetch live air quality data"]) /\
    graphData st' = fallbackData h (siteId st) w /\
    List.length (graphData st') = 24%nat /\
    anomalies st' =
      filter (fun item =>
                (anomaly_threshold (map value (graphData st')) <? value item)%float)
             (graphData st') /\
    loading st' = false.
Proof.
  intros Hsite. unfold fetchLiveData. rewrite (siteId_guard _ Hsite).
  cbn [await_get bind try_catch]. eexists. split; [reflexivity|].
  unfold generateFallbackData. cbn [siteId setLoading].
  set (data := fallbackData h (siteId st) w).
  assert (Hne : data <> []).
  { intros E. apply (f_equal (@List.length _)) in E.
    unfold data in E. rewrite fallbackData_length in E. discriminate. }
  rewrite (detectAnomalies_nonempty _ _ Hne).
  cbn [graphData anomalies loading setAnomalies setLastUpdated setGraphData].
  repeat split.
Qed.



(** C6: the guard of [detectAnomalies] returns before the anomaly list
    is written, so an empty series leaves the list of the previous cycle
    in place: after an empty response the chart is empty and the stale
    anomaly is still listed. *)
Theorem empty_series_keeps_stale_anomalies :
  (forall st, detectAnomalies [] st = st) /\
  exists st',
    fetchLiveData utc_host example_world (Resolved (DataArray [])) stale_state =
      Ok (st', []) /\
    graphData st' = [] /\
    anomalies st' = [stale_sample].
Proof. split; [reflexivity|]. eexists. repeat split. Qed.

(** ** The refresh effects *)

Module SchedulerFacts.
Import Scheduler.

Lemma run_effects_two_timers (t : Timers) :
  active t = [] ->
  two_timers (run_effects refresh_effects t) /\
  fetch_calls (timers (run_effects refresh_effects t)) = (fetch_calls t + 2)%nat.
Proof.
  intros H. unfold two_timers. cbn. rewrite H. split; [|lia].
  exists (next_id t). split; reflexivity.
Qed.

Lemma run_cleanups_two_timers (c : Component) :
  two_timers c ->
  active (run_cleanups c) = [] /\
  fetch_calls (run_cleanups c) = fetch_calls (timers c).
Proof.
  intros (a & Hc & Ha). unfold run_cleanups. rewrite Hc.
  cbn [fold_left clearInterval active next_id fetch_calls]. rewrite Ha.
  cbn [filter].
  assert (E1 : (S a =? a)%nat = false) by (apply Nat.eqb_neq; lia).
  rewrite E1, !Nat.eqb_refl. cbn [negb filter]. rewrite Nat.eqb_refl.
  split; reflexivity.
Qed.

Lemma mount_two_timers : two_timers (mount start).
Proof. now apply run_effects_two_timers. Qed.

Lemma step_two_timers (c : Component) (e : Event) :
  e <> Unmounted -> two_timers c -> two_timers (step c e).
Proof.
  intros He Hc. destruct e as [p| |id|]; cbn [step]; try assumption; try congruence.
  - apply run_effects_two_timers. now apply run_cleanups_two_timers.
  - destruct (existsb _ _); [|assumption].
    destruct Hc as (a & Hc & Ha). exists a. split; assumption.
Qed.

(** While the page is mounted there are two timers, and a change of a
    parameter adds two calls. *)
Lemma changed_parameter_fetches_twice (c : Component) (p : QueryParameter) :
  two_timers c ->
  two_timers (step c (Changed p)) /\
  fetch_calls (timers (step c (Changed p))) = (fetch_calls (timers c) + 2)%nat.
Proof.
  intros Hc. destruct (run_cleanups_two_timers c Hc) as [Ha Hf].
  destruct (run_effects_two_timers (run_cleanups c) Ha) as [H1 H2].
  split; [exact H1|]. cbn [step]. rewrite H2, Hf. reflexivity.
Qed.

Lemma history_two_timers (events : list Event) (c : Component) :
  Forall (fun e => e <> Unmounted) events ->
  two_timers c -> two_timers (history c events).
Proof.
  intros He. revert c. unfold history.
  induction He as [|e events He _ IH]; intros c Hc; [exact Hc|].
  cbn [fold_left]. apply IH. now apply step_two_timers.
Qed.

Lemma two_timers_active (c : Component) :
  two_timers c -> List.length (active (timers c)) = 2%nat.
Proof. intros (a & _ & Ha). now rewrite Ha. Qed.

(** C4: the page declares the refresh effect twice.  After the mount
    and any later renders, changes and ticks, two interval timers are
    active, and one more change of a parameter calls [fetchLiveData]
    twice and leaves two timers active again. *)
Theorem refresh_effect_runs_twice (events : list Event) (p : QueryParameter) :
  Forall (fun e => e <> Unmounted) events ->
  List.length (active (timers (history (mount start) events))) = 2%nat /\
  List.length
    (active (timers (step (history (mount start) events) (Changed p)))) = 2%nat /\
  fetch_calls (timers (step (history (mount start) events) (Changed p))) =
    (fetch_calls (timers (history (mount start) events)) + 2)%nat.
Proof.
  intros He.
  pose proof (history_two_timers events _ He mount_two_timers) as Hc.
  destruct (changed_parameter_fetches_twice _ p Hc) as [H1 H2].
  split; [now apply two_timers_active|].
  split; [now apply two_timers_active|exact H2].
Qed.

Lemma refresh_effect_runs_twice_witness :
  List.length
    (active (timers (history (mount start) [Tick 0; Changed P_siteId; Rendered])))
    = 2%nat /\
  List.length
    (active (timers (step (history (mount start) [Tick 0; Changed P_siteId; Rendered])
                          (Changed P_endDate)))) = 2%nat /\
  fetch_calls
    (timers (step (history (mount start) [Tick 0; Changed P_siteId; Rendered])
                  (Changed P_endDate))) =
    (fetch_calls (timers (history (mount start) [Tick 0; Changed P_siteId; Rendered]))
     + 2)%nat.
Proof.
  apply (refresh_effect_runs_twice [Tick 0; Changed P_siteId; Rendered] P_endDate).
  repeat constructor; discriminate.
Defined.

End SchedulerFacts.

(** ** The theorems at work on example data *)

Lemma processed_of_Forall2 (h : Host) (key : string) (data : list JSValue) :
  (exists l, mapM (processItem h key) data = Ok l) ->
  Forall2 (fun item s => processItem h key item = Ok s) data (processed_of h key data).
Proof.
  intros [l Hl]. apply mapM_Forall2. unfold processed_of. now rewrite Hl.
Qed.

Lemma renormalize_resets_values_witness :
  let processed := processed_of utc_host (paramKey_of "PM2.5") short_response in
  normalize utc_host (paramKey_of "PM2.5") short_response = Ok processed /\
  normalize utc_host (paramKey_of "PM2.5") (map Sample_object processed) =
    Ok (map (with_value 0) processed) /\
  (normalize utc_host (paramKey_of "PM2.5") (map Sample_object processed) = Ok processed <->
   Forall (fun s => value s = 0%float) processed).
Proof.
  apply (renormalize_resets_values utc_host "PM2.5" short_response
           (processed_of utc_host (paramKey_of "PM2.5") short_response)).
  - apply processed_of_Forall2. eexists. vm_compute. reflexivity.
  - vm_compute. repeat constructor; discriminate.
  - simpl. lia.
Defined.

Lemma failed_fetch_falls_back_witness :
  exists st',
    fetchLiveData utc_host example_world Rejected initial_state =
      Ok (st', [toast_error "Failed to fetch live air quality data"]) /\
    graphData st' = fallbackData utc_host (siteId initial_state) example_world /\
    List.length (graphData st') = 24%nat /\
    anomalies st' =
      filter (fun item =>
                (anomaly_threshold (map value (graphData st')) <? value item)%float)
             (graphData st') /\
    loading st' = false.
Proof.
  apply (failed_fetch_falls_back utc_host example_world initial_state).
  simpl. discriminate.
Defined.


(** ** Binary64 arithmetic *)

Module Binary64Facts.
Import Binary64.

Lemma fexp64_eq (k : Z) : fexp prec emax k = fexp64 k.
Proof. reflexivity. Qed.

Lemma fexp64_mono (a b : Z) : a <= b -> fexp64 a <= fexp64 b.
Proof. unfold fexp64. lia. Qed.

(** *** Powers of two *)

Lemma pow2_pos (k : Z) : 0 <= k -> 0 < 2 ^ k.
Proof. intros. apply Z.pow_pos_nonneg; lia. Qed.

Lemma pow2_add (a b : Z) : 0 <= a -> 0 <= b -> 2 ^ (a + b) = 2 ^ a * 2 ^ b.
Proof. intros. apply Z.pow_add_r; assumption. Qed.

Lemma pow2_le (a b : Z) : 0 <= a <= b -> 2 ^ a <= 2 ^ b.
Proof. intros. apply Z.pow_le_mono_r; lia. Qed.

Lemma pow2_lt (a b : Z) : 0 <= a < b -> 2 ^ a < 2 ^ b.
Proof. intros. apply Z.pow_lt_mono_r; lia. Qed.

Lemma pow2_split (a b : Z) : 0 <= a <= b -> 2 ^ b = 2 ^ a * 2 ^ (b - a).
Proof. intros. rewrite <- pow2_add by lia. f_equal. lia. Qed.

(** *** Number of digits *)

Lemma digits2_pos_bounds (p : positive) :
  2 ^ (Zpos (digits2_pos p) - 1) <= Zpos p < 2 ^ Zpos (digits2_pos p).
Proof.
  induction p as [p IH|p IH|]; cbn [digits2_pos].
  - rewrite Pos2Z.inj_succ.
    replace (Z.succ (Zpos (digits2_pos p)) - 1) with (Z.succ (Zpos (digits2_pos p) - 1)) by lia.
    rewrite !Z.pow_succ_r by lia. lia.
  - rewrite Pos2Z.inj_succ.
    replace (Z.succ (Zpos (digits2_pos p)) - 1) with (Z.succ (Zpos (digits2_pos p) - 1)) by lia.
    rewrite !Z.pow_succ_r by lia. lia.
  - simpl. lia.
Qed.

Lemma Zdigits2_bounds (m : Z) :
  0 < m -> 2 ^ (Zdigits2 m - 1) <= m < 2 ^ Zdigits2 m.
Proof. destruct m as [|p|p]; try lia. intros _. apply digits2_pos_bounds. Qed.

Lemma Zdigits2_pos (m : Z) : 0 < m -> 0 < Zdigits2 m.
Proof. destruct m; simpl; lia. Qed.

Lemma Zdigits2_unique (m d : Z) :
  0 < d -> 2 ^ (d - 1) <= m < 2 ^ d -> Zdigits2 m = d.
Proof.
  intros Hd [Hlo Hhi].
  assert (Hm : 0 < m) by (pose proof (pow2_pos (d - 1)); lia).
  pose proof (Zdigits2_bounds m Hm) as [Hlo' Hhi'].
  pose proof (Zdigits2_pos m Hm) as Hd'.
  destruct (Z.lt_trichotomy (Zdigits2 m) d) as [H|[H|H]]; [|assumption|].
  - pose proof (pow2_le (Zdigits2 m) (d - 1)). lia.
  - pose proof (pow2_le d (Zdigits2 m - 1)). lia.
Qed.

Lemma Zdigits2_shift (m k : Z) :
  0 < m -> 0 <= k -> Zdigits2 (m * 2 ^ k) = Zdigits2 m + k.
Proof.
  intros Hm Hk. pose proof (Zdigits2_bounds m Hm) as [Hlo Hhi].
  pose proof (Zdigits2_pos m Hm). pose proof (pow2_pos k Hk).
  apply Zdigits2_unique; [lia|].
  replace (Zdigits2 m + k - 1) with (Zdigits2 m - 1 + k) by lia.
  rewrite !pow2_add by lia. nia.
Qed.

Lemma Zdigits2_div (m k : Z) :
  0 < m -> 0 <= k < Zdigits2 m -> Zdigits2 (m / 2 ^ k) = Zdigits2 m - k.
Proof.
  intros Hm Hk. pose proof (Zdigits2_bounds m Hm) as [Hlo Hhi].
  pose proof (pow2_pos k (proj1 Hk)).
  apply Zdigits2_unique; [lia|]. split.
  - apply Z.div_le_lower_bound; [lia|].
    rewrite Z.mul_comm, <- pow2_add by lia.
    replace (Zdigits2 m - k - 1 + k) with (Zdigits2 m - 1) by lia. assumption.
  - apply Z.div_lt_upper_bound; [lia|].
    rewrite <- pow2_add by lia.
    replace (k + (Zdigits2 m - k)) with (Zdigits2 m) by lia. assumption.
Qed.

Lemma Zdigits2_le (m d : Z) : 0 < m -> 0 <= d -> m < 2 ^ d -> Zdigits2 m <= d.
Proof.
  intros Hm Hd Hlt. pose proof (Zdigits2_bounds m Hm) as [Hlo _].
  pose proof (Zdigits2_pos m Hm).
  destruct (Z.le_gt_cases (Zdigits2 m) d) as [H'|H']; [assumption|].
  pose proof (pow2_le d (Zdigits2 m - 1)). lia.
Qed.

(** *** Shifting right *)

Lemma shr_1_nonneg (m : Z) (r s : bool) :
  0 <= m ->
  shr_1 (Build_shr_record m r s) = Build_shr_record (m / 2) (Z.odd m) (r || s).
Proof.
  intros Hm. destruct m as [|[p|p|]|p]; try lia; cbn [shr_1].
  - reflexivity.
  - f_equal. apply (Z.div_unique _ _ _ 1); lia.
  - f_equal. apply (Z.div_unique _ _ _ 0); lia.
  - reflexivity.
Qed.

Lemma shifted_start (M : Z) : shifted M 0 (Build_shr_record M false false).
Proof. split; simpl; [now rewrite Z.div_1_r|auto]. Qed.

Lemma shifted_step (M k : Z) (mrs : shr_record) :
  0 <= M -> 0 <= k -> shifted M k mrs -> shifted M (k + 1) (shr_1 mrs).
Proof.
  intros HM Hk [Hm Hex]. destruct mrs as [m r s]. simpl in Hm, Hex.
  pose proof (pow2_pos k Hk) as Hp.
  assert (Hm0 : 0 <= m) by (subst m; apply Z.div_pos; lia).
  rewrite shr_1_nonneg by assumption. unfold shifted.
  rewrite pow2_add, Z.pow_1_r by lia.
  split; simpl.
  - subst m. rewrite Z.div_div by lia. reflexivity.
  - intros H0.
    assert (Hk0 : M mod 2 ^ k = 0).
    { apply Z.mod_divide in H0; [|lia]. apply Z.mod_divide; [lia|].
      destruct H0 as [q Hq]. exists (q * 2). lia. }
    destruct (Hex Hk0) as [-> ->]. split; [|reflexivity].
    apply Z.mod_divide in H0; [|lia]. destruct H0 as [q Hq].
    assert (Hm2 : m = q * 2).
    { rewrite Hm, Hq. replace (q * (2 ^ k * 2)) with (q * 2 * 2 ^ k) by lia.
      apply Z.div_mul. lia. }
    rewrite Hm2, Z.odd_mul. simpl. apply andb_false_r.
Qed.

Lemma shifted_iter (M : Z) (p : positive) :
  0 <= M ->
  forall k mrs, 0 <= k -> shifted M k mrs ->
  shifted M (k + Zpos p) (iter_pos shr_1 p mrs).
Proof.
  intros HM. induction p as [p IH|p IH|]; intros k mrs Hk H; cbn [iter_pos].
  - replace (k + Zpos p~1) with (k + 1 + Zpos p + Zpos p) by lia.
    apply IH; [lia|]. apply IH; [lia|]. now apply shifted_step.
  - replace (k + Zpos p~0) with (k + Zpos p + Zpos p) by lia.
    apply IH; [lia|]. now apply IH.
  - now apply shifted_step.
Qed.

Lemma shr_exact (M e n : Z) :
  0 <= M ->
  exists mrs,
    shr (Build_shr_record M false false) e n = (mrs, e + Z.max 0 n) /\
    shifted M (Z.max 0 n) mrs.
Proof.
  intros HM. destruct n as [|p|p]; cbn [shr].
  - eexists. split; [f_equal; lia|]. apply shifted_start.
  - eexists. split; [reflexivity|].
    replace (Z.max 0 (Zpos p)) with (0 + Zpos p) by lia.
    apply shifted_iter; [assumption|lia|apply shifted_start].
  - eexists. split; [f_equal; lia|]. apply shifted_start.
Qed.

Lemma round_nearest_even_bounds (mrs : shr_record) :
  shr_m mrs <= round_nearest_even (shr_m mrs) (loc_of_shr_record mrs)
            <= shr_m mrs + 1.
Proof.
  destruct mrs as [m [|] [|]]; simpl; try lia. destruct (Z.even m); lia.
Qed.

Lemma round_nearest_even_exact (mrs : shr_record) :
  shr_r mrs = false -> shr_s mrs = false ->
  round_nearest_even (shr_m mrs) (loc_of_shr_record mrs) = shr_m mrs.
Proof. destruct mrs as [m r s]; simpl. intros -> ->. reflexivity. Qed.

(** *** Rounding an exact mantissa *)

Lemma binary_round_aux_unfold (s : bool) (m e : Z) :
  binary_round_aux prec emax s m e loc_Exact =
  let '(mrs1, e1) :=
    shr (Build_shr_record m false false) e (fexp64 (Zdigits2 m + e) - e) in
  let m2 := round_nearest_even (shr_m mrs1) (loc_of_shr_record mrs1) in
  let '(mrs2, e2) :=
    shr (Build_shr_record m2 false false) e1 (fexp64 (Zdigits2 m2 + e1) - e1) in
  pack s (shr_m mrs2) e2.
Proof. reflexivity. Qed.

Lemma dyadic_shift (m e k : Z) :
  0 <= k -> 0 <= e + scale -> dyadic (m * 2 ^ k) e = dyadic m (e + k).
Proof.
  intros Hk He. unfold dyadic.
  replace (e + k + scale) with (k + (e + scale)) by lia.
  rewrite (pow2_add k (e + scale)) by lia. ring.
Qed.

(** The second shift of [binary_round_aux]: it only undoes a carry into
    a 54th digit. *)
Lemma renormalize (m2 e1 : Z) :
  0 <= m2 <= 2 ^ 53 -> -1074 <= e1 -> (-1074 < e1 -> 2 ^ 52 <= m2) ->
  exists mrs e',
    shr (Build_shr_record m2 false false) e1 (fexp64 (Zdigits2 m2 + e1) - e1)
      = (mrs, e') /\
    0 <= shr_m mrs /\ e1 <= e' /\
    dyadic (shr_m mrs) e' = dyadic m2 e1 /\
    (0 < m2 -> 0 < shr_m mrs /\ fexp64 (Zdigits2 (shr_m mrs) + e') = e').
Proof.
  intros [Hlo Hhi] He Hn.
  set (n2 := fexp64 (Zdigits2 m2 + e1) - e1).
  destruct (shr_exact m2 e1 n2 Hlo) as (mrs & Hshr & Hm & _).
  exists mrs, (e1 + Z.max 0 n2). split; [exact Hshr|].
  change (2 ^ 53) with 9007199254740992 in *.
  change (2 ^ 52) with 4503599627370496 in *.
  destruct (Z.eq_dec m2 0) as [->|Hnz].
  { assert (Hn2 : Z.max 0 n2 = 0) by (unfold n2, fexp64; simpl Zdigits2; lia).
    rewrite Hn2 in *. rewrite Z.add_0_r. rewrite Z.pow_0_r, Z.div_1_r in Hm.
    rewrite Hm. repeat split; try lia. }
  destruct (Z.eq_dec m2 9007199254740992) as [->|Hne].
  { assert (Hd : Zdigits2 9007199254740992 = 54) by reflexivity.
    assert (Hn2 : Z.max 0 n2 = 1) by (unfold n2, fexp64; rewrite Hd; lia).
    rewrite Hn2 in *. change (9007199254740992 / 2 ^ 1) with 4503599627370496 in Hm.
    rewrite Hm.
    assert (Hd' : Zdigits2 4503599627370496 = 53) by reflexivity.
    rewrite Hd'. unfold fexp64.
    repeat split; try lia.
    change 9007199254740992 with (4503599627370496 * 2 ^ 1).
    rewrite dyadic_shift; unfold scale; try lia. }
  assert (Hd : Zdigits2 m2 <= 53)
    by (apply Zdigits2_le; try lia;
        change (2 ^ 53) with 9007199254740992; lia).
  assert (Hd' : -1074 < e1 -> Zdigits2 m2 = 53).
  { intros H. apply Zdigits2_unique; [lia|].
    change (2 ^ (53 - 1)) with 4503599627370496.
    change (2 ^ 53) with 9007199254740992. specialize (Hn H). lia. }
  assert (Hn2 : Z.max 0 n2 = 0).
  { unfold n2, fexp64. destruct (Z.eq_dec e1 (-1074)) as [->|He1]; [lia|].
    rewrite Hd' by lia. lia. }
  rewrite Hn2 in *. rewrite Z.add_0_r. rewrite Z.pow_0_r, Z.div_1_r in Hm.
  rewrite Hm. repeat split; try lia.
  unfold fexp64. destruct (Z.eq_dec e1 (-1074)) as [->|He1]; [lia|].
  rewrite Hd' by lia. lia.
Qed.

Lemma round_aux_spec (s : bool) (m e : Z) :
  0 < m ->
  exists m' e',
    binary_round_aux prec emax s m e loc_Exact = pack s m' e' /\
    rounds_to m e m' e'.
Proof.
  intros Hm. rewrite binary_round_aux_unfold.
  set (n := fexp64 (Zdigits2 m + e) - e).
  destruct (shr_exact m e n (Z.lt_le_incl _ _ Hm)) as (mrs1 & Hshr1 & Hm1 & Hex1).
  rewrite Hshr1.
  set (m2 := round_nearest_even (shr_m mrs1) (loc_of_shr_record mrs1)).
  pose proof (round_nearest_even_bounds mrs1) as Hm2. fold m2 in Hm2.
  destruct (Z.le_gt_cases n 0) as [Hn|Hn].
  - (* no shift *)
    assert (Hmax : Z.max 0 n = 0) by lia. rewrite Hmax in *.
    rewrite Z.pow_0_r in *. rewrite Z.div_1_r in Hm1. rewrite Z.mod_1_r in Hex1.
    destruct (Hex1 eq_refl) as [Hr Hs].
    assert (Em2 : m2 = m)
      by (unfold m2; rewrite round_nearest_even_exact by assumption; exact Hm1).
    cbv zeta. rewrite Em2. rewrite Z.add_0_r. fold n.
    destruct (shr_exact m e n (Z.lt_le_incl _ _ Hm)) as (mrs2 & Hshr2 & Hm2' & _).
    rewrite Hshr2, Hmax, Z.pow_0_r, Z.div_1_r in *.
    exists m, e. rewrite Hm2', Z.add_0_r. unfold rounds_to.
    repeat split; lia.
  - (* the mantissa is cut at [e + n] *)
    assert (Hmax : Z.max 0 n = n) by lia. rewrite Hmax in *.
    pose proof (pow2_pos n (Z.lt_le_incl _ _ Hn)) as Hpn.
    pose proof (Zdigits2_bounds m Hm) as [Hdlo Hdhi].
    pose proof (Zdigits2_pos m Hm) as Hdpos.
    assert (Hm1pos : 0 <= shr_m mrs1) by (rewrite Hm1; apply Z.div_pos; lia).
    assert (He1 : -1074 <= e + n) by (unfold n, fexp64; lia).
    assert (Hnormal : -1074 < e + n -> 2 ^ 52 <= m / 2 ^ n < 2 ^ 53).
    { intros H. assert (En : n = Zdigits2 m - 53) by (unfold n, fexp64 in *; lia).
      assert (Hd : Zdigits2 (m / 2 ^ n) = 53)
        by (rewrite Zdigits2_div by lia; lia).
      assert (0 < m / 2 ^ n).
      { apply Z.div_str_pos. split; [lia|].
        eapply Z.le_trans; [|exact Hdlo]. apply pow2_le. lia. }
      pose proof (Zdigits2_bounds (m / 2 ^ n)) as Hb. rewrite Hd in Hb.
      apply Hb. assumption. }
    assert (Hsub : e + n = -1074 -> m / 2 ^ n < 2 ^ 53).
    { intros H. apply Z.div_lt_upper_bound; [lia|].
      eapply Z.lt_le_trans; [exact Hdhi|].
      rewrite <- pow2_add by lia. apply pow2_le. unfold n, fexp64 in *. lia. }
    assert (Hm2hi : m2 <= 2 ^ 53).
    { rewrite Hm1 in Hm2.
      destruct (Z.eq_dec (e + n) (-1074)) as [E|E];
        [specialize (Hsub E)|assert (H : -1074 < e + n) by lia; specialize (Hnormal H)];
        lia. }
    assert (Hm2lo : -1074 < e + n -> 2 ^ 52 <= m2).
    { intros H. specialize (Hnormal H). rewrite Hm1 in Hm2. lia. }
    destruct (renormalize m2 (e + n) (conj (Z.le_trans _ _ _ Hm1pos (proj1 Hm2)) Hm2hi)
                He1 Hm2lo) as (mrs2 & e' & Hshr2 & Hpos & Hle & Hdy & Hcan).
    cbv zeta. fold m2. rewrite Hshr2.
    exists (shr_m mrs2), e'. unfold rounds_to. repeat split; try lia.
    right. split; [unfold n in Hn; lia|].
    exists m2. fold n. cbv zeta. rewrite Hm1 in Hm2.
    repeat split; try lia; try tauto.
    intros H0. unfold m2. destruct (Hex1 H0) as [Hr Hs].
    rewrite round_nearest_even_exact by assumption. exact Hm1.
Qed.

(** *** Valid numbers *)

Lemma bounded_canonical (m : positive) (e : Z) :
  bounded prec emax m e = true <-> canonical (Zpos m) e /\ e <= 971.
Proof.
  unfold bounded, canonical_mantissa, canonical.
  rewrite andb_true_iff, Z.eqb_eq, Z.leb_le, fexp64_eq.
  change (emax - prec) with 971. simpl Zdigits2. intuition lia.
Qed.

Lemma canonical_facts (m e : Z) :
  canonical m e -> -1074 <= e /\ m < 2 ^ 53 /\ (-1074 < e -> 2 ^ 52 <= m).
Proof.
  intros [Hm He]. pose proof (Zdigits2_bounds m Hm) as [Hlo Hhi].
  pose proof (Zdigits2_pos m Hm) as Hd.
  assert (Hd53 : Zdigits2 m <= 53) by (unfold fexp64 in He; lia).
  split; [unfold fexp64 in He; lia|]. split.
  - eapply Z.lt_le_trans; [exact Hhi|]. apply pow2_le. lia.
  - intros H. assert (Zdigits2 m = 53) by (unfold fexp64 in He; lia).
    replace 52 with (Zdigits2 m - 1) by lia. assumption.
Qed.

(** *** Order of scaled values *)

Lemma dyadic_le (a b e : Z) : 0 <= e + scale -> a <= b -> dyadic a e <= dyadic b e.
Proof.
  intros He Hab. unfold dyadic. apply Z.mul_le_mono_nonneg_r; [|assumption].
  apply Z.lt_le_incl, pow2_pos, He.
Qed.

Lemma dyadic_le_inv (a b e : Z) : 0 <= e + scale -> dyadic a e <= dyadic b e -> a <= b.
Proof.
  intros He H. unfold dyadic in H.
  apply Z.mul_le_mono_pos_r in H; [assumption|]. apply pow2_pos, He.
Qed.

Lemma dyadic_lt_inv (a b e : Z) : 0 <= e + scale -> dyadic a e < dyadic b e -> a < b.
Proof.
  intros He H. unfold dyadic in H.
  apply Z.mul_lt_mono_pos_r in H; [assumption|]. apply pow2_pos, He.
Qed.

Lemma dyadic_align (m e1 e2 : Z) :
  e2 <= e1 -> 0 <= e2 + scale -> dyadic m e1 = dyadic (m * 2 ^ (e1 - e2)) e2.
Proof.
  intros H1 H2. rewrite dyadic_shift by lia. f_equal. lia.
Qed.

Lemma dyadic_pos (m e : Z) : 0 <= e + scale -> 0 < m -> 0 < dyadic m e.
Proof. intros He Hm. unfold dyadic. apply Z.mul_pos_pos; [assumption|now apply pow2_pos]. Qed.

(** A valid number of smaller exponent lies below every mantissa of at
    least 53 digits at the larger exponent. *)
Lemma canonical_below (mb eb m1 e1 : Z) :
  canonical mb eb -> eb < e1 -> 2 ^ 52 <= m1 -> dyadic mb eb < dyadic m1 e1.
Proof.
  intros Hb Hlt Hm1. destruct (canonical_facts _ _ Hb) as (He & Hhi & _).
  rewrite (dyadic_align m1 e1 eb) by (unfold scale; lia).
  unfold dyadic. apply Z.mul_lt_mono_pos_r; [apply pow2_pos; unfold scale; lia|].
  eapply Z.lt_le_trans; [exact Hhi|].
  change (2 ^ 53) with (2 ^ 52 * 2 ^ 1).
  apply Z.mul_le_mono_nonneg; try lia.
  apply pow2_le. lia.
Qed.

(** *** Rounding keeps the bounds that are numbers themselves *)

Section RoundsTo.
Variables m e m' e' : Z.
Hypothesis Hm : 0 < m.
Hypothesis He : 0 <= e + scale.
Hypothesis Hr : rounds_to m e m' e'.

Lemma rounds_to_lower (mb eb : Z) :
  canonical mb eb -> dyadic mb eb <= dyadic m e -> dyadic mb eb <= dyadic m' e'.
Proof.
  intros Hb Hle. destruct Hr as (Hm' & Hee & [(Hn & -> & ->)|(Hn & m2 & Hspec)]);
    [assumption|].
  cbv zeta in Hspec. set (n := fexp64 (Zdigits2 m + e) - e) in *.
  destruct Hspec as (Hdy & Hm2 & _ & Hnormal & _).
  assert (Hn0 : 0 < n) by (unfold n; lia).
  pose proof (pow2_pos n (Z.lt_le_incl _ _ Hn0)) as Hpn.
  destruct (canonical_facts _ _ Hb) as (Heb & _ & _).
  rewrite Hdy.
  apply Z.le_trans with (dyadic (m / 2 ^ n) (e + n));
    [|apply dyadic_le; lia].
  destruct (Z.le_gt_cases (e + n) eb) as [Hge|Hlt].
  - rewrite (dyadic_align mb eb (e + n)) by lia.
    apply dyadic_le; [lia|].
    apply Z.div_le_lower_bound; [lia|].
    apply (dyadic_le_inv _ _ e He).
    rewrite Z.mul_comm, dyadic_shift by lia.
    rewrite <- dyadic_align by lia. assumption.
  - apply Z.lt_le_incl, canonical_below; try assumption.
    apply Hnormal. lia.
Qed.

Lemma rounds_to_upper (mb eb : Z) :
  canonical mb eb -> dyadic m e <= dyadic mb eb -> dyadic m' e' <= dyadic mb eb.
Proof.
  intros Hb Hle. destruct Hr as (Hm' & Hee & [(Hn & -> & ->)|(Hn & m2 & Hspec)]);
    [assumption|].
  cbv zeta in Hspec. set (n := fexp64 (Zdigits2 m + e) - e) in *.
  destruct Hspec as (Hdy & Hm2 & Hexact & Hnormal & _).
  assert (Hn0 : 0 < n) by (unfold n; lia).
  pose proof (pow2_pos n (Z.lt_le_incl _ _ Hn0)) as Hpn.
  destruct (canonical_facts _ _ Hb) as (Heb & _ & _).
  assert (Hfloor : dyadic (m / 2 ^ n) (e + n) <= dyadic m e).
  { rewrite <- dyadic_shift by lia. apply dyadic_le; [lia|].
    rewrite Z.mul_comm. apply Z.mul_div_le. lia. }
  rewrite Hdy.
  destruct (Z.le_gt_cases (e + n) eb) as [Hge|Hlt].
  - rewrite (dyadic_align mb eb (e + n)) in * by lia.
    set (K := mb * 2 ^ (eb - (e + n))) in *.
    apply dyadic_le; [lia|].
    rewrite <- (dyadic_shift K e n) in Hle by lia.
    apply dyadic_le_inv in Hle; [|assumption].
    destruct (Z.eq_dec (m mod 2 ^ n) 0) as [E|E].
    + rewrite (Hexact E). apply Z.div_le_upper_bound; lia.
    + assert (m <> K * 2 ^ n)
        by (intros E'; apply E; rewrite E'; apply Z.mod_mul; lia).
      assert (m / 2 ^ n < K) by (apply Z.div_lt_upper_bound; lia).
      lia.
  - exfalso.
    assert (dyadic mb eb < dyadic (m / 2 ^ n) (e + n))
      by (apply canonical_below; try assumption; apply Hnormal; lia).
    lia.
Qed.

Lemma rounds_to_canonical :
  e <= fexp64 (Zdigits2 m + e) -> 0 < m' -> canonical m' e'.
Proof.
  intros Hfe Hpos.
  destruct Hr as (Hm' & Hee & [(Hn & -> & ->)|(Hn & m2 & Hspec)]).
  - split; [assumption|lia].
  - cbv zeta in Hspec. destruct Hspec as (Hdy & Hm2 & _ & _ & Hcan).
    split; [assumption|]. apply Hcan.
    destruct (Z.eq_dec m2 0) as [->|Hnz].
    + exfalso. unfold dyadic in Hdy. rewrite Z.mul_0_l in Hdy.
      apply Z.mul_eq_0 in Hdy. destruct Hdy as [Hdy|Hdy]; [lia|].
      pose proof (pow2_pos (e' + scale)). lia.
    + assert (0 <= m / 2 ^ (fexp64 (Zdigits2 m + e) - e))
        by (apply Z.div_pos; [lia|apply pow2_pos; lia]).
      lia.
Qed.

End RoundsTo.

Lemma canonical_no_overflow (m' e' mb eb : Z) :
  canonical m' e' -> canonical mb eb -> eb <= 971 ->
  dyadic m' e' <= dyadic mb eb -> e' <= 971.
Proof.
  intros Hc Hb Heb Hle.
  destruct (Z.le_gt_cases e' 971) as [H|H]; [assumption|exfalso].
  destruct (canonical_facts _ _ Hc) as (_ & _ & Hn).
  assert (dyadic mb eb < dyadic m' e')
    by (apply canonical_below; try assumption; [lia|apply Hn; lia]).
  lia.
Qed.

(** *** Aligning to the left *)

Lemma iter_xO (m d : positive) : Zpos (Pos.iter xO m d) = Zpos m * 2 ^ Zpos d.
Proof.
  change (Pos.iter xO m d) with (shift_pos d m).
  rewrite shift_pos_correct. change (Z.pow_pos 2 d) with (2 ^ Zpos d). lia.
Qed.

Lemma shl_align_spec (mx : positive) (ex ex' : Z) :
  exists mz,
    shl_align mx ex ex' = (mz, Z.min ex ex') /\
    Zpos mz = Zpos mx * 2 ^ (ex - Z.min ex ex').
Proof.
  unfold shl_align. destruct (ex' - ex) as [|d|d] eqn:E.
  - exists mx. replace (Z.min ex ex') with ex by lia.
    rewrite Z.sub_diag. split; [reflexivity|simpl; lia].
  - exists mx. replace (Z.min ex ex') with ex by lia.
    rewrite Z.sub_diag. split; [reflexivity|simpl; lia].
  - exists (Pos.iter xO mx d). replace (Z.min ex ex') with ex' by lia.
    split; [reflexivity|]. rewrite iter_xO. f_equal. f_equal. lia.
Qed.

(** *** Numbers as bounds *)

Lemma dyadic_opp (m e : Z) : dyadic (- m) e = - dyadic m e.
Proof. unfold dyadic. lia. Qed.

Lemma SFvalue_finite (s : bool) (m : positive) (e : Z) :
  SFvalue (S754_finite s m e) = cond_Zopp s (dyadic (Zpos m) e).
Proof. destruct s; unfold SFvalue, cond_Zopp; [apply dyadic_opp|reflexivity]. Qed.

Lemma SFvalue_mag (x : spec_float) :
  SFvalue x = SFmag x \/ SFvalue x = - SFmag x.
Proof.
  destruct x as [| | |s m e]; try (simpl; auto; fail).
  rewrite SFvalue_finite. destruct s; simpl; auto.
Qed.

Lemma SFmag_canonical (x : spec_float) :
  valid_binary x = true -> SFfinite x = true ->
  SFmag x = 0 \/
  exists m e, SFmag x = dyadic m e /\ canonical m e /\ e <= 971.
Proof.
  destruct x as [| | |s m e]; cbn [SFmag SFfinite valid_binary]; auto; try discriminate.
  intros Hv _. right. exists (Zpos m), e. apply bounded_canonical in Hv. tauto.
Qed.

Lemma SFmag_nonneg (x : spec_float) :
  valid_binary x = true -> 0 <= SFmag x.
Proof.
  destruct x as [| | |s m e]; cbn [SFmag valid_binary]; try lia. intros Hv.
  apply bounded_canonical in Hv. destruct Hv as [Hc _].
  destruct (canonical_facts _ _ Hc) as (He & _).
  apply Z.lt_le_incl, dyadic_pos; unfold scale; lia.
Qed.

Lemma SFvalue_sign (x : spec_float) :
  valid_binary x = true ->
  match x with
  | S754_finite true _ _ => SFvalue x = - SFmag x /\ 0 < SFmag x
  | S754_finite false _ _ => SFvalue x = SFmag x /\ 0 < SFmag x
  | _ => SFvalue x = 0 /\ SFmag x = 0
  end.
Proof.
  destruct x as [| | |s m e]; try (simpl; auto; fail). intros Hv.
  apply bounded_canonical in Hv. destruct Hv as [Hc _].
  destruct (canonical_facts _ _ Hc) as (He & _).
  assert (0 < dyadic (Zpos m) e) by (apply dyadic_pos; unfold scale; lia).
  rewrite SFvalue_finite. destruct s; cbn [cond_Zopp SFmag]; auto.
Qed.

Section Pack.
Variables m e m' e' : Z.
Hypothesis Hm : 0 < m.
Hypothesis He : 0 <= e + scale.
Hypothesis Hfe : e <= fexp64 (Zdigits2 m + e).
Hypothesis Hr : rounds_to m e m' e'.

Lemma mag_lower (b : spec_float) :
  valid_binary b = true -> SFfinite b = true ->
  SFmag b <= dyadic m e -> SFmag b <= dyadic m' e'.
Proof.
  intros Hv Hf Hle.
  destruct (SFmag_canonical b Hv Hf) as [E|(mb & eb & E & Hc & _)]; rewrite E in *.
  - destruct Hr as (Hm' & Hee & _). unfold dyadic.
    apply Z.mul_nonneg_nonneg; [assumption|].
    apply Z.lt_le_incl, pow2_pos. lia.
  - apply (rounds_to_lower m e m' e'); assumption.
Qed.

Lemma mag_upper (b : spec_float) :
  valid_binary b = true -> SFfinite b = true ->
  dyadic m e <= SFmag b ->
  dyadic m' e' <= SFmag b /\ (0 < m' -> canonical m' e' /\ e' <= 971).
Proof.
  intros Hv Hf Hle.
  pose proof (dyadic_pos m e He Hm) as Hpos.
  destruct (SFmag_canonical b Hv Hf) as [E|(mb & eb & E & Hc & Heb)];
    rewrite E in *; [lia|].
  assert (Hu : dyadic m' e' <= dyadic mb eb)
    by (apply (rounds_to_upper m e m' e'); assumption).
  split; [assumption|]. intros Hm'.
  assert (Hc' : canonical m' e')
    by (apply (rounds_to_canonical m e m' e'); assumption).
  split; [assumption|]. apply (canonical_no_overflow m' e' mb eb); assumption.
Qed.

(** The number built from the rounded mantissa stays between two
    numbers that enclose the exact value. *)
Lemma pack_between (s : bool) (lo hi : spec_float) :
  valid_binary lo = true -> SFfinite lo = true ->
  valid_binary hi = true -> SFfinite hi = true ->
  SFvalue lo <= dyadic (cond_Zopp s m) e <= SFvalue hi ->
  valid_binary (pack s m' e') = true /\
  SFfinite (pack s m' e') = true /\
  SFvalue lo <= SFvalue (pack s m' e') <= SFvalue hi.
Proof.
  intros Hvlo Hflo Hvhi Hfhi [Hlo Hhi].
  pose proof (dyadic_pos m e He Hm) as Hpos.
  pose proof (SFmag_nonneg lo Hvlo) as Hnlo.
  pose proof (SFmag_nonneg hi Hvhi) as Hnhi.
  assert (Hm'0 : 0 <= dyadic m' e').
  { destruct Hr as (Hm' & Hee & _). unfold dyadic.
    apply Z.mul_nonneg_nonneg; [assumption|].
    apply Z.lt_le_incl, pow2_pos. lia. }
  assert (Hfit : dyadic m' e' <= SFmag (if s then lo else hi) /\
                 (0 < m' -> canonical m' e' /\ e' <= 971)).
  { destruct s; unfold cond_Zopp in Hlo, Hhi; [rewrite dyadic_opp in *|].
    - apply mag_upper; try assumption.
      destruct (SFvalue_mag lo) as [E|E]; rewrite E in *; lia.
    - apply mag_upper; try assumption.
      destruct (SFvalue_mag hi) as [E|E]; rewrite E in *; lia. }
  destruct Hfit as [Hfit Hcan].
  assert (Hvalue : SFvalue (pack s m' e') = cond_Zopp s (dyadic m' e') /\
                   valid_binary (pack s m' e') = true /\
                   SFfinite (pack s m' e') = true).
  { destruct Hr as (Hm' & _). destruct m' as [|p|p]; try lia.
    - unfold pack, dyadic. simpl. destruct s; auto.
    - destruct (Hcan eq_refl) as [Hc He'].
      unfold pack. apply Z.leb_le in He'. rewrite He'. apply Z.leb_le in He'.
      split; [apply SFvalue_finite|].
      split; [|reflexivity]. apply bounded_canonical. auto. }
  destruct Hvalue as (-> & Hv & Hf). split; [assumption|]. split; [assumption|].
  destruct s; unfold cond_Zopp in *; [rewrite dyadic_opp in *|].
  - split.
    + destruct (SFvalue_mag lo) as [E|E]; rewrite E in *; lia.
    + destruct (SFvalue_mag hi) as [E|E]; rewrite E in *; [lia|].
      assert (SFmag hi <= dyadic m' e') by (apply mag_lower; try assumption; lia).
      lia.
  - split.
    + destruct (SFvalue_mag lo) as [E|E]; rewrite E in *; [|lia].
      apply mag_lower; try assumption; lia.
    + destruct (SFvalue_mag hi) as [E|E]; rewrite E in *; lia.
Qed.

End Pack.

(** *** Rounding a dyadic number *)

Lemma binary_round_between (s : bool) (p : positive) (e : Z) (lo hi : spec_float) :
  0 <= e + scale ->
  valid_binary lo = true -> SFfinite lo = true ->
  valid_binary hi = true -> SFfinite hi = true ->
  SFvalue lo <= dyadic (cond_Zopp s (Zpos p)) e <= SFvalue hi ->
  valid_binary (binary_round prec emax s p e) = true /\
  SFfinite (binary_round prec emax s p e) = true /\
  SFvalue lo <= SFvalue (binary_round prec emax s p e) <= SFvalue hi.
Proof.
  intros He Hvlo Hflo Hvhi Hfhi Hb. unfold binary_round. rewrite fexp64_eq.
  set (f := fexp64 (Zpos (digits2_pos p) + e)).
  destruct (shl_align_spec p e f) as (mz & -> & Hmz).
  set (ez := Z.min e f) in *.
  assert (Hf : -1074 <= f) by (unfold f, fexp64; lia).
  assert (Hez : 0 <= ez + scale) by (unfold ez, scale in *; lia).
  assert (Hk : 0 <= e - ez) by (unfold ez; lia).
  destruct (round_aux_spec s (Zpos mz) ez eq_refl) as (m' & e' & -> & Hr).
  apply (pack_between (Zpos mz) ez m' e'); try assumption; try reflexivity.
  - rewrite Hmz, Zdigits2_shift by (try apply pow2_pos; lia).
    replace (Zdigits2 (Zpos p) + (e - ez) + ez) with (Zpos (digits2_pos p) + e)
      by (simpl Zdigits2; lia).
    fold f. unfold ez. lia.
  - replace (dyadic (cond_Zopp s (Zpos mz)) ez)
      with (dyadic (cond_Zopp s (Zpos p)) e); [assumption|].
    rewrite (dyadic_align _ e ez) by (try assumption; unfold ez; lia).
    f_equal. rewrite Hmz. destruct s; unfold cond_Zopp; ring.
Qed.

Lemma binary_normalize_between (z e : Z) (lo hi : spec_float) :
  0 <= e + scale ->
  valid_binary lo = true -> SFfinite lo = true ->
  valid_binary hi = true -> SFfinite hi = true ->
  SFvalue lo <= dyadic z e <= SFvalue hi ->
  valid_binary (binary_normalize prec emax z e false) = true /\
  SFfinite (binary_normalize prec emax z e false) = true /\
  SFvalue lo <= SFvalue (binary_normalize prec emax z e false) <= SFvalue hi.
Proof.
  intros He Hvlo Hflo Hvhi Hfhi Hb. destruct z as [|p|p]; cbn [binary_normalize].
  - unfold dyadic in Hb. rewrite Z.mul_0_l in Hb. simpl. auto.
  - now apply binary_round_between.
  - now apply binary_round_between.
Qed.

(** *** Multiplication *)

Lemma Zdigits2_ge (m k : Z) : 0 < m -> 2 ^ (k - 1) <= m -> k <= Zdigits2 m.
Proof.
  intros Hm Hk. pose proof (Zdigits2_bounds m Hm) as [_ Hhi].
  pose proof (Zdigits2_pos m Hm).
  destruct (Z.le_gt_cases k (Zdigits2 m)) as [H'|H']; [assumption|].
  pose proof (pow2_le (Zdigits2 m) (k - 1)). lia.
Qed.

Lemma canonical_digits (m e : Z) :
  canonical m e -> 0 < Zdigits2 m <= 53 /\ (-1074 < e -> Zdigits2 m = 53).
Proof.
  intros [Hm He]. pose proof (Zdigits2_pos m Hm). unfold fexp64 in He. lia.
Qed.

(** The exact product of two valid numbers is never too short. *)
Lemma product_exponent (mx ex my ey : Z) :
  canonical mx ex -> canonical my ey ->
  ex + ey <= fexp64 (Zdigits2 (mx * my) + (ex + ey)).
Proof.
  intros Hx Hy.
  destruct (canonical_digits _ _ Hx) as [Hdx Hnx].
  destruct (canonical_digits _ _ Hy) as [Hdy Hny].
  destruct (canonical_facts _ _ Hx) as (Hex & _).
  destruct (canonical_facts _ _ Hy) as (Hey & _).
  destruct Hx as [Hmx _], Hy as [Hmy _].
  pose proof (Zdigits2_bounds mx Hmx) as [Hlx _].
  pose proof (Zdigits2_bounds my Hmy) as [Hly _].
  assert (Hd : Zdigits2 mx + Zdigits2 my - 1 <= Zdigits2 (mx * my)).
  { apply Zdigits2_ge; [nia|].
    replace (Zdigits2 mx + Zdigits2 my - 1 - 1)
      with ((Zdigits2 mx - 1) + (Zdigits2 my - 1)) by lia.
    rewrite pow2_add by lia.
    apply Z.mul_le_mono_nonneg; try assumption;
      apply Z.lt_le_incl, pow2_pos; lia. }
  unfold fexp64. lia.
Qed.

Lemma SFmul_between (x y lo hi : spec_float) :
  valid_binary x = true -> SFfinite x = true ->
  valid_binary y = true -> SFfinite y = true ->
  valid_binary lo = true -> SFfinite lo = true ->
  valid_binary hi = true -> SFfinite hi = true ->
  SFvalue lo * 2 ^ scale <= SFvalue x * SFvalue y <= SFvalue hi * 2 ^ scale ->
  valid_binary (SFmul prec emax x y) = true /\
  SFfinite (SFmul prec emax x y) = true /\
  SFvalue lo <= SFvalue (SFmul prec emax x y) <= SFvalue hi.
Proof.
  intros Hvx Hfx Hvy Hfy Hvlo Hflo Hvhi Hfhi Hb.
  assert (Hs : 0 < 2 ^ scale) by (apply pow2_pos; unfold scale; lia).
  assert (Hzero : SFvalue x * SFvalue y = 0 ->
                  SFvalue lo <= 0 <= SFvalue hi) by (intros E; rewrite E in Hb; nia).
  destruct x as [sx| | |sx mx ex], y as [sy| | |sy my ey]; try discriminate;
    cbn [SFmul]; try (cbn [valid_binary SFfinite SFvalue]; auto using Z.mul_0_l, Z.mul_0_r; fail).
  apply bounded_canonical in Hvx, Hvy. destruct Hvx as [Hcx _], Hvy as [Hcy _].
  destruct (canonical_facts _ _ Hcx) as (Hex & _).
  destruct (canonical_facts _ _ Hcy) as (Hey & _).
  change (Zpos (mx * my)) with (Zpos mx * Zpos my).
  assert (Hpos : 0 < Zpos mx * Zpos my) by lia.
  destruct (round_aux_spec (xorb sx sy) (Zpos mx * Zpos my) (ex + ey) Hpos)
    as (m' & e' & -> & Hr).
  apply (pack_between (Zpos mx * Zpos my) (ex + ey) m' e'); try assumption.
  - unfold scale. lia.
  - now apply product_exponent.
  - rewrite !SFvalue_finite in Hb.
    assert (E : cond_Zopp sx (dyadic (Zpos mx) ex) * cond_Zopp sy (dyadic (Zpos my) ey) =
                dyadic (cond_Zopp (xorb sx sy) (Zpos mx * Zpos my)) (ex + ey) * 2 ^ scale).
    { assert (P : 2 ^ (ex + ey + scale) * 2 ^ scale =
                  2 ^ (ex + scale) * 2 ^ (ey + scale))
        by (rewrite <- !pow2_add by (unfold scale; lia); f_equal; lia).
      unfold dyadic. rewrite <- Z.mul_assoc, P.
      destruct sx, sy; unfold cond_Zopp, xorb; ring. }
    rewrite E in Hb. nia.
Qed.

(** *** Addition and subtraction *)

Lemma dyadic_add (a b e : Z) : dyadic (a + b) e = dyadic a e + dyadic b e.
Proof. unfold dyadic. ring. Qed.

Lemma dyadic_sub (a b e : Z) : dyadic (a - b) e = dyadic a e - dyadic b e.
Proof. unfold dyadic. ring. Qed.

Lemma aligned_value (s : bool) (m : positive) (e ez : Z) :
  ez <= e -> 0 <= ez + scale ->
  dyadic (cond_Zopp s (Zpos (fst (shl_align m e ez)))) ez = SFvalue (S754_finite s m e).
Proof.
  intros Hle Hez. destruct (shl_align_spec m e ez) as (mz & -> & Hmz).
  cbn [fst]. replace (Z.min e ez) with ez in Hmz by lia.
  rewrite SFvalue_finite, (dyadic_align _ e ez), Hmz by assumption.
  destruct s; unfold cond_Zopp; [rewrite dyadic_opp|]; reflexivity.
Qed.

Lemma SFadd_between (x y lo hi : spec_float) :
  valid_binary x = true -> SFfinite x = true ->
  valid_binary y = true -> SFfinite y = true ->
  valid_binary lo = true -> SFfinite lo = true ->
  valid_binary hi = true -> SFfinite hi = true ->
  SFvalue lo <= SFvalue x + SFvalue y <= SFvalue hi ->
  valid_binary (SFadd prec emax x y) = true /\
  SFfinite (SFadd prec emax x y) = true /\
  SFvalue lo <= SFvalue (SFadd prec emax x y) <= SFvalue hi.
Proof.
  intros Hvx Hfx Hvy Hfy Hvlo Hflo Hvhi Hfhi Hb.
  destruct x as [sx| | |sx mx ex], y as [sy| | |sy my ey]; try discriminate;
    cbn [SFadd].
  - destruct sx, sy; simpl in *; auto.
  - cbn [SFvalue] in Hb. rewrite Z.add_0_l in Hb. auto.
  - cbn [SFvalue] in Hb. rewrite Z.add_0_r in Hb. auto.
  - pose proof Hvx as Hcx. pose proof Hvy as Hcy.
    apply bounded_canonical in Hcx, Hcy. destruct Hcx as [Hcx _], Hcy as [Hcy _].
    destruct (canonical_facts _ _ Hcx) as (Hex & _).
    destruct (canonical_facts _ _ Hcy) as (Hey & _).
    assert (Hez : 0 <= Z.min ex ey + scale) by (unfold scale; lia).
    cbv zeta. apply binary_normalize_between; try assumption.
    rewrite dyadic_add, !aligned_value by (try assumption; lia). assumption.
Qed.

Lemma SFsub_between (x y lo hi : spec_float) :
  valid_binary x = true -> SFfinite x = true ->
  valid_binary y = true -> SFfinite y = true ->
  valid_binary lo = true -> SFfinite lo = true ->
  valid_binary hi = true -> SFfinite hi = true ->
  SFvalue lo <= SFvalue x - SFvalue y <= SFvalue hi ->
  valid_binary (SFsub prec emax x y) = true /\
  SFfinite (SFsub prec emax x y) = true /\
  SFvalue lo <= SFvalue (SFsub prec emax x y) <= SFvalue hi.
Proof.
  intros Hvx Hfx Hvy Hfy Hvlo Hflo Hvhi Hfhi Hb.
  destruct x as [sx| | |sx mx ex], y as [sy| | |sy my ey]; try discriminate;
    cbn [SFsub].
  - destruct sx, sy; simpl in *; auto.
  - rewrite !SFvalue_finite in *. cbn [SFvalue] in Hb.
    split; [exact Hvy|]. split; [reflexivity|].
    destruct sy; cbn [negb cond_Zopp] in *; lia.
  - cbn [SFvalue] in Hb. rewrite Z.sub_0_r in Hb. auto.
  - pose proof Hvx as Hcx. pose proof Hvy as Hcy.
    apply bounded_canonical in Hcx, Hcy. destruct Hcx as [Hcx _], Hcy as [Hcy _].
    destruct (canonical_facts _ _ Hcx) as (Hex & _).
    destruct (canonical_facts _ _ Hcy) as (Hey & _).
    assert (Hez : 0 <= Z.min ex ey + scale) by (unfold scale; lia).
    cbv zeta. apply binary_normalize_between; try assumption.
    rewrite dyadic_sub, !aligned_value by (try assumption; lia). assumption.
Qed.

(** *** The primitive operations *)

Lemma finite_valid (x : float) : valid_binary (Prim2SF x) = true.
Proof. apply Prim2SF_valid. Qed.

Lemma mul_between (x y lo hi : float) :
  finite x = true -> finite y = true -> finite lo = true -> finite hi = true ->
  val lo * 2 ^ scale <= val x * val y <= val hi * 2 ^ scale ->
  finite (x * y) = true /\ val lo <= val (x * y) <= val hi.
Proof.
  intros Hx Hy Hlo Hhi Hb. unfold finite, val in *. rewrite mul_spec.
  apply SFmul_between; auto using Prim2SF_valid.
Qed.

Lemma add_between (x y lo hi : float) :
  finite x = true -> finite y = true -> finite lo = true -> finite hi = true ->
  val lo <= val x + val y <= val hi ->
  finite (x + y) = true /\ val lo <= val (x + y) <= val hi.
Proof.
  intros Hx Hy Hlo Hhi Hb. unfold finite, val in *. rewrite add_spec.
  apply SFadd_between; auto using Prim2SF_valid.
Qed.

Lemma sub_between (x y lo hi : float) :
  finite x = true -> finite y = true -> finite lo = true -> finite hi = true ->
  val lo <= val x - val y <= val hi ->
  finite (x - y) = true /\ val lo <= val (x - y) <= val hi.
Proof.
  intros Hx Hy Hlo Hhi Hb. unfold finite, val in *. rewrite sub_spec.
  apply SFsub_between; auto using Prim2SF_valid.
Qed.

(** *** Comparison *)

Lemma dyadic_compare (a b e : Z) :
  0 <= e + scale -> (dyadic a e ?= dyadic b e) = (a ?= b).
Proof.
  intros He. unfold dyadic. pose proof (pow2_pos _ He) as Hp.
  destruct (Z.compare_spec a b) as [->|H|H].
  - apply Z.compare_refl.
  - apply Z.compare_lt_iff, Z.mul_lt_mono_pos_r; assumption.
  - apply Z.compare_gt_iff, Z.mul_lt_mono_pos_r; assumption.
Qed.

Lemma canonical_compare (mx ex my ey : Z) :
  canonical mx ex -> canonical my ey ->
  (dyadic mx ex ?= dyadic my ey) =
  match ex ?= ey with
  | Eq => mx ?= my
  | c => c
  end.
Proof.
  intros Hx Hy.
  destruct (canonical_facts _ _ Hx) as (Hex & _ & Hnx).
  destruct (canonical_facts _ _ Hy) as (Hey & _ & Hny).
  destruct (Z.compare_spec ex ey) as [->|Hlt|Hgt].
  - apply dyadic_compare. unfold scale. lia.
  - apply Z.compare_lt_iff, canonical_below; auto. apply Hny. lia.
  - apply Z.compare_gt_iff, canonical_below; auto. apply Hnx. lia.
Qed.

(** On finite numbers the comparison of IEEE 754 is the order of the
    values. *)
Lemma SFcompare_finite (x y : spec_float) :
  valid_binary x = true -> SFfinite x = true ->
  valid_binary y = true -> SFfinite y = true ->
  SFcompare x y = Some (SFvalue x ?= SFvalue y).
Proof.
  intros Hvx Hfx Hvy Hfy.
  pose proof (SFvalue_sign x Hvx) as Hsx. pose proof (SFvalue_sign y Hvy) as Hsy.
  destruct x as [sx| | |sx mx ex], y as [sy| | |sy my ey]; try discriminate;
    cbn [SFcompare].
  - reflexivity.
  - destruct sy, Hsy as [-> Hp]; cbn [SFvalue]; f_equal; symmetry;
      [apply Z.compare_gt_iff|apply Z.compare_lt_iff]; lia.
  - destruct sx, Hsx as [-> Hp]; cbn [SFvalue]; f_equal; symmetry;
      [apply Z.compare_lt_iff|apply Z.compare_gt_iff]; lia.
  - apply bounded_canonical in Hvx, Hvy. destruct Hvx as [Hcx _], Hvy as [Hcy _].
    pose proof (canonical_compare _ _ _ _ Hcx Hcy) as Hc.
    pose proof (canonical_compare _ _ _ _ Hcy Hcx) as Hc'.
    cbn [SFmag] in *.
    change (Pos.compare_cont Eq mx my) with (Zpos mx ?= Zpos my).
    f_equal.
    destruct sx, sy, Hsx as [-> Hpx], Hsy as [-> Hpy].
    + rewrite Z.compare_opp, Hc', (Z.compare_antisym ey ex).
      destruct (ey ?= ex); cbn [CompOpp]; try reflexivity.
      symmetry. apply Z.compare_antisym.
    + symmetry. apply Z.compare_lt_iff. lia.
    + symmetry. apply Z.compare_gt_iff. lia.
    + rewrite Hc. destruct (ex ?= ey); reflexivity.
Qed.

Lemma leb_val (x y : float) :
  finite x = true -> finite y = true -> (x <=? y)%float = (val x <=? val y).
Proof.
  intros Hx Hy. rewrite leb_spec. unfold SFleb, val, finite in *.
  rewrite SFcompare_finite by auto using Prim2SF_valid.
  unfold Z.leb. destruct (SFvalue (Prim2SF x) ?= SFvalue (Prim2SF y)); reflexivity.
Qed.

Lemma ltb_val (x y : float) :
  finite x = true -> finite y = true -> (x <? y)%float = (val x <? val y).
Proof.
  intros Hx Hy. rewrite ltb_spec. unfold SFltb, val, finite in *.
  rewrite SFcompare_finite by auto using Prim2SF_valid.
  unfold Z.ltb. destruct (SFvalue (Prim2SF x) ?= SFvalue (Prim2SF y)); reflexivity.
Qed.

(** A number between two finite numbers is finite. *)
Lemma between_finite (lo x hi : float) :
  finite lo = true -> finite hi = true ->
  (lo <=? x)%float = true -> (x <? hi)%float = true -> finite x = true.
Proof.
  rewrite leb_spec, ltb_spec. unfold finite, SFleb, SFltb.
  destruct (Prim2SF lo), (Prim2SF x) as [sx|[|]| |sx mx ex], (Prim2SF hi);
    simpl; congruence.
Qed.

(** *** Numbers that are kept exactly *)

Lemma binary_round_exact (s : bool) (p : positive) (e : Z) :
  0 <= e + scale ->
  fexp64 (Zdigits2 (Zpos p) + e) <= Z.min e 971 ->
  valid_binary (binary_round prec emax s p e) = true /\
  SFfinite (binary_round prec emax s p e) = true /\
  SFvalue (binary_round prec emax s p e) = dyadic (cond_Zopp s (Zpos p)) e.
Proof.
  intros He Hf. unfold binary_round. rewrite fexp64_eq.
  change (Zpos (digits2_pos p)) with (Zdigits2 (Zpos p)).
  set (f := fexp64 (Zdigits2 (Zpos p) + e)) in *.
  destruct (shl_align_spec p e f) as (mz & -> & Hmz).
  replace (Z.min e f) with f in * by lia.
  assert (Hf0 : -1074 <= f) by (unfold f, fexp64; lia).
  assert (Hd : Zdigits2 (Zpos mz) + f = Zdigits2 (Zpos p) + e)
    by (rewrite Hmz, Zdigits2_shift by lia; lia).
  destruct (round_aux_spec s (Zpos mz) f eq_refl) as (m' & e' & -> & Hr).
  destruct Hr as (_ & _ & [(_ & -> & ->)|(Hlt & _)]);
    [|rewrite Hd in Hlt; fold f in Hlt; lia].
  unfold pack. replace (f <=? 971) with true by (symmetry; apply Z.leb_le; lia).
  split; [|split; [reflexivity|]].
  - apply bounded_canonical. split; [|lia]. split; [reflexivity|].
    rewrite Hd. reflexivity.
  - rewrite SFvalue_finite, (dyadic_align _ e f), Hmz by (unfold scale; lia).
    destruct s; unfold cond_Zopp, dyadic; ring.
Qed.

Lemma binary_normalize_integer (z : Z) :
  - 2 ^ 53 < z < 2 ^ 53 ->
  valid_binary (binary_normalize prec emax z 0 false) = true /\
  SFfinite (binary_normalize prec emax z 0 false) = true /\
  SFvalue (binary_normalize prec emax z 0 false) = z * 2 ^ scale.
Proof.
  intros Hz. destruct z as [|p|p]; cbn [binary_normalize].
  - repeat split.
  - apply (binary_round_exact false p 0); [unfold scale; lia|].
    assert (Zdigits2 (Zpos p) <= 53) by (apply Zdigits2_le; lia).
    unfold fexp64. lia.
  - apply (binary_round_exact true p 0); [unfold scale; lia|].
    assert (Zdigits2 (Zpos p) <= 53) by (apply Zdigits2_le; lia).
    unfold fexp64. lia.
Qed.

Lemma of_Z_exact (z : Z) :
  - 2 ^ 53 < z < 2 ^ 53 ->
  finite (Number.of_Z z) = true /\ val (Number.of_Z z) = z * 2 ^ scale.
Proof.
  intros Hz. destruct (binary_normalize_integer z Hz) as (Hv & Hf & Hval).
  unfold finite, val, Number.of_Z. rewrite Prim2SF_SF2Prim by assumption. auto.
Qed.

End Binary64Facts.

(** ** The arithmetic of the fallback generator *)

Module FallbackArithmetic.
Import Binary64 Binary64Facts.

Lemma pow2_scale_pos : 0 < 2 ^ scale.
Proof. apply pow2_pos. unfold scale. lia. Qed.

Lemma val_of_Z (z : Z) :
  -9007199254740992 < z < 9007199254740992 -> val (Number.of_Z z) = z * 2 ^ scale.
Proof. intros H. apply of_Z_exact. change (2 ^ 53) with 9007199254740992. lia. Qed.

Lemma finite_of_Z (z : Z) :
  -9007199254740992 < z < 9007199254740992 -> finite (Number.of_Z z) = true.
Proof. intros H. apply of_Z_exact. change (2 ^ 53) with 9007199254740992. lia. Qed.

Lemma literal_of_Z (x : float) (z : Z) :
  Prim2SF x = binary_normalize prec emax z 0 false -> x = Number.of_Z z.
Proof.
  intros H. unfold Number.of_Z. rewrite <- H. symmetry. apply SF2Prim_Prim2SF.
Qed.

Lemma float_15 : 15%float = Number.of_Z 15.
Proof. apply literal_of_Z. reflexivity. Qed.

Lemma float_30 : 30%float = Number.of_Z 30.
Proof. apply literal_of_Z. reflexivity. Qed.

Lemma float_100 : 100%float = Number.of_Z 100.
Proof. apply literal_of_Z. reflexivity. Qed.

Lemma float_0 : 0%float = Number.of_Z 0.
Proof. apply literal_of_Z. reflexivity. Qed.

Lemma float_1 : 1%float = Number.of_Z 1.
Proof. apply literal_of_Z. reflexivity. Qed.

(** A draw of [Math.random] lies in [0, 1). *)
Lemma draw_bounds (r : float) :
  (0 <=? r)%float = true -> (r <? 1)%float = true ->
  finite r = true /\ 0 <= val r < 2 ^ scale.
Proof.
  intros H0 H1.
  assert (Hf : finite r = true).
  { apply (between_finite 0 r 1); auto. }
  split; [assumption|].
  rewrite float_0 in H0. rewrite float_1 in H1.
  rewrite leb_val in H0 by (auto; apply finite_of_Z; lia).
  rewrite ltb_val in H1 by (auto; apply finite_of_Z; lia).
  rewrite val_of_Z in H0, H1 by lia.
  apply Z.leb_le in H0. apply Z.ltb_lt in H1. lia.
Qed.

(** [Math.round] of a number in [L, U], for integers 0 < L <= U < 2^52. *)
Lemma Math_round_between (x : float) (L U : Z) :
  finite x = true -> 0 < L -> U < 4503599627370496 ->
  L * 2 ^ scale <= val x <= U * 2 ^ scale ->
  exists k, L <= k <= U /\ Math_round x = Number.of_Z k.
Proof.
  intros Hf HL HU [Hlo Hhi]. pose proof pow2_scale_pos as Hs.
  unfold finite, val, Math_round in *. pose proof (Prim2SF_valid x) as Hv.
  destruct (Prim2SF x) as [s| | |s m e]; try discriminate;
    [cbn [SFvalue] in Hlo; nia|].
  apply bounded_canonical in Hv. destruct Hv as [Hc _].
  destruct (canonical_facts _ _ Hc) as (He & _ & Hn).
  rewrite SFvalue_finite in Hlo, Hhi.
  assert (Hpos : 0 < dyadic (Zpos m) e) by (apply dyadic_pos; unfold scale; lia).
  destruct s; cbn [cond_Zopp] in *; [nia|].
  assert (Hneg : e < 0).
  { destruct (Z.lt_ge_cases e 0) as [H|H]; [assumption|exfalso].
    assert (H52 : 4503599627370496 <= Zpos m) by (apply Hn; lia).
    unfold dyadic in Hhi. rewrite pow2_add in Hhi by (unfold scale; lia).
    rewrite Z.mul_assoc in Hhi.
    apply Z.mul_le_mono_pos_r in Hhi; [|assumption].
    assert (1 <= 2 ^ e) by (pose proof (pow2_pos e H); lia).
    assert (Zpos m * 1 <= Zpos m * 2 ^ e) by (apply Z.mul_le_mono_nonneg_l; lia).
    lia. }
  replace (0 <=? e) with false by (symmetry; apply Z.leb_gt; assumption).
  set (k := (2 * Zpos m + 2 ^ (- e)) / 2 ^ (1 - e)).
  assert (Hp : 0 < 2 ^ (- e)) by (apply pow2_pos; lia).
  assert (Hp1 : 2 ^ (1 - e) = 2 * 2 ^ (- e)).
  { replace (1 - e) with (1 + - e) by lia. rewrite pow2_add by lia. reflexivity. }
  assert (Hsplit : 2 ^ scale = 2 ^ (e + scale) * 2 ^ (- e)).
  { rewrite <- pow2_add by (unfold scale; lia). f_equal. lia. }
  assert (Hps : 0 < 2 ^ (e + scale)) by (apply pow2_pos; unfold scale; lia).
  unfold dyadic in Hlo, Hhi. rewrite Hsplit in Hlo, Hhi.
  assert (HmL : L * 2 ^ (- e) <= Zpos m) by nia.
  assert (HmU : Zpos m <= U * 2 ^ (- e)) by nia.
  assert (Hk : L <= k <= U).
  { unfold k. rewrite Hp1. split.
    - apply Z.div_le_lower_bound; nia.
    - assert ((2 * Zpos m + 2 ^ (- e)) / (2 * 2 ^ (- e)) < U + 1)
        by (apply Z.div_lt_upper_bound; nia).
      lia. }
  exists k. split; [assumption|].
  replace (k =? 0) with false by (symmetry; apply Z.eqb_neq; lia).
  reflexivity.
Qed.

(** The value of one entry of the fallback series: it is the integer
    [k] of hundredths, divided by 100, for some [k] within 1500
    hundredths of the baseline. *)
Lemma fallback_value_hundredths (baseValue r : float) (B : Z) :
  finite baseValue = true -> val baseValue = B * 2 ^ scale ->
  15 < B < 1000000 ->
  (0 <=? r)%float = true -> (r <? 1)%float = true ->
  exists k,
    100 * (B - 15) <= k <= 100 * (B + 15) /\
    (Math_round ((baseValue + (r * 30 - 15)) * 100) / 100)%float
    = (Number.of_Z k / 100)%float.
Proof.
  intros Hfb Hvb HB H0 H1. pose proof pow2_scale_pos as Hs.
  destruct (draw_bounds r H0 H1) as [Hfr Hr].
  assert (H1' : finite (r * 30) = true /\
                0 * 2 ^ scale <= val (r * 30) <= 30 * 2 ^ scale).
  { rewrite <- (val_of_Z 0), <- (val_of_Z 30) by lia.
    apply mul_between;
      [exact Hfr | rewrite float_30; apply finite_of_Z; lia
       | apply finite_of_Z; lia | apply finite_of_Z; lia |].
    rewrite float_30, !val_of_Z by lia. nia. }
  destruct H1' as [Hf1 Hb1].
  assert (H2' : finite (r * 30 - 15) = true /\
                (-15) * 2 ^ scale <= val (r * 30 - 15) <= 15 * 2 ^ scale).
  { rewrite <- (val_of_Z (-15)), <- (val_of_Z 15) by lia.
    apply sub_between;
      [exact Hf1 | rewrite float_15; apply finite_of_Z; lia
       | apply finite_of_Z; lia | apply finite_of_Z; lia |].
    rewrite float_15, !val_of_Z by lia. lia. }
  destruct H2' as [Hf2 Hb2].
  assert (H3' : finite (baseValue + (r * 30 - 15)) = true /\
                (B - 15) * 2 ^ scale <= val (baseValue + (r * 30 - 15))
                                     <= (B + 15) * 2 ^ scale).
  { rewrite <- (val_of_Z (B - 15)), <- (val_of_Z (B + 15)) by lia.
    apply add_between;
      [exact Hfb | exact Hf2 | apply finite_of_Z; lia | apply finite_of_Z; lia |].
    rewrite !val_of_Z by lia. lia. }
  destruct H3' as [Hf3 Hb3].
  assert (H4' : finite ((baseValue + (r * 30 - 15)) * 100) = true /\
                (100 * (B - 15)) * 2 ^ scale
                <= val ((baseValue + (r * 30 - 15)) * 100)
                <= (100 * (B + 15)) * 2 ^ scale).
  { rewrite <- (val_of_Z (100 * (B - 15))), <- (val_of_Z (100 * (B + 15))) by lia.
    apply mul_between;
      [exact Hf3 | rewrite float_100; apply finite_of_Z; lia
       | apply finite_of_Z; lia | apply finite_of_Z; lia |].
    rewrite float_100, !val_of_Z by lia. nia. }
  destruct H4' as [Hf4 Hb4].
  destruct (Math_round_between _ (100 * (B - 15)) (100 * (B + 15)) Hf4)
    as (k & Hk & ->); try assumption; try lia.
  exists k. split; [assumption|reflexivity].
Qed.

End FallbackArithmetic.

(** ** Whole numbers and the remainder by ten *)

Module WholeNumbers.
Import Binary64 Binary64Facts.

Lemma canonical_unique (m1 e1 m2 e2 : Z) :
  canonical m1 e1 -> canonical m2 e2 -> dyadic m1 e1 = dyadic m2 e2 ->
  m1 = m2 /\ e1 = e2.
Proof.
  intros H1 H2 E. pose proof (canonical_compare _ _ _ _ H1 H2) as Hc.
  rewrite E, Z.compare_refl in Hc.
  destruct (Z.compare_spec e1 e2) as [->|H|H]; try discriminate.
  split; [|reflexivity]. symmetry in Hc. now apply Z.compare_eq_iff.
Qed.

(** Two valid finite numbers with the same value, not zero, are the
    same number. *)
Lemma SF_unique (x y : spec_float) :
  valid_binary x = true -> valid_binary y = true ->
  SFfinite x = true -> SFfinite y = true ->
  SFvalue x = SFvalue y -> SFvalue x <> 0 -> x = y.
Proof.
  intros Hvx Hvy Hfx Hfy E Hnz.
  pose proof (SFvalue_sign x Hvx) as Hsx. pose proof (SFvalue_sign y Hvy) as Hsy.
  destruct x as [sx| | |sx mx ex], y as [sy| | |sy my ey]; try discriminate;
    try (destruct Hsx as [Hsx _]; congruence);
    try (destruct Hsy as [Hsy _]; congruence).
  apply bounded_canonical in Hvx, Hvy. destruct Hvx as [Hcx _], Hvy as [Hcy _].
  cbn [SFmag] in *.
  assert (Hs : sx = sy /\ dyadic (Zpos mx) ex = dyadic (Zpos my) ey).
  { destruct sx, sy, Hsx as [Ex Hpx], Hsy as [Ey Hpy]; split; try reflexivity; lia. }
  destruct Hs as [-> Hd].
  destruct (canonical_unique _ _ _ _ Hcx Hcy Hd) as [Hm ->].
  injection Hm as ->. reflexivity.
Qed.

Lemma Zdigits2_mono (a b : Z) : 0 < a <= b -> Zdigits2 a <= Zdigits2 b.
Proof.
  intros [Ha Hab]. assert (Hb : 0 < b) by lia.
  pose proof (Zdigits2_bounds b Hb) as [_ Hhi]. pose proof (Zdigits2_pos b Hb).
  apply Zdigits2_le; lia.
Qed.

(** The exponent of a valid number that is a whole number [V]. *)
Lemma whole_exponent (m e V : Z) :
  canonical m e -> dyadic m e = V * 2 ^ scale -> 1 <= V -> Zdigits2 V - 53 <= e.
Proof.
  intros Hc Hd HV. destruct (canonical_facts _ _ Hc) as (He & Hm & _).
  pose proof (Zdigits2_bounds V ltac:(lia)) as [Hlo _].
  pose proof (Zdigits2_pos V ltac:(lia)) as HdV.
  destruct (Z.le_gt_cases (Zdigits2 V - 53) e) as [H|H]; [assumption|exfalso].
  assert (Hs : 0 < 2 ^ scale) by (apply pow2_pos; unfold scale; lia).
  assert (Hp : 0 < 2 ^ (e + scale)) by (apply pow2_pos; unfold scale; lia).
  assert (H1 : 2 ^ (Zdigits2 V - 1) * 2 ^ scale <= m * 2 ^ (e + scale))
    by (unfold dyadic in Hd; rewrite Hd; apply Z.mul_le_mono_nonneg_r; lia).
  assert (H2 : m * 2 ^ (e + scale) < 2 ^ 53 * 2 ^ (e + scale))
    by (apply Z.mul_lt_mono_pos_r; assumption).
  rewrite <- !pow2_add in * by (unfold scale; lia).
  assert (H3 : 2 ^ (53 + (e + scale)) <= 2 ^ (Zdigits2 V - 1 + scale))
    by (apply pow2_le; unfold scale; lia).
  lia.
Qed.

(** The same value at another exponent normalizes to the same number. *)
Lemma binary_normalize_shift (i j : Z) :
  0 < i -> 0 <= j -> 0 <= - j + scale -> fexp64 (Zdigits2 i) <= - j ->
  binary_normalize prec emax (i * 2 ^ j) (- j) false =
  binary_normalize prec emax i 0 false.
Proof.
  intros Hi Hj Hs Hf. pose proof (pow2_pos j Hj) as Hp.
  destruct i as [|p|p]; try lia.
  destruct (Zpos p * 2 ^ j) as [|q|q] eqn:Eq; try lia.
  cbn [binary_normalize].
  destruct (binary_round_exact false q (- j) Hs) as (Hv1 & Hf1 & Hval1).
  { rewrite <- Eq, Zdigits2_shift by lia.
    replace (Zdigits2 (Zpos p) + j + - j) with (Zdigits2 (Zpos p)) by lia. lia. }
  destruct (binary_round_exact false p 0) as (Hv2 & Hf2 & Hval2);
    [unfold scale; lia|rewrite Z.add_0_r; lia|].
  apply SF_unique; try assumption.
  - rewrite Hval1, Hval2. cbn [cond_Zopp]. rewrite <- Eq.
    rewrite dyadic_shift by lia. f_equal. lia.
  - rewrite Hval1. cbn [cond_Zopp].
    pose proof (dyadic_pos (Zpos q) (- j) Hs eq_refl). lia.
Qed.

(** Rounding a positive integer gives a whole number. *)
Lemma binary_round_whole (p : positive) :
  SFfinite (binary_round prec emax false p 0) = true ->
  exists V, SFvalue (binary_round prec emax false p 0) = V * 2 ^ scale.
Proof.
  unfold binary_round. rewrite fexp64_eq.
  change (Zpos (digits2_pos p)) with (Zdigits2 (Zpos p)). rewrite Z.add_0_r.
  set (f := fexp64 (Zdigits2 (Zpos p))).
  destruct (shl_align_spec p 0 f) as (mz & -> & Hmz).
  assert (Hf0 : -1074 <= f) by (unfold f, fexp64; lia).
  destruct (round_aux_spec false (Zpos mz) (Z.min 0 f) eq_refl)
    as (m' & e' & -> & Hm' & He' & Hr).
  destruct (Z.le_gt_cases f 0) as [Hle|Hgt].
  - replace (Z.min 0 f) with f in * by lia.
    assert (Hd : Zdigits2 (Zpos mz) + f = Zdigits2 (Zpos p))
      by (rewrite Hmz, Zdigits2_shift by lia; lia).
    destruct Hr as [(_ & -> & ->)|(Hlt & _)]; [|rewrite Hd in Hlt; fold f in Hlt; lia].
    intros _. exists (Zpos p). unfold pack.
    replace (f <=? 971) with true by (symmetry; apply Z.leb_le; lia).
    rewrite SFvalue_finite. cbn [cond_Zopp]. rewrite Hmz.
    replace (0 - f) with (0 - f) by reflexivity.
    rewrite <- (dyadic_align (Zpos p) 0 f) by (unfold scale; lia).
    unfold dyadic. rewrite Z.add_0_l. reflexivity.
  - replace (Z.min 0 f) with 0 in * by lia.
    intros Hfin. destruct m' as [|q|q]; try lia.
    + exists 0. reflexivity.
    + unfold pack in *. destruct (e' <=? 971); [|discriminate].
      exists (Zpos q * 2 ^ e'). rewrite SFvalue_finite. cbn [cond_Zopp].
      unfold dyadic. rewrite pow2_add by (unfold scale; lia). ring.
Qed.

(** The number read from a non-negative integer that is not too large
    is +0 or a positive whole number. *)
Lemma of_Z_whole (z : Z) :
  0 <= z <= max_integer ->
  Prim2SF (Number.of_Z z) = S754_zero false \/
  exists m e V,
    Prim2SF (Number.of_Z z) = S754_finite false m e /\
    dyadic (Zpos m) e = V * 2 ^ scale /\ 1 <= V.
Proof.
  intros Hz. unfold Number.of_Z. destruct z as [|p|p]; try lia.
  - left. reflexivity.
  - right. cbn [binary_normalize].
    set (one := S754_finite false 4503599627370496 (-52)).
    set (top := S754_finite false 9007199254740991 971).
    assert (Hs : 0 < 2 ^ scale) by (apply pow2_pos; unfold scale; lia).
    assert (Hone : SFvalue one = 2 ^ scale).
    { unfold one. rewrite SFvalue_finite. cbn [cond_Zopp]. unfold dyadic.
      change 4503599627370496 with (2 ^ 52).
      rewrite <- pow2_add by (unfold scale; lia). f_equal; lia. }
    assert (Htop : SFvalue top = max_integer * 2 ^ scale).
    { unfold top. rewrite SFvalue_finite. cbn [cond_Zopp]. unfold dyadic, max_integer.
      rewrite pow2_add by (unfold scale; lia). ring. }
    assert (Hbetween :
              valid_binary (binary_round prec emax false p 0) = true /\
              SFfinite (binary_round prec emax false p 0) = true /\
              SFvalue one <= SFvalue (binary_round prec emax false p 0)
                          <= SFvalue top).
    { apply binary_round_between;
        [unfold scale; lia | reflexivity | reflexivity | reflexivity | reflexivity |].
      rewrite Hone, Htop. cbn [cond_Zopp]. unfold dyadic. rewrite Z.add_0_l.
      destruct Hz as [_ Hz]. revert Hz Hs. generalize max_integer, (2 ^ scale).
      intros M S Hz Hs. split; nia. }
    destruct Hbetween as (Hv & Hf & Hlo & _).
    destruct (binary_round_whole p Hf) as [V HV].
    rewrite Prim2SF_SF2Prim by assumption.
    pose proof (SFvalue_sign _ Hv) as Hsign.
    rewrite Hone in Hlo. clear Hone Htop Hz. clearbody one top.
    revert Hs Hlo HV. generalize (2 ^ scale). intros S Hs Hlo HV.
    destruct (binary_round prec emax false p 0) as [s| | |s m e].
    + destruct Hsign as [Hsign _]. lia.
    + cbn [SFfinite] in Hf. congruence.
    + cbn [SFfinite] in Hf. congruence.
    + destruct s; destruct Hsign as [Es Hp]; cbn [SFmag] in Es, Hp; [lia|].
      exists m, e, V. rewrite <- Es, HV.
      repeat split. nia.
Qed.

Lemma Prim2SF_10 : Prim2SF 10 = S754_finite false 5629499534213120 (-49).
Proof. reflexivity. Qed.

(** [n % 10] for a positive whole number [V]: the number [V mod 10]. *)
Lemma rem_10_value (n : float) (m : positive) (e V : Z) :
  Prim2SF n = S754_finite false m e ->
  dyadic (Zpos m) e = V * 2 ^ scale -> 1 <= V ->
  Number.rem n 10 = Number.of_Z (V mod 10).
Proof.
  intros Hn Hd HV. unfold Number.rem; rewrite Hn, Prim2SF_10.
  cbv beta iota zeta.
  pose proof (Prim2SF_valid n) as Hv. rewrite Hn in Hv.
  apply bounded_canonical in Hv. destruct Hv as [Hc _].
  destruct (canonical_facts _ _ Hc) as (He & _).
  pose proof (whole_exponent _ _ _ Hc Hd HV) as HeV.
  set (e0 := Z.min e (-49)). set (j := - e0).
  assert (Hj : 49 <= j <= 1074) by (unfold j, e0; lia).
  assert (Hpj : 0 < 2 ^ j) by (apply pow2_pos; lia).
  assert (Ea : Zpos m * 2 ^ (e - e0) = V * 2 ^ j).
  { assert (HP : 0 < 2 ^ (e0 + scale)) by (apply pow2_pos; unfold scale, e0; lia).
    apply (Z.mul_reg_r _ _ (2 ^ (e0 + scale))); [lia|].
    rewrite <- !Z.mul_assoc, <- !pow2_add by (unfold scale, j, e0; lia).
    unfold dyadic in Hd.
    replace (e - e0 + (e0 + scale)) with (e + scale) by lia.
    replace (j + (e0 + scale)) with scale by (unfold j; lia). exact Hd. }
  assert (Eb : 5629499534213120 * 2 ^ (-49 - e0) = 10 * 2 ^ j).
  { change 5629499534213120 with (10 * 2 ^ 49).
    rewrite <- Z.mul_assoc, <- pow2_add by (unfold j, e0 in *; lia).
    do 2 f_equal. unfold j. lia. }
  rewrite Ea, Eb, Z.mul_mod_distr_r by lia.
  set (i := V mod 10).
  assert (Hi : 0 <= i < 10) by (apply Z.mod_pos_bound; lia).
  destruct (Z.eqb_spec (i * 2 ^ j) 0) as [E0|E0].
  - assert (H : i = 0) by nia. rewrite H. reflexivity.
  - assert (Hi0 : 0 < i) by nia.
    unfold Number.of_Z. f_equal. cbn [cond_Zopp].
    replace e0 with (- j) by (unfold j; lia).
    apply binary_normalize_shift; try lia; [unfold scale; lia|].
    assert (Hdi : Zdigits2 i <= 4) by (apply Zdigits2_le; simpl; lia).
    assert (Hdv : Zdigits2 i <= Zdigits2 V).
    { apply Zdigits2_mono. split; [lia|].
      pose proof (Z.mod_le V 10). unfold i. lia. }
    pose proof (Zdigits2_pos i Hi0).
    unfold fexp64, j, e0. lia.
Qed.

(** [n % 10] for a number that is +0 or a positive whole number. *)
Lemma rem_10 (n : float) :
  (Prim2SF n = S754_zero false \/
   exists m e V,
     Prim2SF n = S754_finite false m e /\
     dyadic (Zpos m) e = V * 2 ^ scale /\ 1 <= V) ->
  exists i, 0 <= i <= 9 /\ Number.rem n 10 = Number.of_Z i.
Proof.
  intros [Hn|(m & e & V & Hn & Hd & HV)].
  - unfold Number.rem; rewrite Hn, Prim2SF_10.
    exists 0. split; [lia|]. rewrite <- (SF2Prim_Prim2SF n), Hn. reflexivity.
  - exists (V mod 10). split; [|apply (rem_10_value n m e V); assumption].
    pose proof (Z.mod_pos_bound V 10 ltac:(lia)). lia.
Qed.

End WholeNumbers.

(** ** The site index *)

Lemma In_Zrange_iff (lo z : Z) (n : nat) :
  In z (Zrange lo n) <-> lo <= z < lo + Z.of_nat n.
Proof.
  revert lo. induction n as [|n IH]; intros lo.
  - simpl. lia.
  - cbn [Zrange In]. rewrite IH, Nat2Z.inj_succ. lia.
Qed.

Lemma In_Zrange (lo z : Z) (n : nat) :
  lo <= z < lo + Z.of_nat n -> In z (Zrange lo n).
Proof. apply In_Zrange_iff. Qed.

Lemma digit_value_range (c : ascii) : is_digit c = true -> 0 <= digit_value c <= 9.
Proof.
  unfold is_digit, digit_value. rewrite andb_true_iff, !Nat.leb_le. lia.
Qed.

Lemma trim_start_digit (c : ascii) (s : string) :
  is_digit c = true -> trim_start (String c s) = String c s.
Proof.
  destruct c as [[] [] [] [] [] [] [] []]; intros H; try discriminate H;
    destruct s as [|c2 [|c3 s3]]; reflexivity.
Qed.

Lemma digit_no_sign (c : ascii) (s : string) :
  is_digit c = true -> take_sign (String c s) = (false, String c s).
Proof. destruct c as [[] [] [] [] [] [] [] []]; cbv; congruence. Qed.

Lemma remove_non_digits_only (s : string) : digits_only (remove_non_digits s) = true.
Proof.
  unfold digits_only. induction s as [|c s IH]; simpl; [reflexivity|].
  destruct (is_digit c) eqn:E; simpl; [rewrite E|]; assumption.
Qed.

Lemma span_digits_only (s : string) :
  digits_only s = true -> span_digits s = (list_ascii_of_string s, ""%string).
Proof.
  unfold digits_only. induction s as [|c s IH]; simpl; [reflexivity|].
  rewrite andb_true_iff. intros [Hc Hs]. rewrite Hc, (IH Hs). reflexivity.
Qed.

Lemma parseInt_digits_only (s : string) :
  digits_only s = true -> s <> ""%string ->
  parseInt s = Number.of_Z (digits_value (list_ascii_of_string s)).
Proof.
  intros Hd Hne. destruct s as [|c s]; [congruence|].
  assert (Hc : is_digit c = true)
    by (unfold digits_only in Hd; simpl in Hd; apply andb_true_iff in Hd; tauto).
  unfold parseInt. rewrite (trim_start_digit c s Hc).
  rewrite (digit_no_sign c s Hc), (span_digits_only _ Hd). reflexivity.
Qed.

Lemma digits_value_from (l : list ascii) (acc : Z) :
  forallb is_digit l = true -> 0 <= acc ->
  0 <= fold_left (fun a c => 10 * a + digit_value c) l acc
    < (acc + 1) * 10 ^ Z.of_nat (List.length l).
Proof.
  revert acc. induction l as [|c l IH]; intros acc Hd Hacc.
  - simpl. lia.
  - simpl in Hd. apply andb_true_iff in Hd. destruct Hd as [Hc Hl].
    pose proof (digit_value_range c Hc) as Hv.
    cbn [fold_left]. specialize (IH (10 * acc + digit_value c) Hl ltac:(lia)).
    cbn [List.length]. rewrite Nat2Z.inj_succ, Z.pow_succ_r by lia.
    assert (0 < 10 ^ Z.of_nat (List.length l)) by (apply Z.pow_pos_nonneg; lia).
    nia.
Qed.

Lemma length_list_ascii (s : string) :
  List.length (list_ascii_of_string s) = String.length s.
Proof. induction s as [|c s IH]; simpl; congruence. Qed.

Lemma decimal_fits : 10 ^ 308 <= Binary64.max_integer.
Proof. apply Z.leb_le. vm_compute. reflexivity. Qed.

(** A site id with at least one and at most 308 digits has a site index
    that is one of the numbers 0 to 9. *)
Lemma siteIndex_cases (site : string) :
  remove_non_digits site <> ""%string ->
  (String.length (remove_non_digits site) <= 308)%nat ->
  exists i, 0 <= i <= 9 /\ siteIndex_of site = Number.of_Z i.
Proof.
  intros Hne Hlen. unfold siteIndex_of.
  rewrite parseInt_digits_only by auto using remove_non_digits_only.
  apply WholeNumbers.rem_10, WholeNumbers.of_Z_whole.
  pose proof (digits_value_from _ 0 (remove_non_digits_only site) (Z.le_refl 0)) as H.
  fold (digits_value (list_ascii_of_string (remove_non_digits site))) in H.
  rewrite length_list_ascii in H.
  assert (10 ^ Z.of_nat (String.length (remove_non_digits site)) <= 10 ^ 308)
    by (apply Z.pow_le_mono_r; lia).
  pose proof decimal_fits. lia.
Qed.

(** ** The hour of an entry *)

Lemma In_Zrange_inv (lo z : Z) (n : nat) :
  In z (Zrange lo n) -> lo <= z < lo + Z.of_nat n.
Proof. apply In_Zrange_iff. Qed.

Lemma of_Z_uint63 (k : Z) :
  0 <= k < 9223372036854775808 -> Number.of_Z k = float_of k.
Proof.
  intros Hk. unfold float_of.
  rewrite <- (SF2Prim_Prim2SF (PrimFloat.of_uint63 (Uint63.of_Z k))).
  rewrite of_uint63_spec, Uint63.of_Z_spec. unfold Number.of_Z.
  rewrite Z.mod_small; [reflexivity|]. exact Hk.
Qed.

Lemma getHours_cases (h : Host) (d : Date) : In (getHours h d) hours.
Proof.
  unfold getHours, hours. destruct d as [t|]; [right|left; reflexivity].
  pose proof (Z.mod_pos_bound ((t + LocalTZA h t) / msPerHour) 24 ltac:(lia)) as Hm.
  rewrite of_Z_uint63 by lia.
  apply in_map, In_Zrange. simpl. lia.
Qed.

(** ** The entries of the fallback series *)

(** The baselines are on the grid for the ten site indices and every
    hour, and the grid is checked. *)
Lemma baselines_checked :
  forallb (fun i => forallb (baseline_on_grid (float_of i)) hours) (Zrange 0 10)
  = true.
Proof. vm_compute. reflexivity. Qed.

Lemma grid_checked : forallb hundredths_check grid = true.
Proof. vm_compute. reflexivity. Qed.

Lemma baseline_cases (i : Z) (hour : float) :
  0 <= i <= 9 -> In hour hours ->
  exists u, 30 <= u <= 175 /\ In u grid /\
            baseValue_of (Number.of_Z i) hour = Number.of_Z u.
Proof.
  intros Hi Hh. pose proof baselines_checked as Hcheck.
  rewrite forallb_forall in Hcheck.
  assert (Hin : In i (Zrange 0 10)) by (apply In_Zrange; simpl; lia).
  specialize (Hcheck i Hin). rewrite forallb_forall in Hcheck.
  specialize (Hcheck hour Hh). unfold baseline_on_grid in Hcheck.
  apply existsb_exists in Hcheck. destruct Hcheck as (u & Hu & E).
  apply Leibniz.eqb_spec in E.
  assert (Hr : 30 <= u <= 175).
  { unfold grid in Hu. apply in_map_iff in Hu. destruct Hu as (j & <- & Hj).
    apply In_Zrange_inv in Hj. simpl in Hj. lia. }
  exists u. rewrite !of_Z_uint63 by lia. auto.
Qed.

Lemma hundredths_check_spec (u k : Z) :
  hundredths_check u = true -> In k (Zrange (100 * (u - 15)) 3001) ->
  within (float_of u - 15) (float_of u + 15) k = true.
Proof. unfold hundredths_check. intros H. rewrite forallb_forall in H. apply H. Qed.

Lemma In_hundredths (u k : Z) :
  100 * (u - 15) <= k <= 100 * (u + 15) -> In k (Zrange (100 * (u - 15)) 3001).
Proof. intros H. apply In_Zrange. change (Z.of_nat 3001) with 3001. lia. Qed.

Lemma grid_spec (u : Z) : In u grid -> hundredths_check u = true.
Proof.
  pose proof grid_checked as Hcheck. rewrite forallb_forall in Hcheck. apply Hcheck.
Qed.

Lemma within_spec (below above : float) (k : Z) :
  0 <= k < 9223372036854775808 ->
  within below above k = true ->
  let v := (Number.of_Z k / 100)%float in
  (0 <=? v)%float = true /\ (15 <=? v)%float = true /\
  (below <=? v)%float = true /\ (v <=? above)%float = true.
Proof.
  intros Hk H. cbv zeta. unfold within in H. cbv zeta in H.
  rewrite of_Z_uint63 by exact Hk.
  rewrite !andb_true_iff in H. tauto.
Qed.

Lemma hundredths_cases (u k : Z) :
  In u grid -> 30 <= u <= 175 ->
  100 * (u - 15) <= k <= 100 * (u + 15) ->
  let v := (Number.of_Z k / 100)%float in
  (0 <=? v)%float = true /\ (15 <=? v)%float = true /\
  (Number.of_Z u - 15 <=? v)%float = true /\ (v <=? Number.of_Z u + 15)%float = true.
Proof.
  intros Hu Hr Hk. rewrite (of_Z_uint63 u) by lia.
  apply within_spec; [lia|].
  apply hundredths_check_spec; [apply grid_spec, Hu | apply In_hundredths, Hk].
Qed.

Lemma fallbackSample_value (h : Host) (site : string) (w : World) (i : nat) :
  value (fallbackSample h site w i) =
  (Math_round ((baseline h site w i + (random w i * 30 - 15)) * 100) / 100)%float.
Proof. reflexivity. Qed.

Lemma fallbackSample_timestamp (h : Host) (site : string) (w : World) (i : nat) :
  timestamp (fallbackSample h site w i) = fallback_timestamp w i.
Proof. reflexivity. Qed.

(** Every entry is a number, at least 15 and within 15 units of its
    baseline. *)
Lemma fallbackSample_bounds (h : Host) (site : string) (w : World) (i : nat) :
  remove_non_digits site <> ""%string ->
  (String.length (remove_non_digits site) <= 308)%nat ->
  unit_draws w ->
  let v := value (fallbackSample h site w i) in
  let b := baseline h site w i in
  (0 <=? v)%float = true /\ (15 <=? v)%float = true /\
  (b - 15 <=? v)%float = true /\ (v <=? b + 15)%float = true.
Proof.
  intros Hne Hlen Hdraws. cbv zeta. rewrite fallbackSample_value.
  destruct (siteIndex_cases site Hne Hlen) as (idx & Hidx & Eidx).
  destruct (baseline_cases idx _ Hidx (getHours_cases h (fallback_timestamp w i)))
    as (u & Hu & Hgrid & Eb).
  rewrite <- Eidx in Eb. fold (baseline h site w i) in Eb. rewrite Eb.
  destruct (Hdraws i) as [H0 H1].
  destruct (FallbackArithmetic.fallback_value_hundredths
              (Number.of_Z u) (random w i) u
              (FallbackArithmetic.finite_of_Z u ltac:(lia))
              (FallbackArithmetic.val_of_Z u ltac:(lia))
              ltac:(lia) H0 H1) as (k & Hk & ->).
  exact (hundredths_cases u k Hgrid Hu Hk).
Qed.

Lemma nth_error_map_seq {A : Type} (f : nat -> A) (n i : nat) (x : A) :
  nth_error (map f (seq 0 n)) i = Some x -> (i < n)%nat /\ x = f i.
Proof.
  intros H. rewrite nth_error_map in H.
  destruct (nth_error (seq 0 n) i) as [j|] eqn:E; [|discriminate].
  injection H as <-.
  assert (Hi : (i < List.length (seq 0 n))%nat)
    by (apply nth_error_Some; congruence).
  rewrite length_seq in Hi.
  rewrite nth_error_seq in E.
  destruct (Nat.ltb_spec i n); [|lia]. injection E as <-. auto.
Qed.

Lemma StronglySorted_map_seq {A : Type} (R : A -> A -> Prop) (f : nat -> A) (n a : nat) :
  (forall i j, (a <= i < j)%nat -> (j < a + n)%nat -> R (f i) (f j)) ->
  StronglySorted R (map f (seq a n)).
Proof.
  revert a. induction n as [|n IH]; intros a H; simpl; constructor.
  - apply IH. intros i j Hij Hj. apply H; lia.
  - apply Forall_forall. intros x Hx. apply in_map_iff in Hx.
    destruct Hx as (j & <- & Hj). apply in_seq in Hj. apply H; lia.
Qed.

(** ** The fallback series as a whole *)

Lemma TimeClip_in_range (t : Z) : - max_time <= t <= max_time -> TimeClip t = Some t.
Proof.
  intros H. unfold TimeClip. destruct (Z.leb_spec (Z.abs t) max_time); [reflexivity|lia].
Qed.

Lemma fallbackSample_ext (h : Host) (site : string) (w w' : World) (i : nat) :
  now w = now w' -> random w i = random w' i ->
  fallbackSample h site w i = fallbackSample h site w' i.
Proof. intros Hn Hr. unfold fallbackSample. rewrite Hn, Hr. reflexivity. Qed.

Lemma example_draws : unit_draws example_world.
Proof. intros i. split; reflexivity. Qed.

(** C9 (amended): the series is determined by the site id, the clock and
    the 24 draws of [Math.random]; it has 24 entries; the baseline of an
    entry does not depend on the draws; and when the site id has between
    1 and 308 digits and the draws lie in [0, 1), every entry is within
    15 units of its baseline. *)
Theorem fallback_determined_by_draws (h : Host) (site : string) (w w' : World) :
  now w = now w' ->
  (forall i, (i < 24)%nat -> random w i = random w' i) ->
  remove_non_digits site <> ""%string ->
  (String.length (remove_non_digits site) <= 308)%nat ->
  unit_draws w ->
  fallbackData h site w = fallbackData h site w' /\
  List.length (fallbackData h site w) = 24%nat /\
  forall i s,
    nth_error (fallbackData h site w) i = Some s ->
    baseline h site w i = baseline h site w' i /\
    (baseline h site w i - 15 <=? value s)%float = true /\
    (value s <=? baseline h site w i + 15)%float = true.
Proof.
  intros Hnow Hdraws Hne Hlen Hunit. split; [|split].
  - unfold fallbackData. apply map_ext_in. intros i Hi. apply in_seq in Hi.
    apply fallbackSample_ext; [assumption | apply Hdraws; lia].
  - apply fallbackData_length.
  - intros i s Hs. apply nth_error_map_seq in Hs. destruct Hs as [_ ->].
    split; [unfold baseline, fallback_timestamp; now rewrite Hnow|].
    pose proof (fallbackSample_bounds h site w i Hne Hlen Hunit) as H.
    cbv zeta in H. tauto.
Qed.

(** C9 (counterexample): at the same site and the same instant, a
    different draw gives a different series. *)
Theorem fallback_depends_on_draws :
  now example_world = now other_world /\
  fallbackData utc_host "site_104" example_world
    <> fallbackData utc_host "site_104" other_world.
Proof.
  split; [reflexivity|]. intros H.
  apply (f_equal (fun l => match l with s :: _ => value s | [] => nan end)) in H.
  revert H. apply float_neq. vm_compute. discriminate.
Qed.

(** C10 (amended): for a site id with between 1 and 308 digits, a clock
    at least 23 hours after the earliest date, and draws in [0, 1), the
    timestamps of the series are valid and strictly ascending and every
    value is at least 15, hence nonnegative. *)
Theorem fallback_series_invariant (h : Host) (site : string) (w : World) :
  remove_non_digits site <> ""%string ->
  (String.length (remove_non_digits site) <= 308)%nat ->
  - max_time + 23 * msPerHour <= now w <= max_time ->
  unit_draws w ->
  StronglySorted earlier (fallbackData h site w) /\
  Forall (fun s => (0 <=? value s)%float = true /\ (15 <=? value s)%float = true)
         (fallbackData h site w).
Proof.
  intros Hne Hlen Hnow Hunit. split.
  - unfold fallbackData. apply StronglySorted_map_seq. intros i j Hij Hj.
    exists (now w - (23 - Z.of_nat i) * 60 * 60 * 1000),
           (now w - (23 - Z.of_nat j) * 60 * 60 * 1000).
    rewrite !fallbackSample_timestamp. unfold fallback_timestamp.
    unfold max_time, msPerHour in Hnow.
    rewrite !TimeClip_in_range by (unfold max_time; lia).
    repeat split; lia.
  - apply Forall_forall. intros s Hs. unfold fallbackData in Hs.
    apply in_map_iff in Hs. destruct Hs as (i & <- & _).
    pose proof (fallbackSample_bounds h site w i Hne Hlen Hunit) as H.
    cbv zeta in H. tauto.
Qed.

(** C10 (counterexample): a site id of 310 digits is read as [Infinity];
    the site index and every value of the series are then NaN, so no
    value is nonnegative. *)
Theorem long_site_id_gives_NaN :
  remove_non_digits long_site_id = long_site_id /\
  String.length long_site_id = 310%nat /\
  Forall (fun s => (0 <=? value s)%float = false)
         (fallbackData utc_host long_site_id example_world).
Proof.
  split; [vm_compute; reflexivity|]. split; [vm_compute; reflexivity|].
  vm_compute. repeat constructor.
Qed.

Lemma fallback_determined_by_draws_witness :
  fallbackData utc_host "site_104" example_world
    = fallbackData utc_host "site_104" replayed_world /\
  List.length (fallbackData utc_host "site_104" example_world) = 24%nat /\
  forall i s,
    nth_error (fallbackData utc_host "site_104" example_world) i = Some s ->
    baseline utc_host "site_104" example_world i
      = baseline utc_host "site_104" replayed_world i /\
    (baseline utc_host "site_104" example_world i - 15 <=? value s)%float = true /\
    (value s <=? baseline utc_host "site_104" example_world i + 15)%float = true.
Proof.
  apply (fallback_determined_by_draws utc_host "site_104" example_world replayed_world).
  - reflexivity.
  - intros i Hi. apply Nat.ltb_lt in Hi. simpl. rewrite Hi. reflexivity.
  - vm_compute. discriminate.
  - vm_compute. lia.
  - intros i. split; reflexivity.
Defined.

Lemma fallback_series_invariant_witness :
  StronglySorted earlier (fallbackData utc_host "site_104" example_world) /\
  Forall (fun s => (0 <=? value s)%float = true /\ (15 <=? value s)%float = true)
         (fallbackData utc_host "site_104" example_world).
Proof.
  apply (fallback_series_invariant utc_host "site_104" example_world).
  - vm_compute. discriminate.
  - vm_compute. lia.
  - vm_compute. split; discriminate.
  - intros i. split; reflexivity.
Defined.

(** ** Lower bounds on rounded results *)

Module LowerBounds.
Import Binary64 Binary64Facts.

(** *** Shifting right, whatever was lost before *)

Lemma shr_1_quotient (M k : Z) (mrs : shr_record) :
  0 <= M -> 0 <= k -> shr_m mrs = M / 2 ^ k -> shr_m (shr_1 mrs) = M / 2 ^ (k + 1).
Proof.
  intros HM Hk Hm. destruct mrs as [m r s]. cbn [shr_m] in Hm.
  pose proof (pow2_pos k Hk) as Hp.
  assert (Hm0 : 0 <= m) by (subst m; apply Z.div_pos; lia).
  rewrite shr_1_nonneg by assumption. cbn [shr_m].
  rewrite pow2_add, Z.pow_1_r by lia. subst m. rewrite Z.div_div by lia. reflexivity.
Qed.

Lemma iter_shr_1_quotient (M : Z) (p : positive) :
  0 <= M ->
  forall k mrs, 0 <= k -> shr_m mrs = M / 2 ^ k ->
  shr_m (iter_pos shr_1 p mrs) = M / 2 ^ (k + Zpos p).
Proof.
  intros HM. induction p as [p IH|p IH|]; intros k mrs Hk H; cbn [iter_pos].
  - replace (k + Zpos p~1) with (k + 1 + Zpos p + Zpos p) by lia.
    apply IH; [lia|]. apply IH; [lia|]. now apply shr_1_quotient.
  - replace (k + Zpos p~0) with (k + Zpos p + Zpos p) by lia.
    apply IH; [lia|]. now apply IH.
  - now apply shr_1_quotient.
Qed.

Lemma shr_quotient (M e n : Z) (l : location) :
  0 <= M ->
  exists mrs,
    shr (shr_record_of_loc M l) e n = (mrs, e + Z.max 0 n) /\
    shr_m mrs = M / 2 ^ Z.max 0 n /\
    (n <= 0 -> mrs = shr_record_of_loc M l).
Proof.
  intros HM.
  assert (H0 : shr_m (shr_record_of_loc M l) = M / 2 ^ 0)
    by (rewrite Z.pow_0_r, Z.div_1_r; destruct l as [|[]]; reflexivity).
  destruct n as [|p|p]; cbn [shr].
  - eexists. split; [f_equal; lia|]. split; [exact H0|reflexivity].
  - eexists. split; [reflexivity|]. split; [|lia].
    replace (Z.max 0 (Zpos p)) with (0 + Zpos p) by lia.
    apply iter_shr_1_quotient; [assumption|lia|exact H0].
  - eexists. split; [f_equal; lia|]. split; [exact H0|reflexivity].
Qed.

(** *** Rounding never goes below a number that is below the exact value *)

(** The mantissa [m] at exponent [e] has at least the digits that are
    kept; [l] tells what was lost below it. *)
Lemma round_aux_lower (s : bool) (m e : Z) (l : location) (mb eb : Z) :
  0 < m -> 0 <= e + scale -> e <= fexp64 (Zdigits2 m + e) ->
  canonical mb eb -> dyadic mb eb <= dyadic m e ->
  exists m' e',
    binary_round_aux prec emax s m e l = pack s m' e' /\
    0 < m' /\ dyadic mb eb <= dyadic m' e'.
Proof.
  intros Hm He Hfe Hb Hle. unfold binary_round_aux, shr_fexp. rewrite !fexp64_eq.
  set (n := fexp64 (Zdigits2 m + e) - e).
  assert (Hn : 0 <= n) by (unfold n; lia).
  destruct (shr_quotient m e n l (Z.lt_le_incl _ _ Hm)) as (mrs1 & Hshr1 & Hm1 & _).
  rewrite Hshr1. cbv beta iota. replace (Z.max 0 n) with n in * by lia.
  set (m2 := round_nearest_even (shr_m mrs1) (loc_of_shr_record mrs1)).
  pose proof (round_nearest_even_bounds mrs1) as Hm2. fold m2 in Hm2.
  rewrite Hm1 in Hm2.
  pose proof (pow2_pos n Hn) as Hpn.
  pose proof (Zdigits2_bounds m Hm) as [Hdlo Hdhi].
  pose proof (Zdigits2_pos m Hm) as Hdpos.
  assert (Hq0 : 0 <= m / 2 ^ n) by (apply Z.div_pos; lia).
  assert (He1 : -1074 <= e + n) by (unfold n, fexp64; lia).
  assert (Hnormal : -1074 < e + n -> 2 ^ 52 <= m / 2 ^ n < 2 ^ 53).
  { intros H. assert (En : n = Zdigits2 m - 53) by (unfold n, fexp64 in *; lia).
    assert (Hd : Zdigits2 (m / 2 ^ n) = 53)
      by (rewrite Zdigits2_div by lia; lia).
    assert (0 < m / 2 ^ n).
    { apply Z.div_str_pos. split; [lia|].
      eapply Z.le_trans; [|exact Hdlo]. apply pow2_le. lia. }
    pose proof (Zdigits2_bounds (m / 2 ^ n)) as Hbd. rewrite Hd in Hbd.
    apply Hbd. assumption. }
  assert (Hsub : e + n = -1074 -> m / 2 ^ n < 2 ^ 53).
  { intros H. apply Z.div_lt_upper_bound; [lia|].
    eapply Z.lt_le_trans; [exact Hdhi|].
    rewrite <- pow2_add by lia. apply pow2_le. unfold n, fexp64 in *. lia. }
  assert (Hm2hi : m2 <= 2 ^ 53).
  { destruct (Z.eq_dec (e + n) (-1074)) as [E|E];
      [specialize (Hsub E)|assert (H : -1074 < e + n) by lia; specialize (Hnormal H)];
      lia. }
  assert (Hm2lo : -1074 < e + n -> 2 ^ 52 <= m2).
  { intros H. specialize (Hnormal H). lia. }
  destruct (renormalize m2 (e + n) (conj (Z.le_trans _ _ _ Hq0 (proj1 Hm2)) Hm2hi)
              He1 Hm2lo) as (mrs2 & e' & Hshr2 & Hpos & Hee & Hdy & Hcan).
  change (shr_record_of_loc m2 loc_Exact) with (Build_shr_record m2 false false).
  rewrite ?fexp64_eq, Hshr2. cbv beta iota.
  assert (Hfloor : dyadic mb eb <= dyadic (m / 2 ^ n) (e + n)).
  { destruct (canonical_facts _ _ Hb) as (Heb & _ & _).
    destruct (Z.le_gt_cases (e + n) eb) as [Hge|Hlt].
    - rewrite (dyadic_align mb eb (e + n)) by lia.
      apply dyadic_le; [lia|].
      apply Z.div_le_lower_bound; [lia|].
      apply (dyadic_le_inv _ _ e He).
      rewrite Z.mul_comm, dyadic_shift by lia.
      rewrite <- dyadic_align by lia. assumption.
    - apply Z.lt_le_incl, canonical_below; try assumption.
      apply Hnormal. lia. }
  assert (Hlow : dyadic mb eb <= dyadic (shr_m mrs2) e').
  { rewrite Hdy. eapply Z.le_trans; [exact Hfloor|]. apply dyadic_le; lia. }
  exists (shr_m mrs2), e'. split; [reflexivity|]. split; [|assumption].
  destruct (canonical_facts _ _ Hb) as (Heb & _ & _).
  assert (0 < dyadic mb eb) by (apply dyadic_pos; [unfold scale; lia|apply Hb]).
  destruct (Z.eq_dec (shr_m mrs2) 0) as [E|E]; [|lia].
  rewrite E in Hlow. replace (dyadic 0 e') with 0 in Hlow by (unfold dyadic; lia). lia.
Qed.

Lemma pack_at_least (m' e' V : Z) :
  0 < m' -> V <= dyadic m' e' -> at_least V (pack false m' e').
Proof.
  intros Hm HV. unfold pack. destruct m' as [|p|p]; try lia.
  destruct (e' <=? 971); [right|left; reflexivity].
  split; [reflexivity|]. rewrite SFvalue_finite. exact HV.
Qed.

Lemma at_least_weaken (V W : Z) (y : spec_float) :
  W <= V -> at_least V y -> at_least W y.
Proof. intros H [->|[Hf Hv]]; [now left|right; split; [assumption|lia]]. Qed.

Lemma representable_pos (V : Z) : representable V -> 0 < V.
Proof.
  intros (m & e & Hc & ->). destruct (canonical_facts _ _ Hc) as (He & _).
  apply dyadic_pos; [unfold scale; lia|apply Hc].
Qed.

(** A number of at most 53 digits at an exponent of the format. *)
Lemma dyadic_representable (j k : Z) :
  0 < j < 2 ^ 53 -> -1074 <= k -> representable (dyadic j k).
Proof.
  intros Hj Hk. pose proof (Zdigits2_bounds j (proj1 Hj)) as [Hlo Hhi].
  pose proof (Zdigits2_pos j (proj1 Hj)) as Hd.
  assert (Hd53 : Zdigits2 j <= 53) by (apply Zdigits2_le; lia).
  set (t := Z.min (53 - Zdigits2 j) (k + 1074)).
  assert (Ht : 0 <= t) by (unfold t; lia).
  exists (j * 2 ^ t), (k - t). split.
  - split; [pose proof (pow2_pos t Ht); nia|].
    rewrite Zdigits2_shift by lia. unfold fexp64, t. lia.
  - rewrite dyadic_shift by (unfold scale; lia). f_equal. lia.
Qed.

Lemma binary_round_at_least (p : positive) (e V : Z) :
  0 <= e + scale -> representable V -> V <= dyadic (Zpos p) e ->
  at_least V (binary_round prec emax false p e).
Proof.
  intros He (mb & eb & Hb & ->) Hle. unfold binary_round. rewrite fexp64_eq.
  set (f := fexp64 (Zpos (digits2_pos p) + e)).
  destruct (shl_align_spec p e f) as (mz & -> & Hmz).
  set (ez := Z.min e f) in *.
  assert (Hf : -1074 <= f) by (unfold f, fexp64; lia).
  assert (Hez : 0 <= ez + scale) by (unfold ez, scale in *; lia).
  assert (Hk : 0 <= e - ez) by (unfold ez; lia).
  destruct (round_aux_lower false (Zpos mz) ez loc_Exact mb eb) as (m' & e' & -> & Hm' & Hlow);
    try assumption; try reflexivity.
  - rewrite Hmz, Zdigits2_shift by (try apply pow2_pos; lia).
    replace (Zdigits2 (Zpos p) + (e - ez) + ez) with (Zpos (digits2_pos p) + e)
      by (simpl Zdigits2; lia).
    fold f. unfold ez. lia.
  - replace (dyadic (Zpos mz) ez) with (dyadic (Zpos p) e); [assumption|].
    rewrite (dyadic_align _ e ez) by (try assumption; unfold ez; lia).
    f_equal. exact (eq_sym Hmz).
  - now apply pack_at_least.
Qed.

Lemma binary_normalize_at_least (z e V : Z) :
  0 <= e + scale -> representable V -> V <= dyadic z e ->
  at_least V (binary_normalize prec emax z e false).
Proof.
  intros He HV Hle. pose proof (representable_pos V HV) as Hpos.
  assert (Hp : 0 < 2 ^ (e + scale)) by now apply pow2_pos.
  destruct z as [|p|p]; cbn [binary_normalize].
  - unfold dyadic in Hle. lia.
  - now apply binary_round_at_least.
  - unfold dyadic in Hle. nia.
Qed.

(** *** Sums and differences *)

Lemma SFadd_at_least (x y : spec_float) (V : Z) :
  valid_binary x = true -> SFfinite x = true ->
  valid_binary y = true -> SFfinite y = true ->
  representable V -> V <= SFvalue x + SFvalue y ->
  at_least V (SFadd prec emax x y).
Proof.
  intros Hvx Hfx Hvy Hfy HV Hle. pose proof (representable_pos V HV) as Hpos.
  destruct x as [sx| | |sx mx ex], y as [sy| | |sy my ey]; try discriminate;
    cbn [SFadd].
  - cbn [SFvalue] in Hle. lia.
  - cbn [SFvalue] in Hle. right. split; [reflexivity|]. cbn [SFvalue]. lia.
  - cbn [SFvalue] in Hle. right. split; [reflexivity|]. cbn [SFvalue]. lia.
  - pose proof Hvx as Hcx. pose proof Hvy as Hcy.
    apply bounded_canonical in Hcx, Hcy. destruct Hcx as [Hcx _], Hcy as [Hcy _].
    destruct (canonical_facts _ _ Hcx) as (Hex & _).
    destruct (canonical_facts _ _ Hcy) as (Hey & _).
    assert (Hez : 0 <= Z.min ex ey + scale) by (unfold scale; lia).
    cbv zeta. apply binary_normalize_at_least; try assumption.
    rewrite dyadic_add, !aligned_value by (try assumption; lia). assumption.
Qed.

Lemma SFsub_at_least (x y : spec_float) (V : Z) :
  valid_binary x = true -> SFfinite x = true ->
  valid_binary y = true -> SFfinite y = true ->
  representable V -> V <= SFvalue x - SFvalue y ->
  at_least V (SFsub prec emax x y).
Proof.
  intros Hvx Hfx Hvy Hfy HV Hle. pose proof (representable_pos V HV) as Hpos.
  destruct x as [sx| | |sx mx ex], y as [sy| | |sy my ey]; try discriminate;
    cbn [SFsub].
  - cbn [SFvalue] in Hle. lia.
  - rewrite SFvalue_finite in Hle. cbn [SFvalue] in Hle.
    right. split; [reflexivity|]. rewrite SFvalue_finite.
    destruct sy; cbn [negb cond_Zopp] in *; lia.
  - cbn [SFvalue] in Hle. right. split; [reflexivity|]. cbn [SFvalue]. lia.
  - pose proof Hvx as Hcx. pose proof Hvy as Hcy.
    apply bounded_canonical in Hcx, Hcy. destruct Hcx as [Hcx _], Hcy as [Hcy _].
    destruct (canonical_facts _ _ Hcx) as (Hex & _).
    destruct (canonical_facts _ _ Hcy) as (Hey & _).
    assert (Hez : 0 <= Z.min ex ey + scale) by (unfold scale; lia).
    cbv zeta. apply binary_normalize_at_least; try assumption.
    rewrite dyadic_sub, !aligned_value by (try assumption; lia). assumption.
Qed.

(** A bound on each term gives a bound on the sum. *)
Lemma SFadd_at_least_terms (x y : spec_float) (A B V : Z) :
  valid_binary x = true -> valid_binary y = true ->
  at_least A x -> at_least B y -> representable V -> V <= A + B ->
  at_least V (SFadd prec emax x y).
Proof.
  intros Hvx Hvy [->|[Hfx HA]] [->|[Hfy HB]] HV Hle.
  - left. reflexivity.
  - left. destruct y; try discriminate; reflexivity.
  - left. destruct x; try discriminate; reflexivity.
  - apply SFadd_at_least; try assumption. lia.
Qed.

(** *** Products *)

Lemma at_least_cases (A : Z) (x : spec_float) :
  valid_binary x = true -> 0 < A -> at_least A x ->
  x = S754_infinity false \/
  exists m e, x = S754_finite false m e /\ canonical (Zpos m) e /\
              A <= dyadic (Zpos m) e.
Proof.
  intros Hv HA [->|[Hf Hle]]; [now left|right].
  destruct x as [sx| | |sx mx ex]; try discriminate.
  - cbn [SFvalue] in Hle. lia.
  - apply bounded_canonical in Hv. destruct Hv as [Hc _].
    destruct (canonical_facts _ _ Hc) as (He & _).
    pose proof (dyadic_pos (Zpos mx) ex ltac:(unfold scale; lia) eq_refl) as Hp.
    rewrite SFvalue_finite in Hle. destruct sx; cbn [cond_Zopp] in Hle; [lia|].
    exists mx, ex. auto.
Qed.

Lemma dyadic_mul (a b ea eb : Z) :
  0 <= ea + scale -> 0 <= eb + scale -> 0 <= ea + eb + scale ->
  dyadic a ea * dyadic b eb = dyadic (a * b) (ea + eb) * 2 ^ scale.
Proof.
  intros Ha Hb Hab. unfold dyadic.
  assert (Hs : 0 <= scale) by (unfold scale; lia).
  assert (P : 2 ^ (ea + eb + scale) * 2 ^ scale = 2 ^ (ea + scale) * 2 ^ (eb + scale))
    by (rewrite <- !pow2_add by lia; f_equal; lia).
  rewrite <- (Z.mul_assoc (a * b)), P. ring.
Qed.

Lemma SFmul_at_least (x y : spec_float) (A B V : Z) :
  valid_binary x = true -> valid_binary y = true ->
  0 < A -> 0 < B -> at_least A x -> at_least B y ->
  representable V -> V * 2 ^ scale <= A * B ->
  at_least V (SFmul prec emax x y).
Proof.
  intros Hvx Hvy HA HB Hx Hy HV Hle.
  assert (Hs : 0 < 2 ^ scale) by (apply pow2_pos; unfold scale; lia).
  destruct (at_least_cases A x Hvx HA Hx) as [->|(mx & ex & -> & Hcx & Hax)];
    destruct (at_least_cases B y Hvy HB Hy) as [->|(my & ey & -> & Hcy & Hby)];
    try (left; reflexivity).
  cbn [SFmul xorb]. destruct HV as (mb & eb & Hb & ->).
  destruct (canonical_facts _ _ Hcx) as (Hex & _).
  destruct (canonical_facts _ _ Hcy) as (Hey & _).
  change (Zpos (mx * my)) with (Zpos mx * Zpos my).
  assert (Hpos : 0 < Zpos mx * Zpos my) by reflexivity.
  assert (Hee : 0 <= ex + ey + scale) by (unfold scale; lia).
  assert (Hlow : dyadic mb eb <= dyadic (Zpos mx * Zpos my) (ex + ey)).
  { apply (Z.mul_le_mono_pos_r _ _ (2 ^ scale) Hs).
    rewrite <- dyadic_mul by (unfold scale; lia).
    eapply Z.le_trans; [exact Hle|].
    apply Z.mul_le_mono_nonneg; lia. }
  destruct (round_aux_lower false (Zpos mx * Zpos my) (ex + ey) loc_Exact mb eb
              Hpos Hee (product_exponent _ _ _ _ Hcx Hcy) Hb Hlow)
    as (m' & e' & -> & Hm' & Hlow').
  now apply pack_at_least.
Qed.

(** *** Quotients *)

Lemma shift_left (m s : Z) :
  0 <= s ->
  match s with Z.pos _ => Z.shiftl m s | 0 => m | Z.neg _ => 0 end = m * 2 ^ s.
Proof.
  destruct s as [|p|p]; intros Hs; [simpl; lia|apply Z.shiftl_mul_pow2; lia|lia].
Qed.

Lemma div_core_lower (mx my : positive) (ex ey mb eb : Z) :
  canonical (Zpos mx) ex -> canonical (Zpos my) ey -> ey <= 971 ->
  canonical mb eb ->
  dyadic mb eb * dyadic (Zpos my) ey <= dyadic (Zpos mx) ex * 2 ^ scale ->
  exists q e' l,
    SFdiv_core_binary prec emax (Zpos mx) ex (Zpos my) ey = (q, e', l) /\
    0 < q /\ 0 <= e' + scale /\ e' <= fexp64 (Zdigits2 q + e') /\
    dyadic mb eb <= dyadic q e'.
Proof.
  intros Hcx Hcy Hey' Hb Hle. unfold SFdiv_core_binary. rewrite fexp64_eq.
  set (d1 := Zdigits2 (Zpos mx)). set (d2 := Zdigits2 (Zpos my)).
  set (k := d1 + ex - (d2 + ey)).
  set (e' := Z.min (fexp64 k) (ex - ey)).
  set (s := ex - ey - e').
  assert (Hs : 0 <= s) by (unfold s, e'; lia).
  assert (Hps : 0 < 2 ^ s) by now apply pow2_pos.
  set (m' := match s with Z.pos _ => Z.shiftl (Zpos mx) s | 0 => Zpos mx | Z.neg _ => 0 end).
  assert (Em : m' = Zpos mx * 2 ^ s) by (apply shift_left; assumption).
  destruct (Z.div_eucl m' (Zpos my)) as [q r] eqn:Ediv.
  assert (Eq : q = m' / Zpos my) by (unfold Z.div; now rewrite Ediv).
  exists q, e', (new_location (Zpos my) r). split; [reflexivity|].
  destruct (canonical_facts _ _ Hcx) as (Hex & _).
  destruct (canonical_facts _ _ Hcy) as (Hey & _).
  destruct (canonical_facts _ _ Hb) as (Heb & _).
  pose proof (Zdigits2_bounds (Zpos mx) eq_refl) as [Hx1 Hx2].
  pose proof (Zdigits2_bounds (Zpos my) eq_refl) as [Hy1 Hy2].
  pose proof (Zdigits2_pos (Zpos mx) eq_refl) as Hd1.
  pose proof (Zdigits2_pos (Zpos my) eq_refl) as Hd2.
  fold d1 in Hx1, Hx2, Hd1. fold d2 in Hy1, Hy2, Hd2.
  assert (He' : 0 <= e' + scale) by (unfold e', fexp64, scale; lia).
  (* a power of two below the quotient *)
  assert (Hpow : forall j, 0 <= j -> j + d2 <= d1 + s - 1 -> 2 ^ j <= q).
  { intros j Hj Hjs. rewrite Eq, Em. apply Z.div_le_lower_bound; [lia|].
    apply Z.le_trans with (2 ^ d2 * 2 ^ j).
    - apply Z.mul_le_mono_nonneg_r; [apply Z.lt_le_incl, pow2_pos|]; lia.
    - rewrite <- pow2_add by lia.
      apply Z.le_trans with (2 ^ (d1 - 1) * 2 ^ s).
      + rewrite <- pow2_add by lia. apply pow2_le. lia.
      + apply Z.mul_le_mono_nonneg_r; lia. }
  assert (Hlow : dyadic mb eb <= dyadic q e').
  { destruct (Z.le_gt_cases e' eb) as [Hge|Hlt].
    - rewrite (dyadic_align mb eb e') by lia.
      apply dyadic_le; [lia|]. rewrite Eq, Em.
      apply Z.div_le_lower_bound; [lia|].
      rewrite dyadic_mul in Hle by (unfold scale; lia).
      apply Z.mul_le_mono_pos_r in Hle; [|apply pow2_pos; unfold scale; lia].
      assert (He2 : 0 <= e' + ey + scale) by (unfold e', fexp64, scale; lia).
      rewrite (dyadic_align _ (eb + ey) (e' + ey)) in Hle by lia.
      rewrite (dyadic_align _ ex (e' + ey)) in Hle by (unfold s in Hs; lia).
      apply dyadic_le_inv in Hle; [|assumption].
      replace (eb + ey - (e' + ey)) with (eb - e') in Hle by lia.
      replace (ex - (e' + ey)) with s in Hle by (unfold s; lia).
      lia.
    - apply Z.lt_le_incl, canonical_below; try assumption.
      apply Hpow; [lia|]. unfold s, e', k, fexp64 in *. lia. }
  assert (Hq : 0 < q).
  { assert (0 < dyadic mb eb) by (apply dyadic_pos; [unfold scale; lia|apply Hb]).
    destruct (Z.lt_trichotomy q 0) as [H0|[H0|H0]]; [| |assumption].
    - assert (dyadic q e' <= 0)
        by (unfold dyadic; apply Z.mul_nonpos_nonneg;
            [lia|apply Z.lt_le_incl, pow2_pos; lia]).
      lia.
    - rewrite H0 in Hlow. unfold dyadic in Hlow at 2. lia. }
  split; [assumption|]. split; [assumption|]. split; [|assumption].
  apply Z.le_trans with (fexp64 k); [unfold e'; lia|].
  apply fexp64_mono.
  pose proof (Zdigits2_pos q Hq) as Hdq.
  destruct (Z.le_gt_cases (k - e') 0) as [Hk|Hk]; [lia|].
  assert (k - e' <= Zdigits2 q); [|lia].
  apply Zdigits2_ge; [assumption|]. apply Hpow; [lia|]. unfold s, k. lia.
Qed.

Lemma SFdiv_at_least (x : spec_float) (my : positive) (ey A V : Z) :
  valid_binary x = true -> valid_binary (S754_finite false my ey) = true ->
  0 < A -> at_least A x -> representable V ->
  V * dyadic (Zpos my) ey <= A * 2 ^ scale ->
  at_least V (SFdiv prec emax x (S754_finite false my ey)).
Proof.
  intros Hvx Hvy HA Hx (mb & eb & Hb & ->) Hle.
  assert (Hs : 0 < 2 ^ scale) by (apply pow2_pos; unfold scale; lia).
  destruct (at_least_cases A x Hvx HA Hx) as [->|(mx & ex & -> & Hcx & Hax)];
    [left; reflexivity|].
  apply bounded_canonical in Hvy. destruct Hvy as [Hcy Hey].
  destruct (div_core_lower mx my ex ey mb eb Hcx Hcy Hey Hb)
    as (q & e' & l & Hcore & Hq & He' & Hfe & Hlow).
  { eapply Z.le_trans; [exact Hle|]. apply Z.mul_le_mono_nonneg_r; lia. }
  cbn [SFdiv xorb]. rewrite Hcore.
  destruct (round_aux_lower false q e' l mb eb Hq He' Hfe Hb Hlow)
    as (m' & e'' & -> & Hm' & Hlow').
  now apply pack_at_least.
Qed.

(** *** Square roots *)

Lemma sqrt_core_lower (mx : positive) (ex mb eb : Z) :
  canonical (Zpos mx) ex -> canonical mb eb ->
  dyadic mb eb * dyadic mb eb <= dyadic (Zpos mx) ex * 2 ^ scale ->
  exists q e' l,
    SFsqrt_core_binary prec emax (Zpos mx) ex = (q, e', l) /\
    0 < q /\ 0 <= e' + scale /\ e' <= fexp64 (Zdigits2 q + e') /\
    dyadic mb eb <= dyadic q e'.
Proof.
  intros Hcx Hb Hle. unfold SFsqrt_core_binary. rewrite fexp64_eq.
  set (d := Zdigits2 (Zpos mx)).
  set (k := Z.div2 (d + ex + 1)).
  set (e' := Z.min (fexp64 k) (Z.div2 ex)).
  set (s := ex - 2 * e').
  assert (Hk2 : 2 * k <= d + ex + 1 <= 2 * k + 1)
    by (unfold k; rewrite Z.div2_div;
        pose proof (Z.div_mod (d + ex + 1) 2 ltac:(lia));
        pose proof (Z.mod_pos_bound (d + ex + 1) 2 ltac:(lia)); lia).
  assert (He2 : 2 * Z.div2 ex <= ex)
    by (rewrite Z.div2_div; pose proof (Z.div_mod ex 2 ltac:(lia));
        pose proof (Z.mod_pos_bound ex 2 ltac:(lia)); lia).
  assert (He3 : ex <= 2 * Z.div2 ex + 1)
    by (rewrite Z.div2_div; pose proof (Z.div_mod ex 2 ltac:(lia));
        pose proof (Z.mod_pos_bound ex 2 ltac:(lia)); lia).
  assert (Hs : 0 <= s) by (unfold s, e'; lia).
  assert (Hps : 0 < 2 ^ s) by now apply pow2_pos.
  set (m' := match s with Z.pos _ => Z.shiftl (Zpos mx) s | 0 => Zpos mx | Z.neg _ => 0 end).
  assert (Em : m' = Zpos mx * 2 ^ s) by (apply shift_left; assumption).
  assert (Hm' : 0 < m') by (rewrite Em; lia).
  destruct (Z.sqrtrem m') as [q r] eqn:Esq.
  assert (Eq : q = Z.sqrt m') by (rewrite <- Z.sqrtrem_sqrt, Esq; reflexivity).
  eexists q, e', _. split; [reflexivity|].
  destruct (canonical_facts _ _ Hcx) as (Hex & _).
  destruct (canonical_facts _ _ Hb) as (Heb & _).
  pose proof (Zdigits2_bounds (Zpos mx) eq_refl) as [Hx1 Hx2].
  pose proof (Zdigits2_pos (Zpos mx) eq_refl) as Hd1.
  fold d in Hx1, Hx2, Hd1.
  assert (He' : -1074 <= e' \/ -537 <= e') by (unfold e', fexp64; lia).
  assert (He's : 0 <= e' + scale) by (unfold scale; lia).
  (* a power of two below the root *)
  assert (Hpow : forall j, 0 <= j -> 2 * j <= d - 1 + s -> 2 ^ j <= q).
  { intros j Hj Hjs. rewrite Eq. apply Z.sqrt_le_square; [lia|apply Z.lt_le_incl, pow2_pos; lia|].
    rewrite <- pow2_add, Em by lia.
    apply Z.le_trans with (2 ^ (d - 1) * 2 ^ s).
    + rewrite <- pow2_add by lia. apply pow2_le. lia.
    + apply Z.mul_le_mono_nonneg_r; lia. }
  assert (Hlow : dyadic mb eb <= dyadic q e').
  { destruct (Z.le_gt_cases e' eb) as [Hge|Hlt].
    - rewrite (dyadic_align mb eb e') by lia.
      apply dyadic_le; [lia|]. rewrite Eq.
      assert (Hk0 : 0 <= mb * 2 ^ (eb - e'))
        by (apply Z.mul_nonneg_nonneg; [destruct Hb; lia|apply Z.lt_le_incl, pow2_pos; lia]).
      apply Z.sqrt_le_square; [lia|assumption|].
      rewrite dyadic_mul in Hle by (unfold scale; lia).
      apply Z.mul_le_mono_pos_r in Hle; [|apply pow2_pos; unfold scale; lia].
      assert (He4 : 0 <= 2 * e' + scale) by (unfold scale; lia).
      rewrite (dyadic_align _ (eb + eb) (2 * e')) in Hle by lia.
      rewrite (dyadic_align _ ex (2 * e')) in Hle by (unfold s in Hs; lia).
      apply dyadic_le_inv in Hle; [|assumption].
      fold s in Hle. rewrite <- Em in Hle.
      replace (eb + eb - 2 * e') with ((eb - e') + (eb - e')) in Hle by lia.
      rewrite pow2_add in Hle by lia.
      eapply Z.le_trans; [|exact Hle]. apply Z.eq_le_incl. ring.
    - apply Z.lt_le_incl, canonical_below; try assumption.
      apply Hpow; [lia|]. unfold s, e', fexp64 in *. lia. }
  assert (Hq : 0 < q).
  { assert (0 < dyadic mb eb) by (apply dyadic_pos; [unfold scale; lia|apply Hb]).
    pose proof (Z.sqrt_nonneg m') as Hq0. rewrite <- Eq in Hq0.
    destruct (Z.eq_dec q 0) as [H0|H0]; [|lia].
    rewrite H0 in Hlow. unfold dyadic in Hlow at 2. lia. }
  split; [assumption|]. split; [assumption|]. split; [|assumption].
  apply Z.le_trans with (fexp64 k); [unfold e'; lia|].
  apply fexp64_mono.
  pose proof (Zdigits2_pos q Hq) as Hdq.
  destruct (Z.le_gt_cases (k - e') 0) as [Hk|Hk]; [lia|].
  assert (k - e' <= Zdigits2 q); [|lia].
  apply Zdigits2_ge; [assumption|]. apply Hpow; [lia|]. unfold s. lia.
Qed.

Lemma SFsqrt_at_least (x : spec_float) (A V : Z) :
  valid_binary x = true -> 0 < A -> at_least A x -> representable V ->
  V * V <= A * 2 ^ scale ->
  at_least V (SFsqrt prec emax x).
Proof.
  intros Hvx HA Hx (mb & eb & Hb & ->) Hle.
  assert (Hs : 0 < 2 ^ scale) by (apply pow2_pos; unfold scale; lia).
  destruct (at_least_cases A x Hvx HA Hx) as [->|(mx & ex & -> & Hcx & Hax)];
    [left; reflexivity|].
  destruct (sqrt_core_lower mx ex mb eb Hcx Hb)
    as (q & e' & l & Hcore & Hq & He' & Hfe & Hlow).
  { eapply Z.le_trans; [exact Hle|]. apply Z.mul_le_mono_nonneg_r; lia. }
  cbn [SFsqrt]. rewrite Hcore.
  destruct (round_aux_lower false q e' l mb eb Hq He' Hfe Hb Hlow)
    as (m' & e'' & -> & Hm' & Hlow').
  now apply pack_at_least.
Qed.

(** *** Signs *)

Lemma finite_not_negative (m : positive) (e : Z) : at_least 0 (S754_finite false m e).
Proof.
  right. split; [reflexivity|]. rewrite SFvalue_finite. cbn [cond_Zopp].
  unfold dyadic. apply Z.mul_nonneg_nonneg; [lia|]. apply Z.pow_nonneg. lia.
Qed.

Lemma round_aux_not_negative (m e : Z) (l : location) :
  not_negative (binary_round_aux prec emax false m e l).
Proof.
  unfold binary_round_aux.
  destruct (shr_fexp prec emax m e l) as [mrs' e'].
  destruct (shr_fexp prec emax _ e' loc_Exact) as [mrs'' e''].
  destruct (shr_m mrs'') as [|p|p].
  - right. right. split; [reflexivity|]. cbn [SFvalue]. lia.
  - destruct (e'' <=? emax - prec).
    + right. apply finite_not_negative.
    + right. left. reflexivity.
  - left. reflexivity.
Qed.

Lemma SFsqrt_not_negative (x : spec_float) : not_negative (SFsqrt prec emax x).
Proof.
  destruct x as [s|[|]| |[|] m e]; cbn [SFsqrt];
    try (left; reflexivity); try (right; left; reflexivity).
  - right. right. split; [reflexivity|]. cbn [SFvalue]. lia.
  - destruct (SFsqrt_core_binary prec emax (Zpos m) e) as [[mz ez] lz].
    apply round_aux_not_negative.
Qed.

(** The product of a positive number and a number that is not negative. *)
Lemma SFmul_not_negative (mx : positive) (ex : Z) (y : spec_float) :
  valid_binary y = true -> not_negative y ->
  not_negative (SFmul prec emax (S754_finite false mx ex) y).
Proof.
  intros Hv [->|[->|[Hf Hy]]]; [left; reflexivity|right; left; reflexivity|].
  pose proof (SFvalue_sign y Hv) as Hs.
  destruct y as [s| | |s m e]; try discriminate; cbn [SFmul xorb].
  - right. right. split; [reflexivity|]. destruct s; cbn [SFvalue]; lia.
  - destruct s; [lia|]. apply round_aux_not_negative.
Qed.

(** *** The range of the finite numbers *)

Lemma dyadic_one_lt (a b : Z) :
  0 <= a + scale -> dyadic 1 a < dyadic 1 b -> a < b.
Proof.
  intros Ha H. unfold dyadic in H. rewrite !Z.mul_1_l in H.
  destruct (Z.lt_ge_cases a b) as [Hlt|Hge]; [assumption|exfalso].
  destruct (Z.le_gt_cases 0 (b + scale)) as [Hb|Hb].
  - pose proof (pow2_le (b + scale) (a + scale)). lia.
  - rewrite (Z.pow_neg_r 2 (b + scale)) in H by lia.
    pose proof (pow2_pos (a + scale) Ha). lia.
Qed.

Lemma dyadic_one_le (a b : Z) : 0 <= a + scale -> a <= b -> dyadic 1 a <= dyadic 1 b.
Proof.
  intros Ha H. unfold dyadic. rewrite !Z.mul_1_l. apply pow2_le. lia.
Qed.

Lemma dyadic_scale (j k : Z) : 0 <= k + scale -> dyadic j k = j * dyadic 1 k.
Proof. intros. unfold dyadic. ring. Qed.

Lemma mag_le_top (m e : Z) :
  canonical m e -> e <= 971 -> dyadic m e < dyadic 1 1024.
Proof.
  intros Hc He. destruct (canonical_facts _ _ Hc) as (Hlo & Hhi & _).
  apply Z.lt_le_trans with (dyadic (2 ^ 53) e).
  - unfold dyadic. apply Z.mul_lt_mono_pos_r; [apply pow2_pos; unfold scale; lia|lia].
  - replace (2 ^ 53) with (1 * 2 ^ 53) by lia.
    rewrite dyadic_shift by (unfold scale; lia).
    apply dyadic_one_le; unfold scale; lia.
Qed.

Lemma finite_range (x : spec_float) :
  valid_binary x = true -> SFfinite x = true ->
  - dyadic 1 1024 < SFvalue x < dyadic 1 1024.
Proof.
  intros Hv Hf.
  assert (Hp : 0 < dyadic 1 1024) by (apply dyadic_pos; unfold scale; lia).
  destruct x as [s| | |s m e]; try discriminate Hf.
  - cbn [SFvalue]. lia.
  - apply bounded_canonical in Hv. destruct Hv as [Hc He].
    pose proof (mag_le_top _ _ Hc He) as Hm.
    destruct (canonical_facts _ _ Hc) as (Hlo & _).
    pose proof (dyadic_pos (Zpos m) e ltac:(unfold scale; lia) eq_refl).
    rewrite SFvalue_finite. destruct s; cbn [cond_Zopp]; lia.
Qed.

Lemma finite_le_top (x : spec_float) :
  valid_binary x = true -> SFfinite x = true ->
  SFvalue x <= dyadic 9007199254740991 971.
Proof.
  intros Hv Hf.
  pose proof (dyadic_pos 9007199254740991 971 ltac:(unfold scale; lia) eq_refl) as Hp.
  destruct x as [s| | |s m e]; try discriminate Hf.
  - cbn [SFvalue]. lia.
  - apply bounded_canonical in Hv. destruct Hv as [Hc He].
    destruct (canonical_facts _ _ Hc) as (Hlo & Hhi & _).
    pose proof (dyadic_pos (Zpos m) e ltac:(unfold scale; lia) eq_refl) as Hm.
    rewrite SFvalue_finite. destruct s; cbn [cond_Zopp]; [lia|].
    destruct (Z.eq_dec e 971) as [->|Hne].
    + apply dyadic_le; [unfold scale; lia|].
      change (2 ^ 53) with 9007199254740992 in Hhi. lia.
    + apply Z.lt_le_incl, canonical_below; [assumption|lia|].
      change (2 ^ 52) with 4503599627370496. lia.
Qed.

Lemma at_least_overflow (y : spec_float) :
  valid_binary y = true -> at_least (dyadic 1 1024) y -> y = S754_infinity false.
Proof.
  intros Hv [->|[Hf Hle]]; [reflexivity|].
  pose proof (finite_range y Hv Hf). lia.
Qed.

(** *** The last step of the threshold *)

Lemma SFltb_infinity (x : spec_float) : SFltb (S754_infinity false) x = false.
Proof. destruct x as [s|[|]| |s m e]; reflexivity. Qed.

Lemma SFltb_nan (x : spec_float) : SFltb S754_nan x = false.
Proof. reflexivity. Qed.

Lemma SFltb_at_least (y x : spec_float) :
  valid_binary y = true -> valid_binary x = true -> SFfinite x = true ->
  at_least (SFvalue x) y -> SFltb y x = false.
Proof.
  intros Hvy Hvx Hfx [->|[Hfy Hle]]; [apply SFltb_infinity|].
  unfold SFltb. rewrite SFcompare_finite by assumption.
  destruct (Z.compare_spec (SFvalue y) (SFvalue x)); try reflexivity. lia.
Qed.

(** The sum of a finite number and a bounded one is not below a number
    that the exact sum reaches. *)
Lemma add_not_below (m t x : float) (W : Z) :
  finite m = true -> finite x = true -> at_least W (Prim2SF t) ->
  val x <= val m + W -> (m + t <? x)%float = false.
Proof.
  unfold finite, val. intros Hm Hx Ht Hle. rewrite ltb_spec.
  apply SFltb_at_least; auto using Prim2SF_valid.
  rewrite add_spec.
  pose proof (Prim2SF_valid m) as Hvm. pose proof (Prim2SF_valid t) as Hvt.
  pose proof (Prim2SF_valid x) as Hvx.
  destruct Ht as [->|[Hft HW]].
  { left. destruct (Prim2SF m); try discriminate Hm; reflexivity. }
  set (top := S754_finite false 9007199254740991 971).
  assert (Hvtop : valid_binary top = true) by reflexivity.
  assert (Etop : SFvalue top = dyadic 9007199254740991 971) by reflexivity.
  destruct (Z.le_gt_cases (SFvalue (Prim2SF m) + SFvalue (Prim2SF t)) (SFvalue top))
    as [Hfit|Hover].
  - right.
    destruct (SFadd_between (Prim2SF m) (Prim2SF t) (Prim2SF x) top)
      as (_ & Hf & Hlo & _); auto. lia.
  - apply at_least_weaken with (SFvalue top).
    + rewrite Etop. now apply finite_le_top.
    + apply SFadd_at_least; auto.
      * exists 9007199254740991, 971. split; [split; reflexivity|exact Etop].
      * lia.
Qed.

(** *** Two numbers that differ are apart *)

Lemma gap_below (x m : spec_float) (sx : bool) (mx : positive) (ex : Z) :
  valid_binary x = true -> valid_binary m = true -> SFfinite m = true ->
  x = S754_finite sx mx ex -> -1073 <= ex ->
  SFvalue m < SFvalue x ->
  dyadic 1 (ex - 1) <= SFvalue x - SFvalue m.
Proof.
  intros Hvx Hvm Hfm -> Hex Hlt.
  apply bounded_canonical in Hvx. destruct Hvx as [Hcx _].
  destruct (canonical_facts _ _ Hcx) as (_ & Hxhi & Hxlo).
  assert (Hs1 : 0 <= ex - 1 + scale) by (unfold scale; lia).
  assert (Hp1 : 0 < dyadic 1 (ex - 1)) by (apply dyadic_pos; lia).
  assert (Ex : dyadic (Zpos mx) ex = 2 * Zpos mx * dyadic 1 (ex - 1)).
  { rewrite (dyadic_align _ ex (ex - 1)) by lia.
    replace (ex - (ex - 1)) with 1 by lia. rewrite dyadic_scale by lia.
    change (2 ^ 1) with 2. ring. }
  rewrite SFvalue_finite in *.
  destruct m as [sm| | |sm mm em]; try discriminate Hfm.
  - cbn [SFvalue] in *. destruct sx; cbn [cond_Zopp] in *; nia.
  - apply bounded_canonical in Hvm. destruct Hvm as [Hcm _].
    destruct (canonical_facts _ _ Hcm) as (Hem & Hmhi & Hmlo).
    rewrite SFvalue_finite in *.
    destruct (Z.le_gt_cases ex em) as [Hge|Hlt'].
    + (* both are multiples of the unit of [x] *)
      assert (Em : dyadic (Zpos mm) em =
                   2 * (Zpos mm * 2 ^ (em - ex)) * dyadic 1 (ex - 1)).
      { rewrite (dyadic_align _ em (ex - 1)) by lia.
        replace (em - (ex - 1)) with (em - ex + 1) by lia.
        rewrite pow2_add, dyadic_scale by lia. change (2 ^ 1) with 2. ring. }
      rewrite Ex, Em in *. clear Ex Em.
      revert Hlt. generalize (Zpos mm * 2 ^ (em - ex)). generalize (dyadic 1 (ex - 1)) Hp1.
      intros P HP K Hlt.
      set (A := cond_Zopp sx (Zpos mx) - cond_Zopp sm K).
      assert (EA : cond_Zopp sx (2 * Zpos mx * P) - cond_Zopp sm (2 * K * P) = 2 * A * P)
        by (unfold A; destruct sx, sm; cbn [cond_Zopp]; ring).
      rewrite EA. assert (HA : 0 < 2 * A * P) by lia.
      assert (0 < A).
      { destruct (Z.lt_ge_cases 0 A) as [H|H]; [assumption|exfalso].
        assert (A * P <= 0) by (apply Z.mul_nonpos_nonneg; lia). lia. }
      assert (1 * P <= A * P) by (apply Z.mul_le_mono_nonneg_r; lia). lia.
    + (* [x] is normal and [m] is smaller in magnitude *)
      assert (Hmx : 2 ^ 52 <= Zpos mx) by (apply Hxlo; lia).
      assert (Em : dyadic (Zpos mm) em <= 9007199254740991 * dyadic 1 (ex - 1)).
      { apply Z.le_trans with (dyadic 9007199254740991 em).
        - apply dyadic_le; [unfold scale; lia|].
          change (2 ^ 53) with 9007199254740992 in Hmhi. lia.
        - rewrite dyadic_scale by (unfold scale; lia).
          apply Z.mul_le_mono_nonneg_l; [lia|].
          apply dyadic_one_le; [unfold scale|]; lia. }
      pose proof (dyadic_pos (Zpos mm) em ltac:(unfold scale; lia) eq_refl) as Hmp.
      change (2 ^ 52) with 4503599627370496 in Hmx.
      rewrite Ex in *. clear Ex.
      revert Hlt Em Hmp. generalize (dyadic (Zpos mm) em) (dyadic 1 (ex - 1)) Hp1.
      intros M P HP Hlt Em Hmp. destruct sx, sm; cbn [cond_Zopp] in *; nia.
Qed.

(** The binade of a number. *)
Lemma binade (m e : Z) :
  canonical m e ->
  dyadic 1 (Zdigits2 m - 1 + e) <= dyadic m e < dyadic 1 (Zdigits2 m + e).
Proof.
  intros Hc. destruct (canonical_facts _ _ Hc) as (He & _). destruct Hc as [Hm _].
  pose proof (Zdigits2_bounds m Hm) as [Hlo Hhi].
  pose proof (Zdigits2_pos m Hm) as Hd.
  assert (Hs : 0 <= e + scale) by (unfold scale; lia).
  replace (Zdigits2 m - 1 + e) with (e + (Zdigits2 m - 1)) by lia.
  replace (Zdigits2 m + e) with (e + Zdigits2 m) by lia.
  rewrite <- !dyadic_shift by lia. rewrite !Z.mul_1_l. split.
  - apply dyadic_le; assumption.
  - unfold dyadic. apply Z.mul_lt_mono_pos_r; [apply pow2_pos|]; assumption.
Qed.

End LowerBounds.

(** ** The screen for anomalies *)

Lemma ltb_irrefl (x : float) : (x <? x)%float = false.
Proof.
  rewrite ltb_spec. unfold SFltb, SFcompare.
  destruct (Prim2SF x) as [[]|[]| |[] m e]; try reflexivity;
    rewrite Z.compare_refl, ?Pos.compare_refl; reflexivity.
Qed.

Lemma zero_or_nan_add (x y : spec_float) :
  zero_or_nan x -> zero_or_nan y -> zero_or_nan (SF64add x y).
Proof.
  destruct x as [[]| | |], y as [[]| | |]; simpl; tauto.
Qed.

Lemma zero_or_nan_div (x y : spec_float) : zero_or_nan x -> zero_or_nan (SF64div x y).
Proof.
  destruct x as [sx| | |]; simpl; try tauto; intros _; destruct y; simpl; exact I.
Qed.

Lemma sum_from_zero_or_nan (l : list float) (acc : float) :
  zero_or_nan (Prim2SF acc) -> Forall (fun x => zero_or_nan (Prim2SF x)) l ->
  zero_or_nan (Prim2SF (sum_from acc l)).
Proof.
  intros Hacc Hl. revert acc Hacc. induction Hl as [|x l Hx _ IH]; intros acc Hacc.
  - exact Hacc.
  - simpl. apply IH. rewrite add_spec. now apply zero_or_nan_add.
Qed.

(** ** Series of identical values *)

Module SteadySeries.
Import Binary64 Binary64Facts LowerBounds.

Lemma zero_at_least (j : Z) : at_least (dyadic 0 j) (Prim2SF 0).
Proof. right. split; [reflexivity|]. unfold dyadic. cbn [SFvalue]. change (SFvalue (Prim2SF 0)) with 0. lia. Qed.

(** Adding [n] times a number that is at least [2^j]. *)
Lemma sum_from_at_least (s : float) (j : Z) (l : list float) :
  -1074 <= j -> at_least (dyadic 1 j) (Prim2SF s) ->
  Forall (fun y => y = s) l ->
  forall (acc : float) (k : Z),
    0 <= k -> k + Z.of_nat (List.length l) < 2 ^ 53 ->
    at_least (dyadic k j) (Prim2SF acc) ->
    at_least (dyadic (k + Z.of_nat (List.length l)) j) (Prim2SF (sum_from acc l)).
Proof.
  intros Hj Hs Hl. induction Hl as [|y l Hy _ IH]; intros acc k Hk Hn Hacc.
  - cbn [List.length sum_from Z.of_nat]. now rewrite Z.add_0_r.
  - cbn [List.length sum_from] in *. rewrite Nat2Z.inj_succ in *.
    replace (k + Z.succ (Z.of_nat (List.length l)))
      with (k + 1 + Z.of_nat (List.length l)) by lia.
    apply IH; [lia|lia|]. subst y. rewrite add_spec.
    apply (SFadd_at_least_terms _ _ (dyadic k j) (dyadic 1 j));
      auto using Prim2SF_valid.
    + apply dyadic_representable; lia.
    + rewrite dyadic_add. lia.
Qed.

Lemma of_nat_shape (n : nat) :
  (0 < n)%nat -> Z.of_nat n < 2 ^ 53 ->
  exists m e,
    Prim2SF (Number.of_nat n) = S754_finite false m e /\
    dyadic (Zpos m) e = Z.of_nat n * 2 ^ scale.
Proof.
  intros Hn Hlt. unfold Number.of_nat.
  destruct (of_Z_exact (Z.of_nat n) ltac:(lia)) as [Hf Hv].
  assert (Hs : 0 < 2 ^ scale) by (apply pow2_pos; unfold scale; lia).
  unfold finite, val in Hf, Hv.
  pose proof (SFvalue_sign _ (Prim2SF_valid (Number.of_Z (Z.of_nat n)))) as Hsign.
  destruct (Prim2SF (Number.of_Z (Z.of_nat n))) as [s| | |s m e]; try discriminate Hf.
  - cbn [SFvalue] in Hv. nia.
  - destruct s; [nia|]. exists m, e. split; [reflexivity|].
    rewrite <- Hv. now rewrite SFvalue_finite.
Qed.

Lemma three_at_least : at_least (dyadic 3 0) (Prim2SF 3).
Proof.
  right. split; [reflexivity|].
  change (Prim2SF 3) with (S754_finite false 6755399441055744 (-51)).
  rewrite SFvalue_finite. cbn [cond_Zopp].
  change 6755399441055744 with (3 * 2 ^ 51).
  rewrite dyadic_shift by (unfold scale; lia). apply Z.le_refl.
Qed.

(** From a bound on the deviation to a bound on three standard
    deviations. *)
Lemma deviation_chain (d : float) (kd : Z) (l : list float) :
  -537 <= kd -> at_least (dyadic 1 kd) (Prim2SF d) ->
  l <> [] -> Z.of_nat (List.length l) < 2 ^ 53 ->
  Forall (fun y => y = (d * d)%float) l ->
  at_least (dyadic 3 kd)
    (Prim2SF (3 * sqrt (sum_from 0 l / Number.of_nat (List.length l)))).
Proof.
  intros Hkd Hd Hne Hlen Hl.
  assert (Hsc : 0 <= scale) by (unfold scale; lia).
  assert (Hk1 : 0 <= kd + scale) by (unfold scale; lia).
  assert (Hk2 : 0 <= kd + kd + scale) by (unfold scale; lia).
  assert (Hp1 : 0 < dyadic 1 kd) by (apply dyadic_pos; lia).
  assert (Hp2 : 0 < dyadic 1 (kd + kd)) by (apply dyadic_pos; lia).
  assert (Hn : (0 < List.length l)%nat) by (destruct l; [congruence|simpl; lia]).
  (* the square *)
  assert (Hs : at_least (dyadic 1 (kd + kd)) (Prim2SF (d * d))).
  { rewrite mul_spec.
    apply (SFmul_at_least _ _ (dyadic 1 kd) (dyadic 1 kd)); auto using Prim2SF_valid.
    - apply dyadic_representable; lia.
    - rewrite dyadic_mul by lia. apply Z.le_refl. }
  (* the sum *)
  pose proof (sum_from_at_least (d * d) (kd + kd) l ltac:(lia) Hs Hl 0 0
                (Z.le_refl 0) ltac:(lia) (zero_at_least _)) as Hsum.
  rewrite Z.add_0_l in Hsum.
  (* the mean *)
  destruct (of_nat_shape _ Hn Hlen) as (mn & en & En & Hvn).
  assert (Hq : at_least (dyadic 1 (kd + kd))
                 (Prim2SF (sum_from 0 l / Number.of_nat (List.length l)))).
  { rewrite div_spec, En.
    apply (SFdiv_at_least _ mn en (dyadic (Z.of_nat (List.length l)) (kd + kd)));
      auto using Prim2SF_valid.
    - rewrite <- En. apply Prim2SF_valid.
    - apply dyadic_pos; lia.
    - apply dyadic_representable; lia.
    - rewrite Hvn, (dyadic_scale (Z.of_nat _)) by lia.
      apply Z.eq_le_incl. ring. }
  (* the root *)
  assert (Hr : at_least (dyadic 1 kd)
                 (Prim2SF (sqrt (sum_from 0 l / Number.of_nat (List.length l))))).
  { rewrite sqrt_spec.
    apply (SFsqrt_at_least _ (dyadic 1 (kd + kd))); auto using Prim2SF_valid.
    - apply dyadic_representable; lia.
    - rewrite dyadic_mul by lia. apply Z.le_refl. }
  rewrite mul_spec.
  apply (SFmul_at_least _ _ (dyadic 3 0) (dyadic 1 kd)); auto using Prim2SF_valid.
  - apply dyadic_pos; lia.
  - apply three_at_least.
  - apply dyadic_representable; lia.
  - rewrite dyadic_mul by lia. apply Z.le_refl.
Qed.

Lemma steady_exponent (x : float) (sx : bool) (mx : positive) (ex : Z) :
  Prim2SF x = S754_finite sx mx ex -> steady x = true -> -536 <= ex.
Proof.
  intros Hx. unfold steady, is_zero, is_nan.
  rewrite !eqb_spec, leb_spec, abs_spec, Hx.
  change (Prim2SF zero) with (S754_zero false).
  change (Prim2SF 0x1p-484) with (S754_finite false 4503599627370496 (-536)).
  assert (E1 : SFeqb (S754_finite sx mx ex) (S754_zero false) = false)
    by (destruct sx; reflexivity).
  assert (E2 : SFeqb (S754_finite sx mx ex) (S754_finite sx mx ex) = true).
  { unfold SFeqb, SFcompare. rewrite Z.compare_refl, Pos.compare_cont_refl.
    destruct sx; reflexivity. }
  rewrite E1, E2. cbn [negb orb SFabs]. unfold SFleb, SFcompare.
  destruct (Z.compare_spec (-536) ex) as [H|H|H]; try lia; try discriminate.
Qed.

Section Deviations.
Variables (x m : float) (l : list float).
Hypothesis Hne : l <> [].
Hypothesis Hlen : Z.of_nat (List.length l) < 2 ^ 53.
Hypothesis Hl : Forall (fun y => y = ((x - m) * (x - m))%float) l.

(** An infinite deviation gives an infinite threshold. *)
Lemma threshold_unbounded :
  Prim2SF (x - m) = S754_infinity false ->
  Prim2SF (3 * sqrt (sum_from 0 l / Number.of_nat (List.length l))) = S754_infinity false.
Proof.
  intros Hd. apply at_least_overflow; [apply Prim2SF_valid|].
  apply at_least_weaken with (dyadic 3 1024).
  - rewrite (dyadic_scale 3) by (unfold scale; lia).
    pose proof (dyadic_pos 1 1024 ltac:(unfold scale; lia) eq_refl). lia.
  - apply (deviation_chain (x - m)); try assumption; [lia|]. left. exact Hd.
Qed.

Lemma threshold_not_negative :
  not_negative (Prim2SF (3 * sqrt (sum_from 0 l / Number.of_nat (List.length l)))).
Proof.
  rewrite mul_spec.
  change (Prim2SF 3) with (S754_finite false 6755399441055744 (-51)).
  apply SFmul_not_negative; [apply Prim2SF_valid|].
  rewrite sqrt_spec. apply SFsqrt_not_negative.
Qed.

(** A mean that is not below the value. *)
Lemma threshold_above_mean :
  finite m = true -> finite x = true -> val x <= val m ->
  (m + 3 * sqrt (sum_from 0 l / Number.of_nat (List.length l)) <? x)%float = false.
Proof.
  intros Hm Hx Hle. destruct threshold_not_negative as [Hnan|Hpos].
  - rewrite ltb_spec, add_spec, Hnan. unfold finite in Hm.
    destruct (Prim2SF m); try discriminate Hm; reflexivity.
  - apply (add_not_below m _ x 0); try assumption. lia.
Qed.

(** A mean below the value: the deviation is at least half a unit in
    the last place of the value, and what is computed from it covers
    the distance. *)
Lemma threshold_reaches (sx : bool) (mx : positive) (ex : Z) :
  Prim2SF x = S754_finite sx mx ex -> -536 <= ex ->
  finite m = true -> val m < val x ->
  (m + 3 * sqrt (sum_from 0 l / Number.of_nat (List.length l)) <? x)%float = false.
Proof.
  intros Hx Hex Hm Hlt.
  assert (Hfx : finite x = true) by (unfold finite; now rewrite Hx).
  pose proof (Prim2SF_valid x) as Hvx. pose proof (Prim2SF_valid m) as Hvm.
  pose proof (Prim2SF_valid (x - m)) as Hvd.
  assert (HG : dyadic 1 (ex - 1) <= val x - val m)
    by (apply (gap_below _ _ sx mx ex); auto; lia).
  assert (HGr : representable (dyadic 1 (ex - 1)))
    by (apply dyadic_representable; lia).
  assert (Hd : at_least (dyadic 1 (ex - 1)) (Prim2SF (x - m)))
    by (rewrite sub_spec; apply SFsub_at_least; auto).
  assert (Hk : exists kd, -537 <= kd /\
                          at_least (dyadic 1 kd) (Prim2SF (x - m)) /\
                          val x - val m < dyadic 1 (kd + 1)).
  { destruct (at_least_cases _ _ Hvd (representable_pos _ HGr) Hd)
      as [Hinf|(md & ed & Ed & Hcd & Hge)].
    - exists 1024. split; [lia|]. split; [left; exact Hinf|].
      pose proof (finite_range _ Hvx Hfx) as Rx.
      pose proof (finite_range _ Hvm Hm) as Rm.
      replace (dyadic 1 (1024 + 1)) with (2 * dyadic 1 1024).
      + unfold val. lia.
      + rewrite <- (dyadic_shift 1 1024 1) by (unfold scale; lia).
        rewrite (dyadic_scale (1 * 2 ^ 1)) by (unfold scale; lia).
        change (1 * 2 ^ 1) with 2. reflexivity.
    - pose proof (binade _ _ Hcd) as [Hlo Hhi].
      exists (Zdigits2 (Zpos md) - 1 + ed).
      replace (Zdigits2 (Zpos md) - 1 + ed + 1) with (Zdigits2 (Zpos md) + ed) by lia.
      assert (Hkd : ex - 1 < Zdigits2 (Zpos md) + ed)
        by (apply dyadic_one_lt; [unfold scale; lia|lia]).
      split; [lia|]. split.
      + right. rewrite Ed. split; [reflexivity|]. now rewrite SFvalue_finite.
      + destruct (Z.lt_ge_cases (val x - val m) (dyadic 1 (Zdigits2 (Zpos md) + ed)))
          as [H|H]; [assumption|exfalso].
        assert (Hd' : at_least (dyadic 1 (Zdigits2 (Zpos md) + ed)) (Prim2SF (x - m))).
        { rewrite sub_spec. apply SFsub_at_least; auto.
          apply dyadic_representable; lia. }
        rewrite Ed in Hd'. destruct Hd' as [Hd'|[_ Hd']]; [discriminate Hd'|].
        rewrite SFvalue_finite in Hd'. cbn [cond_Zopp] in Hd'. lia. }
  destruct Hk as (kd & Hkd & Hdk & Hdist).
  apply (add_not_below m _ x (dyadic 3 kd)); try assumption.
  - apply (deviation_chain (x - m)); assumption.
  - assert (E2 : dyadic 1 (kd + 1) = 2 * dyadic 1 kd).
    { rewrite <- (dyadic_shift 1 kd 1) by (unfold scale; lia).
      rewrite (dyadic_scale (1 * 2 ^ 1)) by (unfold scale; lia).
      change (1 * 2 ^ 1) with 2. reflexivity. }
    rewrite (dyadic_scale 3) by (unfold scale; lia).
    pose proof (dyadic_pos 1 kd ltac:(unfold scale; lia) eq_refl). lia.
Qed.

End Deviations.

Lemma SFltb_right_nan (y : spec_float) : SFltb y S754_nan = false.
Proof. destruct y as [s|s| |s m e]; reflexivity. Qed.

Lemma SFltb_right_bottom (y : spec_float) : SFltb y (S754_infinity true) = false.
Proof. destruct y as [s|[|]| |s m e]; reflexivity. Qed.

(** The threshold [m + t] is not below [x] in any of the cases that the
    mean [m] and the value [x] can be in. *)
Lemma not_below_cases (m t x : float) :
  not_negative (Prim2SF t) ->
  (Prim2SF (x - m) = S754_infinity false -> Prim2SF t = S754_infinity false) ->
  (finite m = true -> finite x = true -> (m + t <? x)%float = false) ->
  (m + t <? x)%float = false.
Proof.
  intros Hnn Hinf Hfin.
  destruct (Prim2SF x) as [sx|[|]| |sx mx ex] eqn:Ex;
    try (rewrite ltb_spec, Ex; apply SFltb_right_nan);
    try (rewrite ltb_spec, Ex; apply SFltb_right_bottom);
    destruct (Prim2SF m) as [sm|[|]| |sm mm em] eqn:Em;
    try (apply Hfin; unfold finite; rewrite ?Ex, ?Em; reflexivity);
    try (rewrite ltb_spec, add_spec, Ex, Em; reflexivity);
    try (rewrite ltb_spec, add_spec, Ex, Em, Hinf
           by (rewrite sub_spec, Ex, Em; reflexivity);
         reflexivity);
    rewrite ltb_spec, add_spec, Ex, Em;
    destruct Hnn as [->|[->|[Hf _]]]; try reflexivity;
    destruct (Prim2SF t); try discriminate Hf; reflexivity.
Qed.

(** A series of identical values, none of them so small that the square
    of a deviation vanishes, has no value above its threshold. *)
Lemma identical_values_threshold (x : float) (values : list float) :
  values <> [] -> Z.of_nat (List.length values) < 2 ^ 53 ->
  Forall (fun y => y = x) values -> steady x = true ->
  (anomaly_threshold values <? x)%float = false.
Proof.
  intros Hne Hlen Hall Hst. unfold anomaly_threshold, population_stddev. cbv zeta.
  set (m := arithmetic_mean values).
  set (l := map (fun y => ((y - m) * (y - m))%float) values).
  assert (Hl : Forall (fun y => y = ((x - m) * (x - m))%float) l).
  { unfold l. apply Forall_map. eapply Forall_impl; [|exact Hall].
    intros y ->. reflexivity. }
  assert (Hlne : l <> []) by (unfold l; destruct values; [congruence|discriminate]).
  assert (Hllen : List.length values = List.length l)
    by (unfold l; now rewrite length_map).
  rewrite Hllen in Hlen |- *.
  apply not_below_cases.
  - apply threshold_not_negative.
  - now apply threshold_unbounded.
  - intros Hm Hx. destruct (Z.le_gt_cases (val x) (val m)) as [Hle|Hlt].
    + now apply threshold_above_mean.
    + unfold finite in Hx. destruct (Prim2SF x) as [sx| | |sx mx ex] eqn:Ex;
        try discriminate Hx.
      * (* the values are zeros: so is their mean *)
        exfalso.
        assert (Hz : zero_or_nan (Prim2SF m)).
        { unfold m, arithmetic_mean. rewrite div_spec.
          apply zero_or_nan_div, sum_from_zero_or_nan; [exact I|].
          eapply Forall_impl; [|exact Hall]. intros y ->. now rewrite Ex. }
        unfold val in Hlt. rewrite Ex in Hlt.
        destruct (Prim2SF m); try contradiction; cbn [SFvalue] in Hlt; lia.
      * apply (threshold_reaches x m l Hlne Hlen Hl sx mx ex); try assumption.
        now apply (steady_exponent x sx mx ex).
Qed.

End SteadySeries.

(** C1 (amended): on a series that is not empty the anomaly list becomes
    the entries, in order, whose value is above the threshold computed in
    floating point from the mean and the population standard deviation;
    an entry whose value is the threshold is not flagged; and a series of
    fewer than 2^53 entries with one and the same value has no anomaly
    when that value is a zero, not finite, or at least 2^-484 in
    magnitude. *)
Theorem detectAnomalies_flags_above_threshold (data : list Sample) (st : State) :
  data <> [] ->
  anomalies (detectAnomalies data st) =
    filter (fun s => (anomaly_threshold (map value data) <? value s)%float) data /\
  (forall s, value s = anomaly_threshold (map value data) ->
             ~ In s (anomalies (detectAnomalies data st))) /\
  (forall x, Forall (fun s => value s = x) data ->
             Z.of_nat (List.length data) < 2 ^ 53 ->
             steady x = true ->
             anomalies (detectAnomalies data st) = []).
Proof.
  intros Hne. rewrite (detectAnomalies_nonempty data st Hne).
  cbn [anomalies setAnomalies]. split; [reflexivity|]. split.
  - intros s Hs Hin. apply filter_In in Hin. destruct Hin as [_ Hin].
    rewrite Hs, ltb_irrefl in Hin. discriminate.
  - intros x Hall Hlen Hst.
    assert (Hlt : (anomaly_threshold (map value data) <? x)%float = false).
    { apply SteadySeries.identical_values_threshold.
      - destruct data; [congruence|discriminate].
      - now rewrite length_map.
      - now apply Forall_map.
      - assumption. }
    revert Hlt. generalize (anomaly_threshold (map value data)). intros t Hlt.
    clear Hne Hlen. induction Hall as [|s l Hs _ IH]; [reflexivity|].
    cbn [filter]. rewrite Hs, Hlt. exact IH.
Qed.

(** C1 (counterexample): ten entries with the same value 0.1 * 2^-500 are
    all flagged: the computed mean falls just below the value and the
    squared deviations underflow to zero. *)
Theorem identical_tiny_values_all_flagged :
  Forall (fun s => value s = tiny) (constant_series tiny 10) /\
  List.length (constant_series tiny 10) = 10%nat /\
  anomalies (detectAnomalies (constant_series tiny 10) initial_state)
    = constant_series tiny 10.
Proof.
  split; [repeat constructor|]. split; [reflexivity|].
  vm_compute. reflexivity.
Qed.

Lemma constant_series_values (x : float) (n : nat) :
  Forall (fun s => value s = x) (constant_series x n).
Proof.
  unfold constant_series. apply Forall_map, Forall_forall. intros t _. reflexivity.
Qed.

Lemma constant_series_length (x : float) (n : nat) :
  List.length (constant_series x n) = n.
Proof.
  unfold constant_series. rewrite !length_map.
  assert (H : forall lo, List.length (Zrange lo n) = n); [|apply H].
  induction n as [|n IH]; intros lo; simpl; [reflexivity|]. now rewrite IH.
Qed.

Lemma detectAnomalies_flags_above_threshold_witness :
  anomalies (detectAnomalies (constant_series thirty_five_point_seven 96) initial_state) =
    filter (fun s =>
              (anomaly_threshold
                 (map value (constant_series thirty_five_point_seven 96)) <? value s)%float)
           (constant_series thirty_five_point_seven 96) /\
  arithmetic_mean (map value (constant_series thirty_five_point_seven 96))
    <> thirty_five_point_seven /\
  anomalies (detectAnomalies (constant_series thirty_five_point_seven 96) initial_state) = [].
Proof.
  destruct (detectAnomalies_flags_above_threshold
              (constant_series thirty_five_point_seven 96) initial_state)
    as (Hfilter & _ & Hsame).
  - discriminate.
  - split; [exact Hfilter|]. split.
    + apply float_neq. vm_compute. discriminate.
    + apply (Hsame thirty_five_point_seven).
      * apply constant_series_values.
      * rewrite constant_series_length. reflexivity.
      * reflexivity.
Defined.

(** ** Items read one by one *)








(** ** What [parseFloat] reads in a text *)



(** ** The readings of a response *)




(** ** The last 96 entries *)




